(** * x11bench: pixel normalisation, image comparison and diff rendering

    A shallow embedding of the capture-normalisation-and-comparison core of
    x11bench ([image.hpp]/[image.cpp], [compare.hpp]/[compare.cpp] and the
    mask based [capture.cpp]) together with the properties of the
    specification that are stated about it.

    Conventions of the embedding
    - [uint8_t] is [Byte.byte]; [uint32_t], [uint64_t], [unsigned long] and
      [int] are [Z] with the wrap-around of every unsigned operation
      written out ([mod 2^32], [mod 2^64]).
    - [double] is [spec_float] at precision 53 and maximal exponent 1024,
      the IEEE 754 binary64 format, with the operations of the standard
      library's [SpecFloat].
    - a C++ exception ([std::out_of_range]) is [None] in the [option]
      monad.
    - reading [std::vector] out of bounds is undefined behaviour in C++;
      the embedding reads [x00] and ignores such writes.  Every theorem that
      depends on buffer contents is stated for images that satisfy the
      buffer invariant [Image_ok], under which no access is out of
      bounds. *)

From Stdlib Require Import String.
From Stdlib Require Import ZArith List Bool Lia Zpower.
From Stdlib Require Import SpecFloat.
From Stdlib Require Strings.Byte.
Import ListNotations.

Local Open Scope Z_scope.

(* ================================================================== *)
(** * Machine integers and bytes *)
(* ================================================================== *)

Definition uint8_t : Set := Byte.byte.

Definition u8_to_Z (b : uint8_t) : Z := Z.of_N (Byte.to_N b).

(** Conversion of an integer to [uint8_t]: reduction modulo 256. *)
Definition u8_of_Z (z : Z) : uint8_t :=
  match Byte.of_N (Z.to_N (z mod 256)) with
  | Some b => b
  | None => Byte.x00
  end.

Definition wrap32 (z : Z) : Z := z mod 2 ^ 32.
Definition wrap64 (z : Z) : Z := z mod 2 ^ 64.

(* ================================================================== *)
(** * Exceptions and loops *)
(* ================================================================== *)

Definition bind {A B : Type} (m : option A) (k : A -> option B) : option B :=
  match m with
  | Some a => k a
  | None => None
  end.

Notation "x <- m ;; k" := (bind m (fun x => k))
  (at level 61, m at next level, right associativity).

(** [for (uint32_t i = start; i < start + n; i++) s = body(i, s)], stopping
    at the first exception. *)
Fixpoint for_loop {S : Type} (n : nat) (i : Z)
         (body : Z -> S -> option S) (s : S) : option S :=
  match n with
  | O => Some s
  | Datatypes.S n' =>
      s' <- body i s ;; for_loop n' (i + 1) body s'
  end.

(** [for (uint32_t i = 0; i < bound; i++)]. *)
Definition for_range {S : Type} (bound : Z)
           (body : Z -> S -> option S) (s : S) : option S :=
  for_loop (Z.to_nat bound) 0 body s.

(* ================================================================== *)
(** * [double] *)
(* ================================================================== *)

Definition double := spec_float.

Definition dprec : Z := 53.
Definition demax : Z := 1024.

Definition dadd : double -> double -> double := SFadd dprec demax.
Definition dmul : double -> double -> double := SFmul dprec demax.
Definition ddiv : double -> double -> double := SFdiv dprec demax.
Definition dlt : double -> double -> bool := SFltb.
Definition dle : double -> double -> bool := SFleb.

(** [static_cast<double>(z)] for an integer [z], rounded to nearest even
    when [z] needs more than 53 bits. *)
Definition double_of_Z (z : Z) : double := binary_normalize dprec demax z 0 false.

Definition dzero : double := S754_zero false.

(** [std::max(a, b)] on doubles: [(a < b) ? b : a]. *)
Definition dmax (a b : double) : double := if dlt a b then b else a.

(** [std::min(a, b)] on doubles: [(b < a) ? b : a]. *)
Definition dmin (a b : double) : double := if dlt b a then b else a.

(** [std::lround]: round to the nearest integer, halfway cases away from
    zero.  The result is unspecified in C++ for infinities and NaN; the
    embedding returns 0 there. *)
Definition lround (x : double) : Z :=
  match x with
  | S754_zero _ => 0
  | S754_finite s m e =>
      let mag :=
        match e with
        | Zneg k => (Zpos m + 2 ^ (Zpos k - 1)) / 2 ^ Zpos k
        | _ => Zpos m * 2 ^ e
        end in
      if s then - mag else mag
  | _ => 0
  end.

(* ================================================================== *)
(** * [image.hpp] / [image.cpp] *)
(* ================================================================== *)

Record Pixel := mkPixel { r : uint8_t; g : uint8_t; b : uint8_t; a : uint8_t }.

Record Image := mkImage {
  width_ : Z;             (* uint32_t *)
  height_ : Z;            (* uint32_t *)
  data_ : list uint8_t    (* RGBA, 4 bytes per pixel *)
}.

(** [Image() = default]. *)
Definition Image_default : Image := mkImage 0 0 [].

(** [Image(width, height)]: [data_(width * height * 4, 0)], the size being
    computed in [uint32_t]. *)
Definition Image_new (width height : Z) : Image :=
  mkImage width height
          (repeat Byte.x00 (Z.to_nat (wrap32 (wrap32 (width * height) * 4)))).

Definition empty (img : Image) : bool :=
  match data_ img with
  | [] => true
  | _ => false
  end.

(** [data_[i]]. *)
Definition at_ (d : list uint8_t) (i : Z) : uint8_t := nth (Z.to_nat i) d Byte.x00.

(** [data_[i] = v]. *)
Fixpoint store_nat (d : list uint8_t) (i : nat) (v : uint8_t) : list uint8_t :=
  match d, i with
  | [], _ => []
  | _ :: t, O => v :: t
  | h :: t, Datatypes.S i' => h :: store_nat t i' v
  end.

Definition store (d : list uint8_t) (i : Z) (v : uint8_t) : list uint8_t :=
  store_nat d (Z.to_nat i) v.

(** [size_t offset = (y * width_ + x) * 4], evaluated in [uint32_t]. *)
Definition pixel_offset (img : Image) (x y : Z) : Z :=
  wrap32 (wrap32 (wrap32 (y * width_ img) + x) * 4).

Definition get_pixel (img : Image) (x y : Z) : option Pixel :=
  if (x >=? width_ img) || (y >=? height_ img) then None
  else
    let offset := pixel_offset img x y in
    Some (mkPixel (at_ (data_ img) offset) (at_ (data_ img) (offset + 1))
                  (at_ (data_ img) (offset + 2)) (at_ (data_ img) (offset + 3))).

Definition set_pixel (img : Image) (x y : Z) (p : Pixel) : option Image :=
  if (x >=? width_ img) || (y >=? height_ img) then None
  else
    let offset := pixel_offset img x y in
    let d0 := store (data_ img) offset (r p) in
    let d1 := store d0 (offset + 1) (g p) in
    let d2 := store d1 (offset + 2) (b p) in
    let d3 := store d2 (offset + 3) (a p) in
    Some (mkImage (width_ img) (height_ img) d3).

(** The overload [set_pixel(x, y, r, g, b, a)]; the arguments are converted
    to [uint8_t] at the call. *)
Definition set_pixel_rgba (img : Image) (x y : Z) (vr vg vb va : Z) : option Image :=
  set_pixel img x y (mkPixel (u8_of_Z vr) (u8_of_Z vg) (u8_of_Z vb) (u8_of_Z va)).

(** The buffer invariant of a canonical image: dimensions are [uint32_t]
    values, the buffer holds exactly [width * height * 4] bytes and that
    size did not wrap around. *)
Definition Image_ok (img : Image) : Prop :=
  0 <= width_ img < 2 ^ 32 /\
  0 <= height_ img < 2 ^ 32 /\
  width_ img * height_ img * 4 < 2 ^ 32 /\
  Z.of_nat (length (data_ img)) = width_ img * height_ img * 4.

(* ================================================================== *)
(** * [compare.hpp] / [compare.cpp] *)
(* ================================================================== *)

(** What is inserted into a [std::ostringstream]: a string literal, an
    unsigned or signed integer, or a [double] (printed with [std::fixed]
    wherever the source uses it).  A message is the sequence of insertions;
    the rendering of numbers as decimal text is left to the stream. *)
Inductive msg_part :=
| Str (s : String.string)
| U32 (n : Z)
| Int (n : Z)
| Dbl (d : double).

Definition message_t := list msg_part.

Record CompareResult := mkCompareResult {
  match_ : bool;                 (* bool match = false *)
  different_pixels : Z;          (* uint32_t = 0 *)
  total_pixels : Z;              (* uint32_t = 0 *)
  difference_percent : double;   (* = 0.0 *)
  max_channel_diff : double;     (* = 0.0 *)
  avg_channel_diff : double;     (* = 0.0 *)
  message : message_t
}.

(** A default-initialised [CompareResult result;]. *)
Definition CompareResult_default : CompareResult :=
  mkCompareResult false 0 0 dzero dzero dzero [].

Definition set_match (res : CompareResult) (m : bool) : CompareResult :=
  mkCompareResult m (different_pixels res) (total_pixels res)
                  (difference_percent res) (max_channel_diff res)
                  (avg_channel_diff res) (message res).

Definition set_message (res : CompareResult) (msg : message_t) : CompareResult :=
  mkCompareResult (match_ res) (different_pixels res) (total_pixels res)
                  (difference_percent res) (max_channel_diff res)
                  (avg_channel_diff res) msg.

(** [std::abs(static_cast<int>(a) - static_cast<int>(b))]. *)
Definition channel_diff (x y : uint8_t) : Z := Z.abs (u8_to_Z x - u8_to_Z y).

(** [std::max({dr, dg, db, da})]. *)
Definition max4 (dr dg db da : Z) : Z := Z.max (Z.max (Z.max dr dg) db) da.

(** The locals of [fuzzy] that the pixel loop updates. *)
Record fuzzy_acc := mkAcc {
  acc_different : Z;       (* result.different_pixels, uint32_t *)
  acc_max : double;        (* result.max_channel_diff *)
  acc_total : double;      (* double total_diff *)
  acc_count : Z            (* uint64_t channel_count *)
}.

(** The body of the inner loop of [fuzzy] once both pixels are read. *)
Definition fuzzy_pixel (tolerance : Z) (p1 p2 : Pixel) (s : fuzzy_acc) : fuzzy_acc :=
  let dr := channel_diff (r p1) (r p2) in
  let dg := channel_diff (g p1) (g p2) in
  let db := channel_diff (b p1) (b p2) in
  let da := channel_diff (a p1) (a p2) in
  let max_diff := max4 dr dg db da in
  mkAcc (if max_diff >? tolerance
         then wrap32 (acc_different s + 1) else acc_different s)
        (dmax (acc_max s) (double_of_Z max_diff))
        (dadd (acc_total s) (double_of_Z (dr + dg + db + da)))
        (wrap64 (acc_count s + 4)).

Definition fuzzy_body (img1 img2 : Image) (tolerance : Z) (x y : Z)
           (s : fuzzy_acc) : option fuzzy_acc :=
  p1 <- get_pixel img1 x y ;;
  p2 <- get_pixel img2 x y ;;
  Some (fuzzy_pixel tolerance p1 p2 s).

Definition fuzzy_loops (img1 img2 : Image) (tolerance : Z) : option fuzzy_acc :=
  for_range (height_ img1)
    (fun y s => for_range (width_ img1) (fun x s => fuzzy_body img1 img2 tolerance x y s) s)
    (mkAcc 0 dzero dzero 0).

Definition fuzzy (img1 img2 : Image) (tolerance : Z) : option CompareResult :=
  if negb (width_ img1 =? width_ img2) || negb (height_ img1 =? height_ img2) then
    Some (mkCompareResult false 0 0 dzero dzero dzero
            [Str "Dimension mismatch: "%string; U32 (width_ img1); Str "x"%string; U32 (height_ img1);
             Str " vs "%string; U32 (width_ img2); Str "x"%string; U32 (height_ img2)])
  else if empty img1 || empty img2 then
    Some (mkCompareResult (empty img1 && empty img2) 0 0 dzero dzero dzero
            [Str (if empty img1 && empty img2
                  then "Both images empty" else "One image empty")%string])
  else
    let total := wrap32 (width_ img1 * height_ img1) in
    s <- fuzzy_loops img1 img2 tolerance ;;
    let avg := if acc_count s >? 0
               then ddiv (acc_total s) (double_of_Z (acc_count s)) else dzero in
    let percent := if total >? 0
                   then ddiv (dmul (double_of_Z 100) (double_of_Z (acc_different s)))
                             (double_of_Z total)
                   else dzero in
    let matches := acc_different s =? 0 in
    Some (mkCompareResult matches (acc_different s) total percent (acc_max s) avg
            (if matches then
               Str "Images match"%string ::
               (if tolerance >? 0
                then [Str " (within tolerance "%string; Int tolerance; Str ")"%string] else [])
             else
               [U32 (acc_different s); Str " pixels differ ("%string; Dbl percent;
                Str "%), "%string; Str "max channel diff: "%string; Dbl (acc_max s)])).

Definition exact (img1 img2 : Image) : option CompareResult := fuzzy img1 img2 0.

Definition fuzzy_percent (img1 img2 : Image) (max_diff_percent : double)
  : option CompareResult :=
  result <- fuzzy img1 img2 255 ;;
  let result := set_match result (dle (difference_percent result) max_diff_percent) in
  Some (if match_ result && (different_pixels result >? 0)
        then set_message result
               [U32 (different_pixels result); Str " pixels differ ("%string;
                Dbl (difference_percent result); Str "%) - within "%string;
                Dbl max_diff_percent; Str "% threshold"%string]
        else result).

(** The body of the inner loop of [generate_diff]. *)
Definition diff_body (img1 img2 : Image) (tolerance : Z) (x y : Z)
           (diff : Image) : option Image :=
  let in_img1 := (x <? width_ img1) && (y <? height_ img1) in
  let in_img2 := (x <? width_ img2) && (y <? height_ img2) in
  if negb in_img1 && negb in_img2 then set_pixel_rgba diff x y 0 0 0 255
  else if negb in_img1 then set_pixel_rgba diff x y 0 255 0 255
  else if negb in_img2 then set_pixel_rgba diff x y 0 0 255 255
  else
    p1 <- get_pixel img1 x y ;;
    p2 <- get_pixel img2 x y ;;
    let dr := channel_diff (r p1) (r p2) in
    let dg := channel_diff (g p1) (g p2) in
    let db := channel_diff (b p1) (b p2) in
    let da := channel_diff (a p1) (a p2) in
    let max_diff := max4 dr dg db da in
    if max_diff >? tolerance then
      let intensity := u8_to_Z (u8_of_Z (Z.min 255 (max_diff * 2))) in
      set_pixel_rgba diff x y 255 (255 - intensity) (255 - intensity) 255
    else
      set_pixel_rgba diff x y (u8_to_Z (r p1) / 2) (u8_to_Z (g p1) / 2)
                     (u8_to_Z (b p1) / 2) 255.

Definition generate_diff (img1 img2 : Image) (tolerance : Z) : option Image :=
  let width := Z.max (width_ img1) (width_ img2) in
  let height := Z.max (height_ img1) (height_ img2) in
  if (width =? 0) || (height =? 0) then Some Image_default
  else
    for_range height
      (fun y d => for_range width (fun x d => diff_body img1 img2 tolerance x y d) d)
      (Image_new width height).

(* ================================================================== *)
(** * [capture.cpp]: the pixel format normaliser *)
(* ================================================================== *)

(** [while (((mask >> shift) & 1UL) == 0UL && shift < 64) shift++;]
    The loop leaves after at most 64 rounds, which is the fuel the caller
    passes. *)
Fixpoint find_shift (fuel : nat) (mask shift : Z) : Z :=
  match fuel with
  | O => shift
  | Datatypes.S fuel' =>
      if (Z.land (Z.shiftr mask shift) 1 =? 0) && (shift <? 64)
      then find_shift fuel' mask (shift + 1)
      else shift
  end.

(** [while (tmp) { bits += (tmp & 1UL); tmp >>= 1; }]
    A 64-bit [tmp] is zero after at most 64 rounds. *)
Fixpoint count_bits (fuel : nat) (tmp bits : Z) : Z :=
  match fuel with
  | O => bits
  | Datatypes.S fuel' =>
      if tmp =? 0 then bits
      else count_bits fuel' (Z.shiftr tmp 1) (bits + Z.land tmp 1)
  end.

Definition extract_channel (pixel mask : Z) : uint8_t :=
  if mask =? 0 then u8_of_Z 0
  else
    let shift := find_shift 64 mask 0 in
    let shifted_mask := Z.shiftr mask shift in
    let bits := count_bits 64 shifted_mask 0 in
    if bits =? 0 then u8_of_Z 0
    else
      let value := Z.shiftr (Z.land pixel mask) shift in
      let max_val := double_of_Z shifted_mask in
      let normalized :=
        if dlt dzero max_val
        then ddiv (dmul (double_of_Z value) (double_of_Z 255)) max_val
        else dzero in
      u8_of_Z (lround (dmin (double_of_Z 255) normalized)).

(** The fields of Xlib's [XImage] that [ximage_to_image] reads.  [XGetPixel]
    belongs to Xlib, not to this repository: the packed pixel value it
    returns at each coordinate is a field of the record. *)
Record XImage := mkXImage {
  xi_width : Z;            (* int width *)
  xi_height : Z;           (* int height *)
  xi_depth : Z;            (* int depth *)
  xi_bits_per_pixel : Z;   (* int bits_per_pixel *)
  xi_red_mask : Z;         (* unsigned long *)
  xi_green_mask : Z;
  xi_blue_mask : Z;
  XGetPixel : Z -> Z -> Z  (* unsigned long XGetPixel(ximg, x, y) *)
}.

(** The value of [alpha_mask] before the pixel loop. *)
Definition alpha_mask_of (ximg : XImage) : Z :=
  if xi_depth ximg >? 24 then
    let rgb_mask := Z.lor (Z.lor (xi_red_mask ximg) (xi_green_mask ximg))
                          (xi_blue_mask ximg) in
    let bpp := xi_bits_per_pixel ximg in
    let pixel_mask :=
      if bpp >=? 64 then wrap64 (Z.lnot 0)
      else wrap64 (wrap64 (Z.shiftl 1 bpp) - 1) in
    Z.land pixel_mask (wrap64 (Z.lnot rgb_mask))
  else 0.

(** The four channels computed in the loop body from one packed pixel. *)
Definition convert_pixel (ximg : XImage) (alpha_mask pixel : Z) : Pixel :=
  let vr := extract_channel pixel (xi_red_mask ximg) in
  let vg := extract_channel pixel (xi_green_mask ximg) in
  let vb := extract_channel pixel (xi_blue_mask ximg) in
  let va := if negb (alpha_mask =? 0)
            then extract_channel pixel alpha_mask else u8_of_Z 255 in
  let va := if negb (alpha_mask =? 0) && (u8_to_Z va =? 0)
            then u8_of_Z 255 else va in
  mkPixel vr vg vb va.

(** [Capture::ximage_to_image]; a null [XImage*] is [None]. *)
Definition ximage_to_image (ximg : option XImage) : option Image :=
  match ximg with
  | None => Some Image_default
  | Some xi =>
      let width := wrap32 (xi_width xi) in
      let height := wrap32 (xi_height xi) in
      let alpha_mask := alpha_mask_of xi in
      for_range height
        (fun y img =>
           for_range width
             (fun x img => set_pixel img x y (convert_pixel xi alpha_mask (XGetPixel xi x y)))
             img)
        (Image_new width height)
  end.


(* ================================================================== *)
(** * [image.cpp]: PNG persistence *)
(* ================================================================== *)

(** [save_png] and [load_png] talk to the C library and to libpng, which are
    not part of this repository.  What those calls answer during one call
    is an environment; the functions below are the control flow of the
    source over that environment. *)

Record save_env := mkSaveEnv {
  sv_fopen : bool;                (* fopen(filename, "wb") returned a stream *)
  sv_create_write_struct : bool;  (* png_create_write_struct returned a struct *)
  sv_create_info_struct : bool;   (* png_create_info_struct returned a struct *)
  sv_png_error : bool             (* libpng reported an error through longjmp
                                     while the header or the rows were written *)
}.

Definition save_png (env : save_env) (img : Image) : bool :=
  if negb (sv_fopen env) then false
  else if negb (sv_create_write_struct env) then false
  else if negb (sv_create_info_struct env) then false
  else if sv_png_error env then false
  else true.

Record load_env := mkLoadEnv {
  ld_fopen : bool;                (* fopen(filename, "rb") returned a stream *)
  ld_create_read_struct : bool;   (* png_create_read_struct returned a struct *)
  ld_create_info_struct : bool;   (* png_create_info_struct returned a struct *)
  ld_read_info : option (Z * Z);  (* png_read_info: [None] is a libpng error
                                     (longjmp), else width and height of IHDR *)
  ld_read_image : option (list uint8_t)
                                  (* png_read_update_info and png_read_image:
                                     [None] is a libpng error, else the RGBA
                                     bytes stored through the row pointers *)
}.

(** [data_.resize(n)]: keep the first [n] bytes, pad with zeros. *)
Definition resize (d : list uint8_t) (n : Z) : list uint8_t :=
  firstn (Z.to_nat n) d ++ repeat Byte.x00 (Z.to_nat n - length d).

(** [load_png] returns its [bool] and leaves the object in the second
    component.  After a libpng error in [png_read_image] the buffer has been
    resized; the rows decoded before the error are not modelled. *)
Definition load_png (env : load_env) (img : Image) : bool * Image :=
  if negb (ld_fopen env) then (false, img)
  else if negb (ld_create_read_struct env) then (false, img)
  else if negb (ld_create_info_struct env) then (false, img)
  else
    match ld_read_info env with
    | None => (false, img)
    | Some (width, height) =>
        let resized := resize (data_ img) (wrap32 (wrap32 (width * height) * 4)) in
        match ld_read_image env with
        | None => (false, mkImage width height resized)
        | Some bytes => (true, mkImage width height bytes)
        end
    end.

(* ================================================================== *)
(** * [image.cpp]: filling and construction from raw buffers *)
(* ================================================================== *)

(** [for (size_t i = 0; i < data_.size(); i += 4) { data_[i] = pixel.r; ... }]
    with [n] rounds left and [i] the current index. *)
Fixpoint fill_loop (n : nat) (i : Z) (p : Pixel) (d : list uint8_t) : list uint8_t :=
  match n with
  | O => d
  | Datatypes.S n' =>
      let d0 := store d i (r p) in
      let d1 := store d0 (i + 1) (g p) in
      let d2 := store d1 (i + 2) (b p) in
      let d3 := store d2 (i + 3) (a p) in
      fill_loop n' (i + 4) p d3
  end.

(** [Image::fill(const Pixel&)]: the loop runs once for every started
    group of four bytes. *)
Definition fill (img : Image) (p : Pixel) : Image :=
  let size := Z.of_nat (length (data_ img)) in
  mkImage (width_ img) (height_ img)
          (fill_loop (Z.to_nat ((size + 3) / 4)) 0 p (data_ img)).

(** [Image::from_bgra(data, width, height)]; the source offset is computed
    in [uint32_t] before it becomes a [size_t]. *)
Definition from_bgra (data : list uint8_t) (width height : Z) : option Image :=
  for_range height
    (fun y img =>
       for_range width
         (fun x img =>
            let src_offset := wrap32 (wrap32 (wrap32 (y * width) + x) * 4) in
            set_pixel img x y
              (mkPixel (at_ data (src_offset + 2)) (at_ data (src_offset + 1))
                       (at_ data src_offset) (at_ data (src_offset + 3))))
         img)
    (Image_new width height).

(** [Image::from_rgb(data, width, height)]: three bytes per source pixel,
    alpha 255. *)
Definition from_rgb (data : list uint8_t) (width height : Z) : option Image :=
  for_range height
    (fun y img =>
       for_range width
         (fun x img =>
            let src_offset := wrap32 (wrap32 (wrap32 (y * width) + x) * 3) in
            set_pixel img x y
              (mkPixel (at_ data src_offset) (at_ data (src_offset + 1))
                       (at_ data (src_offset + 2)) (u8_of_Z 255)))
         img)
    (Image_new width height).

(* ================================================================== *)
(** * [main.cpp]: the comparison of a capture with its reference *)
(* ================================================================== *)


(* ================================================================== *)
(** * [capture.cpp], first version: the fixed-layout normaliser *)
(* ================================================================== *)

(** Xlib's [LSBFirst]. *)
Definition LSBFirst : Z := 0.

(** The loop body of the first [Capture::ximage_to_image]: the channels
    are cut out of the packed pixel at fixed positions chosen by
    [bits_per_pixel]; both byte orders of the 32-bit case are spelled out
    as in the source. *)
Definition fixed_convert_pixel (bits_per_pixel byte_order pixel : Z) : Pixel :=
  if bits_per_pixel =? 32 then
    let '(vr, vg, vb, va) :=
      if byte_order =? LSBFirst then
        let vb := u8_of_Z (Z.land (Z.shiftr pixel 0) 255) in
        let vg := u8_of_Z (Z.land (Z.shiftr pixel 8) 255) in
        let vr := u8_of_Z (Z.land (Z.shiftr pixel 16) 255) in
        let va := u8_of_Z (Z.land (Z.shiftr pixel 24) 255) in
        (vr, vg, vb, va)
      else
        let va := u8_of_Z (Z.land (Z.shiftr pixel 24) 255) in
        let vr := u8_of_Z (Z.land (Z.shiftr pixel 16) 255) in
        let vg := u8_of_Z (Z.land (Z.shiftr pixel 8) 255) in
        let vb := u8_of_Z (Z.land (Z.shiftr pixel 0) 255) in
        (vr, vg, vb, va) in
    mkPixel vr vg vb (if u8_to_Z va =? 0 then u8_of_Z 255 else va)
  else if bits_per_pixel =? 24 then
    mkPixel (u8_of_Z (Z.land (Z.shiftr pixel 16) 255))
            (u8_of_Z (Z.land (Z.shiftr pixel 8) 255))
            (u8_of_Z (Z.land (Z.shiftr pixel 0) 255))
            (u8_of_Z 255)
  else if bits_per_pixel =? 16 then
    mkPixel (u8_of_Z (Z.land (Z.shiftr pixel 11) 31 * 255 / 31))
            (u8_of_Z (Z.land (Z.shiftr pixel 5) 63 * 255 / 63))
            (u8_of_Z (Z.land pixel 31 * 255 / 31))
            (u8_of_Z 255)
  else
    mkPixel (u8_of_Z (Z.land pixel 255)) (u8_of_Z (Z.land pixel 255))
            (u8_of_Z (Z.land pixel 255)) (u8_of_Z 255).

(** The first [Capture::ximage_to_image]; [byte_order] is the field of the
    [XImage] that only this version reads. *)
Definition ximage_to_image_fixed (byte_order : Z) (ximg : option XImage) : option Image :=
  match ximg with
  | None => Some Image_default
  | Some xi =>
      let width := wrap32 (xi_width xi) in
      let height := wrap32 (xi_height xi) in
      for_range height
        (fun y img =>
           for_range width
             (fun x img =>
                set_pixel img x y
                  (fixed_convert_pixel (xi_bits_per_pixel xi) byte_order (XGetPixel xi x y)))
             img)
        (Image_new width height)
  end.

(* ================================================================== *)
(** * The window tests: scanning a capture for a window marker *)
(* ================================================================== *)

Record WindowMarker := mkWindowMarker {
  wm_r : uint8_t;
  wm_g : uint8_t;
  wm_b : uint8_t;
  wm_name : String.string
}.

Definition MARKERS : list WindowMarker :=
  [mkWindowMarker (u8_of_Z 255) (u8_of_Z 0) (u8_of_Z 0) "RED";
   mkWindowMarker (u8_of_Z 0) (u8_of_Z 255) (u8_of_Z 0) "GREEN";
   mkWindowMarker (u8_of_Z 0) (u8_of_Z 0) (u8_of_Z 255) "BLUE";
   mkWindowMarker (u8_of_Z 255) (u8_of_Z 255) (u8_of_Z 0) "YELLOW";
   mkWindowMarker (u8_of_Z 255) (u8_of_Z 0) (u8_of_Z 255) "MAGENTA";
   mkWindowMarker (u8_of_Z 0) (u8_of_Z 255) (u8_of_Z 255) "CYAN";
   mkWindowMarker (u8_of_Z 255) (u8_of_Z 128) (u8_of_Z 0) "ORANGE";
   mkWindowMarker (u8_of_Z 128) (u8_of_Z 0) (u8_of_Z 255) "PURPLE"].

Definition MARKER_SIZE : Z := 16.
Definition MARKER_BORDER : Z := 2.

(** [MARKERS[marker_id % 8]]; the remainder is C's, so a negative
    [marker_id] indexes out of the table, which is undefined in C++ and
    reads the first entry here. *)
Definition marker_of (marker_id : Z) : WindowMarker :=
  nth (Z.to_nat (Z.rem marker_id 8)) MARKERS
      (mkWindowMarker (u8_of_Z 255) (u8_of_Z 0) (u8_of_Z 0) "RED").

(** [std::abs(p.r - marker.r) <= tolerance && ... g ... && ... b ...] *)
Definition marker_close (tolerance : Z) (p : Pixel) (marker : WindowMarker) : bool :=
  (Z.abs (u8_to_Z (r p) - u8_to_Z (wm_r marker)) <=? tolerance) &&
  (Z.abs (u8_to_Z (g p) - u8_to_Z (wm_g marker)) <=? tolerance) &&
  (Z.abs (u8_to_Z (b p) - u8_to_Z (wm_b marker)) <=? tolerance).

(** How a loop that may raise or return from the function ends:
    [Finished] is the normal end of the loop, or of one round of it. *)
Inductive scan_result (R : Type) : Type :=
| Raised : scan_result R
| Returned : R -> scan_result R
| Finished : scan_result R
| OutOfFuel : scan_result R.

Arguments Raised {R}.
Arguments Returned {R} _.
Arguments Finished {R}.
Arguments OutOfFuel {R}.

(** [for (uint32_t i = start; i < bound; i += 2) body(i)], where the body
    may raise or return; the counter wraps around in [uint32_t]. *)
Fixpoint scan_loop {R : Type} (fuel : nat) (bound i : Z)
         (body : Z -> scan_result R) : scan_result R :=
  match fuel with
  | O => OutOfFuel
  | Datatypes.S fuel' =>
      if i <? bound then
        match body i with
        | Finished => scan_loop fuel' bound (wrap32 (i + 2)) body
        | other => other
        end
      else Finished
  end.

(** The sampling loops [for (int dy = 0; dy < MARKER_SIZE; dy += 4)
    for (int dx = 0; dx < MARKER_SIZE; dx += 4)]: the counters
    [(matches, samples)] after them. *)
Definition sample_marker (img : Image) (marker : WindowMarker) (tolerance x y : Z)
  : option (Z * Z) :=
  for_range (MARKER_SIZE / 4)
    (fun ky s =>
       for_range (MARKER_SIZE / 4)
         (fun kx s =>
            sp <- get_pixel img (wrap32 (x + 4 * kx)) (wrap32 (y + 4 * ky)) ;;
            Some ((if marker_close tolerance sp marker then fst s + 1 else fst s),
                  snd s + 1))
         s)
    (0, 0).

(** The body of the inner scanning loop at [(x, y)]. *)
Definition find_marker_at (img : Image) (marker : WindowMarker) (tolerance x y : Z)
  : scan_result (Z * Z) :=
  match get_pixel img (wrap32 (x + MARKER_SIZE / 2)) (wrap32 (y + MARKER_SIZE / 2)) with
  | None => Raised
  | Some p =>
      if marker_close tolerance p marker then
        match sample_marker img marker tolerance x y with
        | None => Raised
        | Some (matches, samples) =>
            if (samples >? 0) && (matches >=? samples * 2 / 3)
            then Returned (x, y)
            else Finished
        end
      else Finished
  end.

(** [find_marker_in_image]: [Returned (x, y)] is [return true] with the
    outputs [*out_x = x], [*out_y = y]; [Finished] is [return false]. *)
Definition find_marker_in_image (fuel : nat) (img : Image) (marker_id : Z)
  : scan_result (Z * Z) :=
  let marker := marker_of marker_id in
  let tolerance := 40 in
  scan_loop fuel (wrap32 (wrap32 (height_ img - MARKER_SIZE) - MARKER_BORDER)) MARKER_BORDER
    (fun y =>
       scan_loop fuel (wrap32 (wrap32 (width_ img - MARKER_SIZE) - MARKER_BORDER)) MARKER_BORDER
         (fun x => find_marker_at img marker tolerance x y)).
(* ================================================================== *)
(** * Auxiliary definitions used by the statements and proofs *)
(* ================================================================== *)

(** The list [start; start+1; ...] of [n] loop indices. *)
Fixpoint indices (n : nat) (start : Z) : list Z :=
  match n with
  | O => []
  | Datatypes.S n' => start :: indices n' (start + 1)
  end.

(** Exponent and mantissa of the [double] that holds the integer [z],
    [0 < z < 2^53], exactly. *)
Definition expo (z : Z) : Z := Z.log2 z - 52.
Definition mant (z : Z) : positive := Z.to_pos (z * 2 ^ (52 - Z.log2 z)).


(** ** The channel rescale as the specification words it *)

(** Index of the lowest set bit of a positive number. *)
Fixpoint pos_ctz (p : positive) : Z :=
  match p with
  | xO q => 1 + pos_ctz q
  | _ => 0
  end.

(** Population count of a positive number. *)
Fixpoint pos_popcount (p : positive) : Z :=
  match p with
  | xH => 1
  | xO q => pos_popcount q
  | xI q => 1 + pos_popcount q
  end.

Definition lowest_set_bit (mask : Z) : Z :=
  match mask with Zpos p => pos_ctz p | _ => 0 end.

Definition popcount (mask : Z) : Z :=
  match mask with Zpos p => pos_popcount p | _ => 0 end.

(** [n / d] rounded to the nearest integer, halfway cases up. *)
Definition round_div (n d : Z) : Z := (2 * n + d) / (2 * d).

(** The set bits of [mask] form one contiguous run. *)
Definition contiguous (mask : Z) : Prop :=
  Z.shiftr mask (lowest_set_bit mask) = 2 ^ popcount mask - 1.

(** The specification's per-channel algorithm: shift the masked bits down
    by the index of the lowest set bit, rescale linearly from
    [[0, 2^bits - 1]], [bits] the population count, to [[0, 255]], round to
    the nearest integer and clamp; a zero mask yields 0. *)
Definition spec_extract_channel (pixel mask : Z) : Z :=
  if mask =? 0 then 0
  else
    let shift := lowest_set_bit mask in
    let bits := popcount mask in
    let value := Z.shiftr (Z.land pixel mask) shift in
    Z.max 0 (Z.min 255 (round_div (value * 255) (2 ^ bits - 1))).

(** ** Pixels and positions of an image *)

(** The pixel that [get_pixel] returns inside the image. *)
Definition pixel_at (img : Image) (x y : Z) : Pixel :=
  let offset := pixel_offset img x y in
  mkPixel (at_ (data_ img) offset) (at_ (data_ img) (offset + 1))
          (at_ (data_ img) (offset + 2)) (at_ (data_ img) (offset + 3)).

(** All positions [(x, y)] of a [w] by [h] image in row-major order, the
    order in which the loops visit them. *)
Definition positions (w h : Z) : list (Z * Z) :=
  flat_map (fun y => map (fun x => (x, y)) (indices (Z.to_nat w) 0))
           (indices (Z.to_nat h) 0).

(** The pairs of pixels of two images at the positions of the first. *)
Definition pixel_pairs (img1 img2 : Image) : list (Pixel * Pixel) :=
  map (fun xy => (pixel_at img1 (fst xy) (snd xy), pixel_at img2 (fst xy) (snd xy)))
      (positions (width_ img1) (height_ img1)).

(** ** The comparison as the specification words it *)

(** The four per-channel absolute differences of a pair of pixels. *)
Definition channel_diffs (pp : Pixel * Pixel) : list Z :=
  [channel_diff (r (fst pp)) (r (snd pp)); channel_diff (g (fst pp)) (g (snd pp));
   channel_diff (b (fst pp)) (b (snd pp)); channel_diff (a (fst pp)) (a (snd pp))].

Definition list_max (l : list Z) : Z := fold_right Z.max 0 l.
Definition list_sum (l : list Z) : Z := fold_right Z.add 0 l.

(** The pixel's max_channel_diff: the maximum of its four differences. *)
Definition pixel_max_diff (pp : Pixel * Pixel) : Z := list_max (channel_diffs pp).

(** A pixel is different iff its max_channel_diff strictly exceeds the
    tolerance. *)
Definition is_different (tolerance : Z) (pp : Pixel * Pixel) : bool :=
  tolerance <? pixel_max_diff pp.

Definition count_different (tolerance : Z) (l : list (Pixel * Pixel)) : Z :=
  Z.of_nat (length (filter (is_different tolerance) l)).

(** Every examined channel-diff value, four per pixel, of all pixels. *)
Definition all_channel_diffs (l : list (Pixel * Pixel)) : list Z :=
  flat_map channel_diffs l.

(** The result the specification describes for two non-empty images of
    equal dimensions. *)
Definition spec_fuzzy (img1 img2 : Image) (tolerance : Z) : CompareResult :=
  let pairs := pixel_pairs img1 img2 in
  let different := count_different tolerance pairs in
  let total := width_ img1 * height_ img1 in
  let diffs := all_channel_diffs pairs in
  let percent := ddiv (dmul (double_of_Z 100) (double_of_Z different)) (double_of_Z total) in
  let max_diff := double_of_Z (list_max diffs) in
  mkCompareResult
    (different =? 0) different total percent max_diff
    (ddiv (double_of_Z (list_sum diffs)) (double_of_Z (Z.of_nat (length diffs))))
    (if different =? 0 then
       Str "Images match"%string ::
       (if tolerance >? 0
        then [Str " (within tolerance "%string; Int tolerance; Str ")"%string] else [])
     else
       [U32 different; Str " pixels differ ("%string; Dbl percent;
        Str "%), "%string; Str "max channel diff: "%string; Dbl max_diff]).

(** ** The comparison worded over the flat RGBA8 buffer *)

(** Channel [c] (0 red, 1 green, 2 blue, 3 alpha) of the pixel at [(x, y)]
    of a canonical image: the buffer is flat, row-major, 4 bytes per
    pixel, so the channel is the byte at index [(y * width + x) * 4 + c]. *)
Definition spec_channel (img : Image) (x y c : Z) : uint8_t :=
  nth (Z.to_nat ((y * width_ img + x) * 4 + c)) (data_ img) Byte.x00.

(** The absolute difference of two channel values: the larger minus the
    smaller. *)
Definition spec_abs_diff (u v : uint8_t) : Z :=
  Z.max (u8_to_Z u) (u8_to_Z v) - Z.min (u8_to_Z u) (u8_to_Z v).

(** The four absolute differences, one per channel, at a position. *)
Definition spec_position_diffs (img1 img2 : Image) (xy : Z * Z) : list Z :=
  map (fun c => spec_abs_diff (spec_channel img1 (fst xy) (snd xy) c)
                              (spec_channel img2 (fst xy) (snd xy) c))
      [0; 1; 2; 3].

(** The max_channel_diff of the pixel at a position. *)
Definition spec_position_max_diff (img1 img2 : Image) (xy : Z * Z) : Z :=
  list_max (spec_position_diffs img1 img2 xy).

(** The pixel at a position is different iff its max_channel_diff
    strictly exceeds the tolerance. *)
Definition spec_position_different (tolerance : Z) (img1 img2 : Image) (xy : Z * Z) : bool :=
  tolerance <? spec_position_max_diff img1 img2 xy.

(** The positions of the different pixels. *)
Definition spec_different_positions (tolerance : Z) (img1 img2 : Image) : list (Z * Z) :=
  filter (spec_position_different tolerance img1 img2)
         (positions (width_ img1) (height_ img1)).

(** Every examined channel difference: four per position, all positions. *)
Definition spec_examined_diffs (img1 img2 : Image) : list Z :=
  flat_map (spec_position_diffs img1 img2) (positions (width_ img1) (height_ img1)).

(** The result of the comparison of two non-empty images of equal
    dimensions, from the bytes of the two buffers. *)
Definition spec_compare (img1 img2 : Image) (tolerance : Z) : CompareResult :=
  let different := Z.of_nat (length (spec_different_positions tolerance img1 img2)) in
  let total := width_ img1 * height_ img1 in
  let diffs := spec_examined_diffs img1 img2 in
  let percent := ddiv (dmul (double_of_Z 100) (double_of_Z different)) (double_of_Z total) in
  let max_diff := double_of_Z (list_max diffs) in
  mkCompareResult
    (different =? 0) different total percent max_diff
    (ddiv (double_of_Z (list_sum diffs)) (double_of_Z (Z.of_nat (length diffs))))
    (if different =? 0 then
       Str "Images match"%string ::
       (if tolerance >? 0
        then [Str " (within tolerance "%string; Int tolerance; Str ")"%string] else [])
     else
       [U32 different; Str " pixels differ ("%string; Dbl percent;
        Str "%), "%string; Str "max channel diff: "%string; Dbl max_diff]).

(** ** Concrete images used in examples *)

Definition rgba (vr vg vb va : Z) : Pixel :=
  mkPixel (u8_of_Z vr) (u8_of_Z vg) (u8_of_Z vb) (u8_of_Z va).

(** A [w] by [h] image whose pixels all equal [p]. *)
Definition solid_image (w h : Z) (p : Pixel) : Image :=
  mkImage w h (concat (repeat [r p; g p; b p; a p] (Z.to_nat (w * h)))).

Definition black_1x1 : Image := solid_image 1 1 (rgba 0 0 0 255).
Definition white_1x1 : Image := solid_image 1 1 (rgba 255 255 255 255).
Definition red_4x4 : Image := solid_image 4 4 (rgba 255 0 0 255).

(** Two 2 by 2 images that differ in the pixel at (1, 1) only, by 40 in
    green and 3 in alpha. *)
Definition quad_a : Image :=
  mkImage 2 2 (map u8_of_Z [10; 20; 30; 255;  40; 50; 60; 255;
                            70; 80; 90; 255;  100; 110; 120; 255]).
Definition quad_b : Image :=
  mkImage 2 2 (map u8_of_Z [10; 20; 30; 255;  40; 50; 60; 255;
                            70; 80; 90; 255;  100; 150; 120; 252]).

(** ** The diff canvas as the specification words it *)

(** The colour of the diff canvas at [(x, y)]: a sentinel where only one
    image, or none, has the pixel; where both have it, a red highlight
    whose green and blue fall with twice the max channel diff (clamped at
    255) if that diff strictly exceeds the tolerance, and otherwise the
    pixel of the first image with each colour channel halved; always
    opaque. *)
Definition spec_diff_pixel (img1 img2 : Image) (tolerance x y : Z) : Pixel :=
  let in_img1 := (x <? width_ img1) && (y <? height_ img1) in
  let in_img2 := (x <? width_ img2) && (y <? height_ img2) in
  match in_img1, in_img2 with
  | false, false => rgba 0 0 0 255
  | false, true => rgba 0 255 0 255
  | true, false => rgba 0 0 255 255
  | true, true =>
      let p1 := pixel_at img1 x y in
      let d := pixel_max_diff (p1, pixel_at img2 x y) in
      if tolerance <? d
      then rgba 255 (255 - Z.min 255 (2 * d)) (255 - Z.min 255 (2 * d)) 255
      else rgba (u8_to_Z (r p1) / 2) (u8_to_Z (g p1) / 2) (u8_to_Z (b p1) / 2) 255
  end.

(** ** Concrete raw frames used in examples *)

(** A 1 by 1 frame of depth 24 in the 32 bits per pixel layout with masks
    [0x00FF0000], [0x0000FF00], [0x000000FF], holding the packed pixel
    [0x00FF0000]. *)
Definition frame_rgb24_red : XImage :=
  mkXImage 1 1 24 32 0x00FF0000 0x0000FF00 0x000000FF (fun _ _ => 0x00FF0000).

(** A 1 by 1 frame of depth 16 in the 565 layout with masks [0xF800],
    [0x07E0], [0x001F], holding the packed pixel [0xF800]. *)
Definition frame_rgb565_red : XImage :=
  mkXImage 1 1 16 16 0xF800 0x07E0 0x001F (fun _ _ => 0xF800).

(** ** The error taxonomy of the specification *)

Inductive spec_error := CaptureError | FormatError | IOError.

(** [load_png] on a path that cannot be opened. *)
Definition env_unreadable_path : load_env := mkLoadEnv false true true None None.

(** [load_png] on a readable file whose contents libpng rejects. *)
Definition env_corrupt_file : load_env := mkLoadEnv true true true None None.

(** [save_png] on a path that cannot be opened for writing. *)
Definition env_unwritable_path : save_env := mkSaveEnv false true true false.

(** ** Raw source buffers *)

(** The pixel [from_bgra] reads at source offset [o]: blue, green, red,
    alpha in memory order. *)
Definition bgra_at (data : list uint8_t) (o : Z) : Pixel :=
  mkPixel (at_ data (o + 2)) (at_ data (o + 1)) (at_ data o) (at_ data (o + 3)).

(** The pixel [from_rgb] reads at source offset [o], made opaque. *)
Definition rgb_at (data : list uint8_t) (o : Z) : Pixel :=
  mkPixel (at_ data o) (at_ data (o + 1)) (at_ data (o + 2)) (u8_of_Z 255).

(** Red and blue exchanged. *)
Definition swap_red_blue (p : Pixel) : Pixel := mkPixel (b p) (g p) (r p) (a p).

(** ** The marker scan as a specification *)

(** The sixteen sample points of the verification at [(x, y)], in the
    order the loops visit them. *)
Definition sample_points (x y : Z) : list (Z * Z) :=
  map (fun k => (x + 4 * fst k, y + 4 * snd k)) (positions 4 4).

(** The number of sample points whose pixel is close to the marker. *)
Definition close_samples (img : Image) (marker : WindowMarker) (tolerance x y : Z) : Z :=
  Z.of_nat (length (filter (fun xy => marker_close tolerance (pixel_at img (fst xy) (snd xy)) marker)
                           (sample_points x y))).

(** The scan accepts [(x, y)]: the pixel at the centre of the marker area
    is close to the marker colour and so are at least 10 of the 16
    samples. *)
Definition marker_hit (img : Image) (marker : WindowMarker) (tolerance x y : Z) : bool :=
  marker_close tolerance (pixel_at img (x + 8) (y + 8)) marker &&
  (10 <=? close_samples img marker tolerance x y).

(** The coordinates the scan visits along a dimension of size [d]: the
    even numbers from 2 below [d - 18]. *)
Definition scan_candidate (d i : Z) : Prop :=
  2 <= i < d - 18 /\ Z.even i = true.
(* ================================================================== *)
(** * Facts about bytes *)
(* ================================================================== *)

(** Closed comparisons and equations on concrete data are settled by
    evaluation. *)
Ltac by_evaluation :=
  repeat split; vm_compute; first [reflexivity | discriminate].

Lemma u8_to_Z_range (x : uint8_t) : 0 <= u8_to_Z x <= 255.
Proof.
  unfold u8_to_Z. pose proof (Byte.to_N_bounded x) as H.
  split; [apply N2Z.is_nonneg|].
  change 255 with (Z.of_N 255). now apply N2Z.inj_le.
Qed.

Lemma u8_to_of_Z (z : Z) : u8_to_Z (u8_of_Z z) = z mod 256.
Proof.
  unfold u8_of_Z, u8_to_Z.
  assert (Hr : 0 <= z mod 256 < 256) by (apply Z.mod_pos_bound; lia).
  destruct (Byte.of_N (Z.to_N (z mod 256))) as [c|] eqn:E.
  - apply Byte.to_of_N in E. rewrite E. apply Z2N.id. lia.
  - apply Byte.of_N_None_iff in E. exfalso.
    apply N2Z.inj_lt in E. rewrite Z2N.id in E by lia. simpl in E. lia.
Qed.

Lemma u8_of_to_Z (x : uint8_t) : u8_of_Z (u8_to_Z x) = x.
Proof.
  unfold u8_of_Z. rewrite Z.mod_small by (pose proof (u8_to_Z_range x); lia).
  unfold u8_to_Z. rewrite N2Z.id, Byte.of_to_N. reflexivity.
Qed.

Lemma u8_to_of_Z_small (z : Z) : 0 <= z <= 255 -> u8_to_Z (u8_of_Z z) = z.
Proof. intros H. rewrite u8_to_of_Z. apply Z.mod_small. lia. Qed.

Lemma channel_diff_range (x y : uint8_t) : 0 <= channel_diff x y <= 255.
Proof.
  unfold channel_diff.
  pose proof (u8_to_Z_range x). pose proof (u8_to_Z_range y). lia.
Qed.

Lemma channel_diff_same (x : uint8_t) : channel_diff x x = 0.
Proof. unfold channel_diff. rewrite Z.sub_diag. reflexivity. Qed.

Lemma max4_range (p1 p2 : Pixel) :
  0 <= max4 (channel_diff (r p1) (r p2)) (channel_diff (g p1) (g p2))
            (channel_diff (b p1) (b p2)) (channel_diff (a p1) (a p2)) <= 255.
Proof.
  unfold max4.
  pose proof (channel_diff_range (r p1) (r p2)).
  pose proof (channel_diff_range (g p1) (g p2)).
  pose proof (channel_diff_range (b p1) (b p2)).
  pose proof (channel_diff_range (a p1) (a p2)). lia.
Qed.

(* ================================================================== *)
(** * Facts about loops *)
(* ================================================================== *)

Lemma indices_length n start : length (indices n start) = n.
Proof. revert start; induction n; simpl; intros; [reflexivity | now rewrite IHn]. Qed.

Lemma indices_In n start i : In i (indices n start) <-> start <= i < start + Z.of_nat n.
Proof.
  revert start; induction n as [|n IH]; intros start; simpl.
  - split; [tauto | lia].
  - rewrite IH. lia.
Qed.

(** A loop whose body cannot raise on the indices it visits is a fold. *)
Lemma for_loop_fold {S : Type} (body : Z -> S -> option S) (f : Z -> S -> S) :
  forall n start s,
    (forall i s', start <= i < start + Z.of_nat n -> body i s' = Some (f i s')) ->
    for_loop n start body s = Some (fold_left (fun s' i => f i s') (indices n start) s).
Proof.
  induction n as [|n IH]; intros start s Hb; simpl.
  - reflexivity.
  - rewrite Hb by lia. simpl. apply IH. intros i s' Hi. apply Hb. lia.
Qed.

(** Invariant rule for a loop whose body cannot raise while the invariant
    holds. *)
Lemma for_loop_inv {S : Type} (body : Z -> S -> option S) (Inv : Z -> S -> Prop) :
  forall n start s,
    Inv start s ->
    (forall i s', start <= i < start + Z.of_nat n -> Inv i s' ->
                  exists s'', body i s' = Some s'' /\ Inv (i + 1) s'') ->
    exists s', for_loop n start body s = Some s' /\ Inv (start + Z.of_nat n) s'.
Proof.
  induction n as [|n IH]; intros start s H0 Hstep.
  - exists s. simpl. rewrite Z.add_0_r. auto.
  - destruct (Hstep start s ltac:(lia) H0) as (s1 & E1 & I1).
    destruct (IH (start + 1) s1 I1) as (s2 & E2 & I2).
    { intros i s' Hi. apply Hstep. lia. }
    exists s2. split.
    + simpl. rewrite E1. exact E2.
    + replace (start + Z.of_nat (Datatypes.S n)) with (start + 1 + Z.of_nat n) by lia.
      exact I2.
Qed.

(* ================================================================== *)
(** * Facts about [double] arithmetic on integers *)
(* ================================================================== *)

Lemma digits2_log2 (p : positive) : Zpos (digits2_pos p) = Z.log2 (Zpos p) + 1.
Proof.
  induction p as [p IH|p IH|]; simpl digits2_pos.
  - rewrite Pos2Z.inj_succ, IH.
    change (Z.pos p~1) with (2 * Z.pos p + 1).
    rewrite Z.log2_succ_double by lia. lia.
  - rewrite Pos2Z.inj_succ, IH.
    change (Z.pos p~0) with (2 * Z.pos p).
    rewrite Z.log2_double by lia. lia.
  - reflexivity.
Qed.

Lemma iter_pos_nat {A : Type} (f : A -> A) (n : positive) (x : A) :
  iter_pos f n x = Nat.iter (Pos.to_nat n) f x.
Proof.
  revert x; induction n as [n IH|n IH|]; intros x; simpl iter_pos.
  - rewrite !IH. rewrite Pos2Nat.inj_xI.
    replace (Datatypes.S (2 * Pos.to_nat n)) with (Pos.to_nat n + Pos.to_nat n + 1)%nat by lia.
    rewrite !Nat.iter_add. reflexivity.
  - rewrite !IH. rewrite Pos2Nat.inj_xO.
    replace (2 * Pos.to_nat n)%nat with (Pos.to_nat n + Pos.to_nat n)%nat by lia.
    rewrite Nat.iter_add. reflexivity.
  - reflexivity.
Qed.

Lemma shr_1_iter_exact (k : nat) : forall M m : positive,
  Zpos M = Zpos m * 2 ^ Z.of_nat k ->
  Nat.iter k shr_1 (Build_shr_record (Zpos M) false false) = Build_shr_record (Zpos m) false false.
Proof.
  induction k as [|k IH]; intros M m H.
  - simpl in *. f_equal. lia.
  - rewrite Nat.iter_succ_r.
    rewrite Nat2Z.inj_succ, Z.pow_succ_r in H by lia.
    destruct M as [M|M|]; try lia.
    simpl shr_1. apply IH. lia.
Qed.

Lemma fexp_normal (x : Z) : -1021 <= x -> fexp 53 1024 x = x - 53.
Proof. intros H. unfold fexp, emin. lia. Qed.

Lemma zdigits_pos (p : positive) : Zdigits2 (Zpos p) = Z.log2 (Zpos p) + 1.
Proof. simpl. apply digits2_log2. Qed.

Lemma shr_exact (M m : positive) (E n : Z) :
  0 <= n -> Zpos M = Zpos m * 2 ^ n ->
  shr (Build_shr_record (Zpos M) false false) E n
  = (Build_shr_record (Zpos m) false false, E + n).
Proof.
  intros Hn HM. destruct n as [|n|n]; try lia.
  - simpl. rewrite Z.add_0_r. do 2 f_equal. simpl in HM. lia.
  - unfold shr. rewrite iter_pos_nat. f_equal.
    apply shr_1_iter_exact. rewrite positive_nat_Z. exact HM.
Qed.

(** Rounding a mantissa that only carries trailing zeros beyond the 53 bits
    of a normal number is exact. *)
Lemma binary_round_aux_exact (M m : positive) (E e : Z) :
  Z.log2 (Zpos m) = 52 -> -1074 <= e <= 971 -> E <= e ->
  Zpos M = Zpos m * 2 ^ (e - E) ->
  binary_round_aux 53 1024 false (Zpos M) E loc_Exact = S754_finite false m e.
Proof.
  intros Hm He HE HM.
  assert (HdM : Zdigits2 (Zpos M) = 53 + (e - E)).
  { rewrite zdigits_pos, HM, Z.log2_mul_pow2 by lia. lia. }
  unfold binary_round_aux, shr_fexp.
  rewrite HdM, fexp_normal by lia.
  cbn [shr_record_of_loc].
  replace (53 + (e - E) + E - 53 - E) with (e - E) by lia.
  rewrite (shr_exact M m E (e - E)) by (try lia; exact HM).
  cbn [shr_m loc_of_shr_record round_nearest_even].
  rewrite zdigits_pos, Hm, fexp_normal by lia.
  replace (52 + 1 + (E + (e - E)) - 53 - (E + (e - E))) with 0 by lia.
  cbn [shr shr_m].
  replace (E + (e - E)) with e by lia.
  replace (e <=? 1024 - 53) with true by (symmetry; apply Z.leb_le; lia).
  reflexivity.
Qed.

Lemma mant_spec (z : Z) : 0 < z < 2 ^ 53 ->
  Zpos (mant z) = z * 2 ^ (52 - Z.log2 z) /\ Z.log2 (Zpos (mant z)) = 52 /\ 0 <= Z.log2 z <= 52.
Proof.
  intros Hz.
  assert (Hl : 0 <= Z.log2 z <= 52).
  { split; [apply Z.log2_nonneg|]. 
    assert (Z.log2 z < 53) by (apply Z.log2_lt_pow2; lia). lia. }
  assert (Hp : 0 < z * 2 ^ (52 - Z.log2 z)).
  { apply Z.mul_pos_pos; [lia|]. apply Z.pow_pos_nonneg; lia. }
  unfold mant. rewrite Z2Pos.id by exact Hp.
  split; [reflexivity|]. split; [|exact Hl].
  rewrite Z.log2_mul_pow2 by lia. lia.
Qed.

Lemma shl_align_normal (p : positive) : Zpos p < 2 ^ 53 ->
  shl_align p 0 (Z.log2 (Zpos p) + 1 - 53) = (mant (Zpos p), expo (Zpos p)).
Proof.
  intros Hz. destruct (mant_spec (Zpos p) ltac:(lia)) as (Hm & Hl & Hr).
  unfold shl_align, expo.
  destruct (Z.log2 (Z.pos p) + 1 - 53 - 0) as [|k|k] eqn:Ek; try lia.
  - f_equal; [|lia]. apply Pos2Z.inj. rewrite Hm.
    replace (52 - Z.log2 (Z.pos p)) with 0 by lia. lia.
  - f_equal; [|lia]. apply Pos2Z.inj. rewrite Hm.
    change (Pos.iter xO p k) with (shift_pos k p).
    rewrite shift_pos_correct.
    change (Zpower_pos 2 k) with (2 ^ Zpos k).
    replace (52 - Z.log2 (Z.pos p)) with (Zpos k) by lia. ring.
Qed.

Lemma double_of_Z_pos (z : Z) : 0 < z < 2 ^ 53 ->
  double_of_Z z = S754_finite false (mant z) (expo z).
Proof.
  intros Hz. destruct (mant_spec z Hz) as (Hm & Hl & Hr).
  destruct z as [|p|p]; try lia.
  unfold double_of_Z, binary_normalize, binary_round, dprec, demax.
  rewrite digits2_log2, Z.add_0_r, fexp_normal by lia.
  rewrite shl_align_normal by lia.
  apply binary_round_aux_exact; unfold expo; try lia.
  rewrite Z.sub_diag. lia.
Qed.

Lemma double_of_Z_0 : double_of_Z 0 = S754_zero false.
Proof. reflexivity. Qed.

Lemma shl_align_down (m : positive) (e e' : Z) : e' <= e ->
  Zpos (fst (shl_align m e e')) = Zpos m * 2 ^ (e - e').
Proof.
  intros H. unfold shl_align.
  destruct (e' - e) as [|k|k] eqn:Ek; try lia.
  - replace (e - e') with 0 by lia. simpl fst. lia.
  - simpl fst. change (Pos.iter xO m k) with (shift_pos k m).
    rewrite shift_pos_correct. change (Zpower_pos 2 k) with (2 ^ Zpos k).
    replace (e - e') with (Zpos k) by lia. ring.
Qed.

(** [mant z * 2^expo z = z], stated without negative powers. *)
Lemma mant_scale (z k : Z) : 0 < z < 2 ^ 53 -> 0 <= k ->
  Zpos (mant z) * 2 ^ k = z * 2 ^ (k - expo z).
Proof.
  intros Hz Hk. destruct (mant_spec z Hz) as (Hm & _ & Hl).
  rewrite Hm. unfold expo. rewrite <- Z.mul_assoc, <- Z.pow_add_r by lia.
  f_equal. f_equal. lia.
Qed.

Lemma expo_range (z : Z) : 0 < z < 2 ^ 53 -> -52 <= expo z <= 0.
Proof. intros Hz. destruct (mant_spec z Hz) as (_ & _ & Hl). unfold expo. lia. Qed.

Lemma dadd_exact (x y : Z) : 0 <= x -> 0 <= y -> x + y < 2 ^ 53 ->
  dadd (double_of_Z x) (double_of_Z y) = double_of_Z (x + y).
Proof.
  intros Hx Hy Hs.
  destruct (Z.eq_dec x 0) as [->|Hx0].
  { simpl Z.add. destruct (Z.eq_dec y 0) as [->|Hy0]; [reflexivity|].
    rewrite (double_of_Z_pos y) by lia. reflexivity. }
  destruct (Z.eq_dec y 0) as [->|Hy0].
  { rewrite Z.add_0_r. rewrite (double_of_Z_pos x) by lia. reflexivity. }
  rewrite (double_of_Z_pos x), (double_of_Z_pos y), (double_of_Z_pos (x + y)) by lia.
  pose proof (expo_range x ltac:(lia)) as Ex.
  pose proof (expo_range y ltac:(lia)) as Ey.
  pose proof (expo_range (x + y) ltac:(lia)) as Es.
  assert (Hlx : Z.log2 x <= Z.log2 (x + y)) by (apply Z.log2_le_mono; lia).
  assert (Hly : Z.log2 y <= Z.log2 (x + y)) by (apply Z.log2_le_mono; lia).
  unfold dadd, SFadd, dprec, demax. cbn [cond_Zopp].
  set (ez := Z.min (expo x) (expo y)).
  assert (Hez : ez <= expo x /\ ez <= expo y /\ ez <= expo (x + y) /\ -52 <= ez)
    by (unfold ez, expo in *; lia).
  rewrite !shl_align_down by lia.
  rewrite (mant_scale x), (mant_scale y) by lia.
  replace (expo x - ez - expo x) with (- ez) by lia.
  replace (expo y - ez - expo y) with (- ez) by lia.
  rewrite <- Z.mul_add_distr_r.
  assert (Hpos : 0 < (x + y) * 2 ^ (- ez)).
  { apply Z.mul_pos_pos; [lia|]. apply Z.pow_pos_nonneg; lia. }
  destruct ((x + y) * 2 ^ (- ez)) as [|M|M] eqn:EM; try lia.
  unfold binary_normalize, binary_round.
  assert (HlM : Z.log2 (Zpos M) = Z.log2 (x + y) - ez).
  { rewrite <- EM, Z.log2_mul_pow2 by lia. lia. }
  assert (Hls : 0 <= Z.log2 (x + y) <= 52) by (unfold expo in Es; lia).
  rewrite digits2_log2, HlM, fexp_normal by lia.
  unfold shl_align.
  destruct (Z.log2 (x + y) - ez + 1 + ez - 53 - ez) as [|k|k] eqn:Ek;
    try (unfold expo in *; lia);
    apply binary_round_aux_exact;
    try (destruct (mant_spec (x + y) ltac:(lia)) as (_ & Hm & _); exact Hm);
    try lia;
    rewrite <- EM, mant_scale by lia; f_equal; f_equal; lia.
Qed.

Lemma dmul_exact (x y : Z) :
  0 <= x < 2 ^ 53 -> 0 <= y < 2 ^ 53 -> x * y < 2 ^ 53 ->
  dmul (double_of_Z x) (double_of_Z y) = double_of_Z (x * y).
Proof.
  intros Hx Hy Hs.
  destruct (Z.eq_dec x 0) as [->|Hx0].
  { simpl Z.mul. destruct (Z.eq_dec y 0) as [->|Hy0]; [reflexivity|].
    rewrite (double_of_Z_pos y); [reflexivity|lia]. }
  destruct (Z.eq_dec y 0) as [->|Hy0].
  { rewrite Z.mul_0_r. rewrite (double_of_Z_pos x); [reflexivity|lia]. }
  assert (Hxb : 0 < x < 2 ^ 53) by nia.
  assert (Hyb : 0 < y < 2 ^ 53) by nia.
  assert (Hpb : 0 < x * y < 2 ^ 53) by nia.
  rewrite (double_of_Z_pos x), (double_of_Z_pos y), (double_of_Z_pos (x * y)) by assumption.
  pose proof (expo_range x Hxb) as Ex.
  pose proof (expo_range y Hyb) as Ey.
  pose proof (expo_range (x * y) Hpb) as Es.
  assert (Hl : Z.log2 x + Z.log2 y <= Z.log2 (x * y)) by (apply Z.log2_mul_below; lia).
  unfold dmul, SFmul, dprec, demax. cbn [xorb].
  apply binary_round_aux_exact.
  - destruct (mant_spec (x * y) Hpb) as (_ & Hm & _); exact Hm.
  - lia.
  - unfold expo in *. lia.
  - rewrite Pos2Z.inj_mul.
    rewrite (mant_scale (x * y)) by (try assumption; unfold expo in *; lia).
    destruct (mant_spec x Hxb) as (Hmx & _ & _).
    destruct (mant_spec y Hyb) as (Hmy & _ & _).
    rewrite Hmx, Hmy.
    replace (x * 2 ^ (52 - Z.log2 x) * (y * 2 ^ (52 - Z.log2 y)))
      with (x * y * (2 ^ (52 - Z.log2 x) * 2 ^ (52 - Z.log2 y))) by ring.
    rewrite <- Z.pow_add_r by (unfold expo in *; lia).
    f_equal. f_equal. unfold expo. lia.
Qed.

Lemma dcompare_of_Z (x y : Z) : 0 <= x < 2 ^ 53 -> 0 <= y < 2 ^ 53 ->
  SFcompare (double_of_Z x) (double_of_Z y) = Some (x ?= y).
Proof.
  intros Hx Hy.
  destruct (Z.eq_dec x 0) as [->|Hx0]; destruct (Z.eq_dec y 0) as [->|Hy0];
    try rewrite (double_of_Z_pos x) by lia; try rewrite (double_of_Z_pos y) by lia;
    rewrite ?double_of_Z_0; cbn [SFcompare].
  - reflexivity.
  - f_equal. symmetry. apply Z.compare_lt_iff. lia.
  - f_equal. symmetry. apply Z.compare_gt_iff. lia.
  - f_equal. unfold expo.
    destruct (Z.compare_spec (Z.log2 x - 52) (Z.log2 y - 52)) as [E|E|E].
    + change (Pos.compare_cont Eq (mant x) (mant y)) with (Zpos (mant x) ?= Zpos (mant y)).
      destruct (mant_spec x ltac:(lia)) as (-> & _ & _).
      destruct (mant_spec y ltac:(lia)) as (-> & _ & Hl).
      replace (Z.log2 x) with (Z.log2 y) by lia.
      symmetry. apply Zmult_compare_compat_r.
      apply Z.lt_gt, Z.pow_pos_nonneg; lia.
    + symmetry. apply Z.compare_lt_iff. apply Z.log2_lt_cancel. lia.
    + symmetry. apply Z.compare_gt_iff. apply Z.log2_lt_cancel. lia.
Qed.

Lemma dlt_of_Z (x y : Z) : 0 <= x < 2 ^ 53 -> 0 <= y < 2 ^ 53 ->
  dlt (double_of_Z x) (double_of_Z y) = (x <? y).
Proof.
  intros Hx Hy. unfold dlt, SFltb. rewrite dcompare_of_Z by assumption.
  unfold Z.ltb. destruct (x ?= y); reflexivity.
Qed.

Lemma dle_of_Z (x y : Z) : 0 <= x < 2 ^ 53 -> 0 <= y < 2 ^ 53 ->
  dle (double_of_Z x) (double_of_Z y) = (x <=? y).
Proof.
  intros Hx Hy. unfold dle, SFleb. rewrite dcompare_of_Z by assumption.
  unfold Z.leb. destruct (x ?= y); reflexivity.
Qed.

Lemma dmax_of_Z (x y : Z) : 0 <= x < 2 ^ 53 -> 0 <= y < 2 ^ 53 ->
  dmax (double_of_Z x) (double_of_Z y) = double_of_Z (Z.max x y).
Proof.
  intros Hx Hy. unfold dmax. rewrite dlt_of_Z by assumption.
  destruct (Z.ltb_spec x y); f_equal; lia.
Qed.

Lemma shr_m_of_loc (m : Z) (l : location) : shr_m (shr_record_of_loc m l) = m.
Proof. destruct l as [|[]]; reflexivity. Qed.

Lemma shr_m_shr_1 (mrs : shr_record) : 0 <= shr_m mrs -> shr_m (shr_1 mrs) = shr_m mrs / 2.
Proof.
  destruct mrs as [m rb sb]. cbn [shr_m]. intros Hm.
  destruct m as [|p|p]; try lia; [reflexivity|].
  destruct p as [p|p|]; cbn [shr_1 shr_m].
  - change (Z.pos p~1) with (1 + 2 * Z.pos p).
    rewrite Z.mul_comm, Z.div_add by lia. reflexivity.
  - change (Z.pos p~0) with (2 * Z.pos p). rewrite Z.mul_comm, Z.div_mul by lia. reflexivity.
  - reflexivity.
Qed.

Lemma round_nearest_even_bracket (m : Z) (l : location) :
  m <= round_nearest_even m l <= m + 1.
Proof.
  destruct l as [|[]]; cbn [round_nearest_even]; try lia.
  destruct (Z.even m); lia.
Qed.

Lemma log2_53 (m : Z) : 2 ^ 52 <= m < 2 ^ 53 -> Z.log2 m = 52.
Proof. intros H. apply Z.log2_unique; lia. Qed.

Lemma log2_54 (m : Z) : 2 ^ 53 <= m < 2 ^ 54 -> Z.log2 m = 53.
Proof. intros H. apply Z.log2_unique; lia. Qed.

(** Second half of [binary_round_aux]: a rounded mantissa in
    [[2^52, 2^53]] is kept, or renormalised when it reached [2^53]. *)
Lemma renormalize (m0 e1 : Z) :
  2 ^ 52 <= m0 <= 2 ^ 53 -> -1074 <= e1 <= 970 ->
  exists mr er,
    (let '(mrs, e) := shr_fexp 53 1024 m0 e1 loc_Exact in
     match shr_m mrs with
     | Z0 => S754_zero false
     | Zpos m => if e <=? 1024 - 53 then S754_finite false m e else S754_infinity false
     | Zneg _ => S754_nan
     end) = S754_finite false mr er /\
    2 ^ 52 <= Zpos mr /\ e1 <= er /\ Zpos mr * 2 ^ (er - e1) = m0.
Proof.
  intros Hm He.
  destruct (Z.eq_dec m0 (2 ^ 53)) as [->|Hne].
  - exists (Z.to_pos (2 ^ 52)), (e1 + 1).
    unfold shr_fexp. change (Zdigits2 (2 ^ 53)) with 54.
    rewrite fexp_normal by lia.
    replace (54 + e1 - 53 - e1) with 1 by lia.
    cbn [shr_record_of_loc shr iter_pos].
    change (shr_m (shr_1 {| shr_m := 2 ^ 53; shr_r := false; shr_s := false |}))
      with (Zpos (Z.to_pos (2 ^ 52))).
    cbv iota.
    replace (e1 + 1 <=? 1024 - 53) with true by (symmetry; apply Z.leb_le; lia).
    split; [reflexivity|]. split; [apply Z.le_refl|]. split; [lia|].
    replace (e1 + 1 - e1) with 1 by lia. reflexivity.
  - destruct m0 as [|p|p]; try lia.
    exists p, e1.
    unfold shr_fexp. rewrite zdigits_pos, log2_53 by lia.
    rewrite fexp_normal by lia.
    replace (52 + 1 + e1 - 53 - e1) with 0 by lia.
    cbn [shr_record_of_loc shr shr_m].
    replace (e1 <=? 1024 - 53) with true by (symmetry; apply Z.leb_le; lia).
    split; [reflexivity|]. split; [lia|]. split; [lia|].
    rewrite Z.sub_diag. lia.
Qed.

(** Rounding a quotient of 53 or 54 bits, whatever the location of the
    remainder: the result is the truncated mantissa or its successor. *)
Lemma binary_round_aux_bracket (q e' : Z) (l : location) :
  2 ^ 52 <= q < 2 ^ 54 -> -1074 <= e' <= 900 ->
  exists mr er c T',
    binary_round_aux 53 1024 false q e' l = S754_finite false mr er /\
    2 ^ 52 <= Zpos mr /\ 0 <= c <= 1 /\ e' + c <= er /\
    Zpos mr * 2 ^ (er - (e' + c)) = T' /\
    q / 2 ^ c <= T' <= q / 2 ^ c + 1 /\ 2 ^ 52 <= q / 2 ^ c.
Proof.
  intros Hq He.
  destruct (Z_lt_le_dec q (2 ^ 53)) as [Hlt|Hge].
  - pose proof (round_nearest_even_bracket q l) as Hr.
    destruct (renormalize (round_nearest_even q l) e' ltac:(lia) ltac:(lia))
      as (mr & er & E & Hmr & Her & Hv).
    exists mr, er, 0, (round_nearest_even q l).
    unfold binary_round_aux.
    assert (Hs : shr_fexp 53 1024 q e' l = (shr_record_of_loc q l, e')).
    { unfold shr_fexp. destruct q as [|p|p]; try lia.
      rewrite zdigits_pos, log2_53, fexp_normal by lia.
      replace (52 + 1 + e' - 53 - e') with 0 by lia. reflexivity. }
    rewrite Hs, shr_m_of_loc.
    replace (loc_of_shr_record (shr_record_of_loc q l)) with l by (destruct l as [|[]]; reflexivity).
    rewrite Z.add_0_r, Z.pow_0_r, Z.div_1_r.
    repeat split; try lia; assumption.
  - set (rec1 := shr_1 (shr_record_of_loc q l)).
    assert (Hm1 : shr_m rec1 = q / 2).
    { unfold rec1. rewrite shr_m_shr_1; rewrite shr_m_of_loc; lia. }
    assert (Hq2 : 2 ^ 52 <= q / 2 < 2 ^ 53).
    { split; [apply Z.div_le_lower_bound; lia | apply Z.div_lt_upper_bound; lia]. }
    pose proof (round_nearest_even_bracket (q / 2) (loc_of_shr_record rec1)) as Hr.
    destruct (renormalize (round_nearest_even (q / 2) (loc_of_shr_record rec1)) (e' + 1)
                ltac:(lia) ltac:(lia)) as (mr & er & E & Hmr & Her & Hv).
    exists mr, er, 1, (round_nearest_even (q / 2) (loc_of_shr_record rec1)).
    unfold binary_round_aux.
    assert (Hs : shr_fexp 53 1024 q e' l = (rec1, e' + 1)).
    { unfold shr_fexp. destruct q as [|p|p]; try lia.
      rewrite zdigits_pos, log2_54, fexp_normal by lia.
      replace (53 + 1 + e' - 53 - e') with 1 by lia. reflexivity. }
    rewrite Hs, Hm1. rewrite Z.pow_1_r.
    repeat split; try lia; assumption.
Qed.

(** The quotient of two integers that a [double] holds exactly: its value
    is the quotient truncated to a multiple of [2^-K], or the next
    multiple, where [2^-K] is the unit in the last place. *)
Lemma ddiv_bracket (n d : Z) : 0 < n < 2 ^ 53 -> 0 < d < 2 ^ 53 ->
  exists mr er K T',
    ddiv (double_of_Z n) (double_of_Z d) = S754_finite false mr er /\
    2 ^ 52 <= Zpos mr /\ 0 <= K /\ - K <= er /\
    Zpos mr * 2 ^ (er + K) = T' /\
    n * 2 ^ K / d <= T' <= n * 2 ^ K / d + 1 /\ 2 ^ 52 <= n * 2 ^ K / d.
Proof.
  intros Hn Hd.
  rewrite (double_of_Z_pos n), (double_of_Z_pos d) by assumption.
  destruct (mant_spec n Hn) as (Hmn & Hln & Hrn).
  destruct (mant_spec d Hd) as (Hmd & Hld & Hrd).
  pose proof (expo_range n Hn) as Hen. pose proof (expo_range d Hd) as Hed.
  assert (Bn : 2 ^ 52 <= Zpos (mant n) < 2 ^ 53).
  { split; [apply Z.log2_le_pow2; lia | apply Z.log2_lt_pow2; lia]. }
  assert (Bd : 2 ^ 52 <= Zpos (mant d) < 2 ^ 53).
  { split; [apply Z.log2_le_pow2; lia | apply Z.log2_lt_pow2; lia]. }
  unfold ddiv, SFdiv, SFdiv_core_binary, dprec, demax. cbn [xorb].
  rewrite !zdigits_pos, Hln, Hld.
  rewrite fexp_normal by lia.
  replace (Z.min (52 + 1 + expo n - (52 + 1 + expo d) - 53) (expo n - expo d))
    with (expo n - expo d - 53) by lia.
  replace (expo n - expo d - (expo n - expo d - 53)) with 53 by lia.
  cbv iota. rewrite Z.shiftl_mul_pow2 by lia.
  set (q := Zpos (mant n) * 2 ^ 53 / Zpos (mant d)).
  assert (Eq : Z.div_eucl (Zpos (mant n) * 2 ^ 53) (Zpos (mant d))
               = (q, Zpos (mant n) * 2 ^ 53 mod Zpos (mant d))).
  { unfold q, Z.div, Z.modulo.
    destruct (Z.div_eucl (Zpos (mant n) * 2 ^ 53) (Zpos (mant d))); reflexivity. }
  rewrite Eq.
  assert (Bq : 2 ^ 52 <= q < 2 ^ 54).
  { unfold q. split.
    - apply Z.div_le_lower_bound; nia.
    - apply Z.div_lt_upper_bound; nia. }
  destruct (binary_round_aux_bracket q (expo n - expo d - 53)
              (new_location (Zpos (mant d)) (Zpos (mant n) * 2 ^ 53 mod Zpos (mant d)))
              Bq ltac:(lia))
    as (mr & er & c & T' & E & Hmr & Hc & Her & Hv & HT & Hlo).
  exists mr, er, (- (expo n - expo d - 53 + c)), T'.
  assert (HQ : q / 2 ^ c = n * 2 ^ (- (expo n - expo d - 53 + c)) / d).
  { unfold q. rewrite Z.div_div by (try lia; apply Z.pow_pos_nonneg; lia).
    rewrite Hmn, Hmd.
    rewrite <- (Z.div_mul_cancel_r (n * 2 ^ (- (expo n - expo d - 53 + c))) d
                  (2 ^ (c - expo d)))
      by (try lia; apply Z.pow_nonzero; lia).
    f_equal.
    - rewrite <- !Z.mul_assoc, <- !Z.pow_add_r by lia. f_equal. f_equal.
      unfold expo. lia.
    - rewrite <- !Z.mul_assoc, <- !Z.pow_add_r by lia. f_equal. f_equal.
      unfold expo. lia. }
  rewrite <- HQ.
  repeat split; try lia; try assumption.
Qed.

(* ================================================================== *)
(** * Facts about the channel rescale *)
(* ================================================================== *)

(** [lround] of a positive finite [double] whose value is [T' / 2^K]. *)
Lemma lround_scaled (mr : positive) (er K T' : Z) :
  1 <= K -> 0 <= er + K -> Zpos mr * 2 ^ (er + K) = T' ->
  lround (S754_finite false mr er) = (T' + 2 ^ (K - 1)) / 2 ^ K.
Proof.
  intros HK Hs <-. unfold lround.
  destruct er as [|e|k].
  - rewrite Z.pow_0_r, Z.mul_1_r, Z.add_0_l.
    rewrite Z.div_add_l by (apply Z.pow_nonzero; lia).
    rewrite Z.div_small; [lia|].
    split; [apply Z.pow_nonneg; lia | apply Z.pow_lt_mono_r; lia].
  - rewrite Z.pow_add_r, Z.mul_assoc by lia.
    rewrite Z.div_add_l by (apply Z.pow_nonzero; lia).
    rewrite Z.div_small; [lia|].
    split; [apply Z.pow_nonneg; lia | apply Z.pow_lt_mono_r; lia].
  - replace (2 ^ K) with (2 ^ Zpos k * 2 ^ (Z.neg k + K))
      by (rewrite <- Z.pow_add_r by lia; f_equal; lia).
    replace (2 ^ (K - 1)) with (2 ^ (Zpos k - 1) * 2 ^ (Z.neg k + K))
      by (rewrite <- Z.pow_add_r by lia; f_equal; lia).
    rewrite <- Z.mul_add_distr_r.
    rewrite Z.div_mul_cancel_r; try (apply Z.pow_nonzero; lia). reflexivity.
Qed.

(** The arithmetic core: rounding the truncated or the next mantissa gives
    the nearest integer of [n / d], because half-integers are multiples of
    the unit in the last place and [d] is far below its inverse. *)
Lemma nearest_from_bracket (n d K T' : Z) :
  0 < d -> 0 <= n -> 1 <= K -> d < 2 ^ (K - 1) ->
  n * 2 ^ K / d <= T' <= n * 2 ^ K / d + 1 ->
  (T' + 2 ^ (K - 1)) / 2 ^ K = (2 * n + d) / (2 * d).
Proof.
  intros Hd Hn HK HP HT.
  replace (2 ^ K) with (2 * 2 ^ (K - 1)) in *
    by (rewrite <- Z.pow_succ_r by lia; f_equal; lia).
  set (P := 2 ^ (K - 1)) in *.
  set (T := n * (2 * P) / d) in *.
  set (J := (2 * n + d) / (2 * d)).
  assert (HTd : d * T <= n * (2 * P) < d * T + d).
  { unfold T. pose proof (Z.mul_div_le (n * (2 * P)) d Hd).
    pose proof (Z.mul_succ_div_gt (n * (2 * P)) d Hd). lia. }
  assert (HJd : 2 * d * J <= 2 * n + d < 2 * d * J + 2 * d).
  { unfold J. pose proof (Z.mul_div_le (2 * n + d) (2 * d) ltac:(lia)).
    pose proof (Z.mul_succ_div_gt (2 * n + d) (2 * d) ltac:(lia)). lia. }
  assert (HP0 : 0 < P) by lia.
  assert (Hlow : (2 * J - 1) * P <= T).
  { assert ((2 * J - 1) * P * d < (T + 1) * d) by nia.
    assert ((2 * J - 1) * P < T + 1) by (apply Z.mul_lt_mono_pos_r with d; lia). lia. }
  assert (Hup : T + 1 < (2 * J + 1) * P).
  { assert ((T + 1) * d < (2 * J + 1) * P * d) by nia.
    apply Z.mul_lt_mono_pos_r with d; lia. }
  symmetry. apply Z.div_unique with (T' + P - J * (2 * P)); nia.
Qed.

Lemma lround_255 : lround (double_of_Z 255) = 255.
Proof. vm_compute. reflexivity. Qed.

Lemma double_255_finite :
  exists m, double_of_Z 255 = S754_finite false m (-45) /\ Zpos m = 255 * 2 ^ 45.
Proof. eexists. split; vm_compute; reflexivity. Qed.

(** What [a < b] being false means for two positive finite doubles. *)
Lemma dlt_finite_false (m1 m2 : positive) (e1 e2 : Z) :
  dlt (S754_finite false m1 e1) (S754_finite false m2 e2) = false ->
  e2 < e1 \/ (e1 = e2 /\ Zpos m2 <= Zpos m1).
Proof.
  unfold dlt, SFltb. cbn [SFcompare].
  destruct (Z.compare_spec e1 e2) as [E|E|E]; intros H.
  - right. split; [exact E|].
    rewrite Pos.compare_cont_spec in H. cbn [Pos.switch_Eq] in H.
    destruct (Pos.compare_spec m1 m2) as [Em|Em|Em]; try discriminate; lia.
  - discriminate.
  - left. exact E.
Qed.

(** [lround(std::min(255.0, v * 255.0 / max))] is [v * 255 / max] rounded
    to the nearest integer, halfway cases up, when [v <= max < 2^32]. *)
Lemma rescale_round (v sm : Z) : 0 <= v <= sm -> 0 < sm < 2 ^ 32 ->
  lround (dmin (double_of_Z 255)
               (ddiv (dmul (double_of_Z v) (double_of_Z 255)) (double_of_Z sm)))
  = (2 * (v * 255) + sm) / (2 * sm).
Proof.
  intros Hv Hsm.
  rewrite dmul_exact by lia.
  destruct (Z.eq_dec v 0) as [->|Hv0].
  { change (0 * 255) with 0. rewrite (double_of_Z_pos sm) by lia.
    change (ddiv (double_of_Z 0) (S754_finite false (mant sm) (expo sm)))
      with (S754_zero false).
    destruct double_255_finite as (m255 & E255 & _). rewrite E255.
    change (lround (dmin (S754_finite false m255 (-45)) (S754_zero false))) with 0.
    symmetry. apply Z.div_small. lia. }
  destruct (ddiv_bracket (v * 255) sm ltac:(lia) ltac:(lia))
    as (mr & er & K & T' & E & Hmr & HK & Her & HvT & HT & Hlo).
  rewrite E.
  assert (H2K : 0 < 2 ^ K) by (apply Z.pow_pos_nonneg; lia).
  assert (HT255 : v * 255 * 2 ^ K / sm <= 255 * 2 ^ K).
  { apply Z.div_le_upper_bound; [lia|]. nia. }
  assert (HK45 : 45 <= K).
  { destruct (Z_lt_le_dec K 45) as [Hlt|]; [exfalso|assumption].
    assert (2 ^ K <= 2 ^ 44) by (apply Z.pow_le_mono_r; lia). lia. }
  assert (HP : sm < 2 ^ (K - 1)).
  { assert (2 ^ 44 <= 2 ^ (K - 1)) by (apply Z.pow_le_mono_r; lia). lia. }
  pose proof (nearest_from_bracket (v * 255) sm K T' ltac:(lia) ltac:(lia) ltac:(lia) HP HT) as HJ.
  pose proof (lround_scaled mr er K T' ltac:(lia) ltac:(lia) HvT) as HL.
  unfold dmin. destruct (dlt (S754_finite false mr er) (double_of_Z 255)) eqn:Hlt.
  - rewrite HL. exact HJ.
  - rewrite lround_255.
    assert (Hge : 255 * 2 ^ K <= T').
    { destruct double_255_finite as (m255 & E255 & Hm255). rewrite E255 in Hlt.
      apply dlt_finite_false in Hlt.
      assert (Hpk : 2 ^ K = 2 ^ 45 * 2 ^ (K - 45))
        by (rewrite <- Z.pow_add_r by lia; f_equal; lia).
      assert (0 < 2 ^ (K - 45)) by (apply Z.pow_pos_nonneg; lia).
      destruct Hlt as [Hlt | (Ee & Hm)].
      - assert (Hpe : 2 ^ (er + K) = 2 ^ (er + 45) * 2 ^ (K - 45))
          by (rewrite <- Z.pow_add_r by lia; f_equal; lia).
        assert (2 ^ 1 <= 2 ^ (er + 45)) by (apply Z.pow_le_mono_r; lia).
        rewrite <- HvT, Hpe, Hpk.
        set (P := 2 ^ (K - 45)) in *. set (Q := 2 ^ (er + 45)) in *.
        assert (255 * 2 ^ 45 * P <= Zpos mr * 2 * P) by nia.
        assert (Zpos mr * 2 * P <= Zpos mr * Q * P) by nia.
        lia.
      - rewrite <- HvT, Ee, Hpk.
        replace (-45 + K) with (K - 45) by lia.
        set (P := 2 ^ (K - 45)) in *. nia. }
    assert (0 < 2 ^ (K - 1)) by (apply Z.pow_pos_nonneg; lia).
    rewrite <- HJ. apply Z.le_antisymm.
    + apply Z.div_le_lower_bound; lia.
    + rewrite HJ. apply Z.lt_succ_r. apply Z.div_lt_upper_bound; lia.
Qed.

Lemma land_1_testbit (x : Z) : (Z.land x 1 =? 0) = negb (Z.testbit x 0).
Proof.
  change 1 with (Z.ones 1). rewrite Z.land_ones by lia.
  rewrite Z.pow_1_r, <- Z.bit0_mod. destruct (Z.testbit x 0); reflexivity.
Qed.

Lemma pos_ctz_nonneg (p : positive) : 0 <= pos_ctz p.
Proof. induction p; cbn [pos_ctz pos_popcount]; lia. Qed.

Lemma pos_ctz_spec (p : positive) :
  Z.testbit (Zpos p) (pos_ctz p) = true /\
  forall i, 0 <= i < pos_ctz p -> Z.testbit (Zpos p) i = false.
Proof.
  induction p as [q IH|q IH|].
  - split; [reflexivity | simpl; intros; lia].
  - destruct IH as (IH1 & IH2). pose proof (pos_ctz_nonneg q) as Hq.
    change (Zpos q~0) with (2 * Zpos q). cbn [pos_ctz]. split.
    + replace (1 + pos_ctz q) with (Z.succ (pos_ctz q)) by lia.
      rewrite Z.double_bits_succ. exact IH1.
    + intros i Hi. destruct (Z.eq_dec i 0) as [->|Hne].
      * apply Z.testbit_even_0.
      * replace i with (Z.succ (i - 1)) by lia.
        rewrite Z.double_bits_succ. apply IH2. lia.
  - split; [reflexivity | simpl; intros; lia].
Qed.

(** The shift loop stops at the lowest set bit. *)
Lemma find_shift_spec (mask : Z) : 0 < mask < 2 ^ 64 ->
  forall fuel k,
    0 <= k -> 64 <= k + Z.of_nat fuel ->
    (forall i, 0 <= i < k -> Z.testbit mask i = false) ->
    find_shift fuel mask k = lowest_set_bit mask.
Proof.
  intros Hm.
  destruct mask as [|p|p]; try lia. cbn [lowest_set_bit].
  destruct (pos_ctz_spec p) as (Hset & Hbelow).
  pose proof (pos_ctz_nonneg p) as Hc0.
  assert (Hc64 : pos_ctz p < 64).
  { destruct (Z_lt_le_dec (pos_ctz p) 64) as [|Hge]; [assumption|exfalso].
    rewrite Z.bits_above_log2 in Hset; [discriminate|lia|].
    assert (Z.log2 (Zpos p) < 64) by (apply Z.log2_lt_pow2; lia). lia. }
  induction fuel as [|fuel IH]; intros k Hk Hfuel Hz.
  - exfalso. rewrite Hz in Hset; [discriminate|]. simpl in Hfuel. lia.
  - cbn [find_shift]. rewrite land_1_testbit, Z.shiftr_spec, Z.add_0_l by lia.
    destruct (Z.testbit (Zpos p) k) eqn:Ek; cbn [negb andb].
    + destruct (Z.lt_trichotomy k (pos_ctz p)) as [Hlt|[Heq|Hgt]]; [|assumption|].
      * rewrite Hbelow in Ek by lia. discriminate.
      * rewrite Hz in Hset by lia. discriminate.
    + destruct (k <? 64) eqn:E64.
      * apply IH; [lia|lia|].
        intros i Hi. destruct (Z.eq_dec i k) as [->|]; [exact Ek | apply Hz; lia].
      * apply Z.ltb_ge in E64. exfalso. rewrite Hz in Hset; [discriminate|lia].
Qed.

Lemma shiftr_lowest_odd (p : positive) :
  exists q, Z.shiftr (Zpos p) (pos_ctz p) = Zpos q /\
            pos_popcount q = pos_popcount p /\ Zpos q <= Zpos p.
Proof.
  induction p as [p IH|p IH|].
  - exists (xI p). cbn [pos_ctz]. rewrite Z.shiftr_0_r. repeat split; lia.
  - destruct IH as (q & E & Hp & Hle). exists q.
    pose proof (pos_ctz_nonneg p). cbn [pos_ctz pos_popcount].
    rewrite <- Z.shiftr_shiftr by lia.
    change (Z.shiftr (Zpos p~0) 1) with (Zpos p). repeat split; try assumption. lia.
  - exists 1%positive. repeat split; lia.
Qed.

(** The counting loop returns the population count added to its start. *)
Lemma count_bits_spec (fuel : nat) : forall p bits,
  Zpos p < 2 ^ Z.of_nat fuel ->
  count_bits fuel (Zpos p) bits = bits + pos_popcount p.
Proof.
  induction fuel as [|fuel IH]; intros p bits Hp.
  - simpl in Hp. lia.
  - rewrite Nat2Z.inj_succ, Z.pow_succ_r in Hp by lia.
    cbn [count_bits Z.eqb].
    destruct p as [q|q|].
    + change (Z.shiftr (Zpos q~1) 1) with (Zpos q).
      change (Z.land (Zpos q~1) 1) with 1.
      rewrite IH by lia. cbn [pos_popcount]. lia.
    + change (Z.shiftr (Zpos q~0) 1) with (Zpos q).
      change (Z.land (Zpos q~0) 1) with 0.
      rewrite IH by lia. cbn [pos_popcount]. lia.
    + change (Z.shiftr 1 1) with 0. change (Z.land 1 1) with 1.
      destruct fuel; reflexivity.
Qed.

Lemma pos_popcount_pos (p : positive) : 0 < pos_popcount p.
Proof. induction p; cbn [pos_ctz pos_popcount]; lia. Qed.

(** The masked value never exceeds the shifted mask. *)
Lemma masked_value_le (pixel mask shift : Z) :
  0 <= mask -> 0 <= shift ->
  0 <= Z.shiftr (Z.land pixel mask) shift <= Z.shiftr mask shift.
Proof.
  intros Hm Hs. apply Z.ldiff_le.
  - apply Z.shiftr_nonneg. exact Hm.
  - apply Z.bits_inj'. intros i Hi.
    rewrite Z.ldiff_spec, !Z.shiftr_spec, Z.land_spec, Z.bits_0 by lia.
    destruct (Z.testbit pixel (i + shift)), (Z.testbit mask (i + shift)); reflexivity.
Qed.

(** What [extract_channel] computes for a non-zero mask that fits in 32
    bits: the masked value over the shifted mask, scaled to 255 and
    rounded to the nearest integer. *)
Lemma extract_channel_value (pixel mask : Z) : 0 < mask < 2 ^ 32 ->
  let shift := lowest_set_bit mask in
  let sm := Z.shiftr mask shift in
  let value := Z.shiftr (Z.land pixel mask) shift in
  find_shift 64 mask 0 = shift /\
  count_bits 64 sm 0 = popcount mask /\
  0 <= value <= sm /\ 0 < sm < 2 ^ 32 /\
  u8_to_Z (extract_channel pixel mask) = round_div (value * 255) sm /\
  0 <= round_div (value * 255) sm <= 255.
Proof.
  intros Hm shift sm value.
  assert (Hfs : find_shift 64 mask 0 = shift).
  { apply find_shift_spec; lia. }
  destruct mask as [|p|p]; try lia.
  destruct (shiftr_lowest_odd p) as (q & Eq & Hpc & Hle).
  pose proof (pos_ctz_nonneg p) as Hc0.
  assert (Esm : sm = Zpos q) by exact Eq.
  assert (Hcb : count_bits 64 sm 0 = popcount (Zpos p)).
  { rewrite Esm, count_bits_spec by (change (Z.of_nat 64) with 64; lia).
    cbn [popcount]. lia. }
  assert (Hval : 0 <= value <= sm).
  { apply masked_value_le; [lia | exact Hc0]. }
  assert (Hsm : 0 < sm < 2 ^ 32) by lia.
  assert (Hr : 0 <= round_div (value * 255) sm <= 255).
  { unfold round_div. split.
    - apply Z.div_pos; lia.
    - apply Z.lt_succ_r. apply Z.div_lt_upper_bound; lia. }
  repeat split; try assumption; try lia.
  unfold extract_channel. cbn [Z.eqb]. rewrite Hfs. fold sm. rewrite Hcb.
  pose proof (pos_popcount_pos p) as Hpp.
  destruct (popcount (Zpos p) =? 0) eqn:E0; [apply Z.eqb_eq in E0; cbn [popcount] in E0; lia|].
  fold value.
  change dzero with (double_of_Z 0).
  rewrite dlt_of_Z by lia.
  destruct (Z.ltb_spec 0 sm) as [_|]; [|lia].
  rewrite rescale_round by lia.
  apply u8_to_of_Z_small. exact Hr.
Qed.

(* ================================================================== *)
(** * Facts about [get_pixel] and the comparison loops *)
(* ================================================================== *)

Lemma get_pixel_inside (img : Image) (x y : Z) :
  x < width_ img -> y < height_ img -> get_pixel img x y = Some (pixel_at img x y).
Proof.
  intros Hx Hy. unfold get_pixel.
  destruct (Z.geb_spec x (width_ img)); [lia|].
  destruct (Z.geb_spec y (height_ img)); [lia|]. reflexivity.
Qed.

Lemma fuzzy_body_inside (img1 img2 : Image) (tolerance x y : Z) (s : fuzzy_acc) :
  width_ img1 = width_ img2 -> height_ img1 = height_ img2 ->
  x < width_ img1 -> y < height_ img1 ->
  fuzzy_body img1 img2 tolerance x y s
  = Some (fuzzy_pixel tolerance (pixel_at img1 x y) (pixel_at img2 x y) s).
Proof.
  intros Hw Hh Hx Hy. unfold fuzzy_body.
  rewrite !get_pixel_inside by lia. reflexivity.
Qed.

Lemma indices_bound (n : Z) (i : Z) :
  0 <= i < 0 + Z.of_nat (Z.to_nat n) -> 0 <= i < n.
Proof. intros H. destruct (Z_lt_le_dec n 0); lia. Qed.

(** A row-major double loop whose body cannot raise inside the image is a
    fold over [positions]. *)
Lemma double_loop_fold {S : Type} (w h : Z) (body : Z -> Z -> S -> option S)
      (f : Z * Z -> S -> S) (s : S) :
  (forall x y s', 0 <= x < w -> 0 <= y < h -> body x y s' = Some (f (x, y) s')) ->
  for_range h (fun y s' => for_range w (fun x s'' => body x y s'') s') s
  = Some (fold_left (fun s' xy => f xy s') (positions w h) s).
Proof.
  intros Hb. unfold for_range, positions.
  rewrite (for_loop_fold _ (fun y s' =>
             fold_left (fun s'' xy => f xy s'')
                       (map (fun x => (x, y)) (indices (Z.to_nat w) 0)) s')).
  - f_equal. generalize (indices (Z.to_nat h) 0). intros l. revert s.
    induction l as [|y l IH]; intros s; [reflexivity|].
    cbn [fold_left flat_map]. rewrite fold_left_app. apply IH.
  - intros y s' Hy. apply indices_bound in Hy.
    rewrite (for_loop_fold _ (fun x s'' => f (x, y) s'')).
    + f_equal. generalize (indices (Z.to_nat w) 0). intros l. revert s'.
      induction l as [|x l IH]; intros s'; [reflexivity | apply IH].
    + intros x s'' Hx. apply indices_bound in Hx. apply Hb; lia.
Qed.

(** The pixel loop of [fuzzy] never raises on images of equal dimensions:
    it folds [fuzzy_pixel] over the pixel pairs. *)
Lemma fuzzy_loops_fold (img1 img2 : Image) (tolerance : Z) :
  width_ img1 = width_ img2 -> height_ img1 = height_ img2 ->
  fuzzy_loops img1 img2 tolerance
  = Some (fold_left (fun s pp => fuzzy_pixel tolerance (fst pp) (snd pp) s)
                    (pixel_pairs img1 img2) (mkAcc 0 dzero dzero 0)).
Proof.
  intros Hw Hh. unfold fuzzy_loops, pixel_pairs.
  rewrite (double_loop_fold _ _ _
             (fun xy s => fuzzy_pixel tolerance (pixel_at img1 (fst xy) (snd xy))
                                      (pixel_at img2 (fst xy) (snd xy)) s)).
  - f_equal. generalize (positions (width_ img1) (height_ img1)) (mkAcc 0 dzero dzero 0).
    intros l. induction l as [|xy l IH]; intros s; [reflexivity | apply IH].
  - intros x y s Hx Hy. cbn [fst snd]. apply fuzzy_body_inside; lia.
Qed.

Lemma pixel_max_diff_max4 (p1 p2 : Pixel) :
  max4 (channel_diff (r p1) (r p2)) (channel_diff (g p1) (g p2))
       (channel_diff (b p1) (b p2)) (channel_diff (a p1) (a p2))
  = pixel_max_diff (p1, p2).
Proof.
  unfold pixel_max_diff, list_max, channel_diffs, max4. cbn [fold_right fst snd].
  pose proof (channel_diff_range (r p1) (r p2)).
  pose proof (channel_diff_range (g p1) (g p2)).
  pose proof (channel_diff_range (b p1) (b p2)).
  pose proof (channel_diff_range (a p1) (a p2)). lia.
Qed.

Lemma pixel_max_diff_range (pp : Pixel * Pixel) : 0 <= pixel_max_diff pp <= 255.
Proof. destruct pp as [p1 p2]. rewrite <- pixel_max_diff_max4. apply max4_range. Qed.

Lemma count_different_cons (tolerance : Z) (pp : Pixel * Pixel) (l : list (Pixel * Pixel)) :
  count_different tolerance (pp :: l)
  = (if is_different tolerance pp then 1 else 0) + count_different tolerance l.
Proof.
  unfold count_different. cbn [filter].
  destruct (is_different tolerance pp); cbn [length]; lia.
Qed.

Lemma count_different_range (tolerance : Z) (l : list (Pixel * Pixel)) :
  0 <= count_different tolerance l <= Z.of_nat (length l).
Proof.
  induction l as [|pp l IH]; [unfold count_different; simpl; lia|].
  rewrite count_different_cons. cbn [length].
  destruct (is_different tolerance pp); lia.
Qed.

(** The counter of different pixels after the loop, as long as the
    [uint32_t] cannot wrap around. *)
Lemma fold_different (tolerance : Z) (l : list (Pixel * Pixel)) : forall s,
  0 <= acc_different s -> acc_different s + Z.of_nat (length l) < 2 ^ 32 ->
  acc_different (fold_left (fun s pp => fuzzy_pixel tolerance (fst pp) (snd pp) s) l s)
  = acc_different s + count_different tolerance l.
Proof.
  induction l as [|[p1 p2] l IH]; intros s H0 Hb.
  - unfold count_different. simpl. lia.
  - cbn [fold_left length] in *. rewrite count_different_cons.
    pose proof (count_different_range tolerance l) as Hr.
    rewrite IH.
    + cbv beta delta [fuzzy_pixel] zeta. cbn [acc_different fst snd].
      rewrite pixel_max_diff_max4. unfold is_different.
      rewrite Z.gtb_ltb.
      destruct (tolerance <? pixel_max_diff (p1, p2)); [|lia].
      unfold wrap32. rewrite Z.mod_small by lia. lia.
    + cbv beta delta [fuzzy_pixel] zeta. cbn [acc_different fst snd].
      destruct (_ >? _); [|lia]. unfold wrap32. rewrite Z.mod_small by lia. lia.
    + cbv beta delta [fuzzy_pixel] zeta. cbn [acc_different fst snd].
      destruct (_ >? _); [|lia]. unfold wrap32. rewrite Z.mod_small by lia. lia.
Qed.

(** With tolerance 255 no pixel is ever counted: a channel difference
    cannot exceed 255. *)
Lemma fold_different_255 (l : list (Pixel * Pixel)) : forall s,
  acc_different (fold_left (fun s pp => fuzzy_pixel 255 (fst pp) (snd pp) s) l s)
  = acc_different s.
Proof.
  induction l as [|[p1 p2] l IH]; intros s; [reflexivity|].
  cbn [fold_left]. rewrite IH.
  cbv beta delta [fuzzy_pixel] zeta. cbn [acc_different fst snd].
  pose proof (max4_range p1 p2) as Hr.
  destruct (Z.gtb_spec (max4 (channel_diff (r p1) (r p2)) (channel_diff (g p1) (g p2))
                             (channel_diff (b p1) (b p2)) (channel_diff (a p1) (a p2))) 255);
    [lia | reflexivity].
Qed.

Lemma positions_length (w h : Z) : 0 <= w -> 0 <= h ->
  Z.of_nat (length (positions w h)) = w * h.
Proof.
  intros Hw Hh. unfold positions.
  assert (Hl : forall l : list Z,
             length (flat_map (fun y => map (fun x => (x, y)) (indices (Z.to_nat w) 0)) l)
             = (length l * Z.to_nat w)%nat).
  { induction l as [|y l IH]; [reflexivity|].
    cbn [flat_map]. rewrite length_app, length_map, indices_length, IH. simpl. lia. }
  rewrite Hl, indices_length. lia.
Qed.

Lemma pixel_pairs_length (img1 img2 : Image) :
  0 <= width_ img1 -> 0 <= height_ img1 ->
  Z.of_nat (length (pixel_pairs img1 img2)) = width_ img1 * height_ img1.
Proof.
  intros Hw Hh. unfold pixel_pairs. rewrite length_map. now apply positions_length.
Qed.

Lemma list_max_nonneg (l : list Z) : 0 <= list_max l.
Proof. induction l; simpl; lia. Qed.

Lemma list_max_app (l1 l2 : list Z) :
  list_max (l1 ++ l2) = Z.max (list_max l1) (list_max l2).
Proof.
  induction l1 as [|x l1 IH]; simpl.
  - pose proof (list_max_nonneg l2). lia.
  - fold (list_max (l1 ++ l2)). fold (list_max l1). rewrite IH. lia.
Qed.

Lemma list_sum_app (l1 l2 : list Z) :
  list_sum (l1 ++ l2) = list_sum l1 + list_sum l2.
Proof.
  induction l1 as [|x l1 IH]; simpl; [reflexivity|].
  fold (list_sum (l1 ++ l2)). fold (list_sum l1). rewrite IH. lia.
Qed.

Lemma channel_diffs_sum (p1 p2 : Pixel) :
  list_sum (channel_diffs (p1, p2))
  = channel_diff (r p1) (r p2) + channel_diff (g p1) (g p2)
    + channel_diff (b p1) (b p2) + channel_diff (a p1) (a p2) /\
  0 <= list_sum (channel_diffs (p1, p2)) <= 1020.
Proof.
  unfold list_sum, channel_diffs. cbn [fold_right fst snd].
  pose proof (channel_diff_range (r p1) (r p2)).
  pose proof (channel_diff_range (g p1) (g p2)).
  pose proof (channel_diff_range (b p1) (b p2)).
  pose proof (channel_diff_range (a p1) (a p2)). lia.
Qed.

Lemma all_channel_diffs_range (l : list (Pixel * Pixel)) :
  0 <= list_max (all_channel_diffs l) <= 255 /\
  0 <= list_sum (all_channel_diffs l) <= 1020 * Z.of_nat (length l) /\
  length (all_channel_diffs l) = (4 * length l)%nat.
Proof.
  induction l as [|[p1 p2] l (IH1 & IH2 & IH3)].
  - cbn. lia.
  - unfold all_channel_diffs in *. cbn [flat_map].
    rewrite list_max_app, list_sum_app, length_app, IH3.
    pose proof (pixel_max_diff_range (p1, p2)) as Hm. unfold pixel_max_diff in Hm.
    destruct (channel_diffs_sum p1 p2) as (_ & Hs).
    cbn [length channel_diffs]. lia.
Qed.

(** The running maximum is the maximum of all channel differences seen. *)
Lemma fold_max (tolerance : Z) (l : list (Pixel * Pixel)) : forall s mx,
  acc_max s = double_of_Z mx -> 0 <= mx <= 255 ->
  acc_max (fold_left (fun s pp => fuzzy_pixel tolerance (fst pp) (snd pp) s) l s)
  = double_of_Z (Z.max mx (list_max (all_channel_diffs l))).
Proof.
  induction l as [|[p1 p2] l IH]; intros s mx Hs Hmx.
  - cbn. rewrite Hs. f_equal. lia.
  - cbn [fold_left]. pose proof (pixel_max_diff_range (p1, p2)) as Hp.
    rewrite (IH _ (Z.max mx (pixel_max_diff (p1, p2)))).
    + f_equal. unfold all_channel_diffs. cbn [flat_map]. rewrite list_max_app.
      fold (pixel_max_diff (p1, p2)). lia.
    + cbv beta delta [fuzzy_pixel] zeta. cbn [acc_max fst snd].
      rewrite pixel_max_diff_max4, Hs. apply dmax_of_Z; lia.
    + lia.
Qed.

(** The running total is the sum of all channel differences seen; every
    partial sum is an integer a [double] holds exactly. *)
Lemma fold_total (tolerance : Z) (l : list (Pixel * Pixel)) : forall s tot,
  acc_total s = double_of_Z tot -> 0 <= tot ->
  tot + 1020 * Z.of_nat (length l) < 2 ^ 53 ->
  acc_total (fold_left (fun s pp => fuzzy_pixel tolerance (fst pp) (snd pp) s) l s)
  = double_of_Z (tot + list_sum (all_channel_diffs l)).
Proof.
  induction l as [|[p1 p2] l IH]; intros s tot Hs Ht Hb.
  - cbn. rewrite Hs. f_equal. lia.
  - cbn [fold_left length] in *. destruct (channel_diffs_sum p1 p2) as (Es & Hr).
    rewrite (IH _ (tot + list_sum (channel_diffs (p1, p2)))).
    + f_equal. unfold all_channel_diffs. cbn [flat_map]. rewrite list_sum_app. lia.
    + cbv beta delta [fuzzy_pixel] zeta. cbn [acc_total fst snd].
      rewrite Hs, Es. apply dadd_exact; lia.
    + lia.
    + lia.
Qed.

Lemma fold_count (tolerance : Z) (l : list (Pixel * Pixel)) : forall s,
  0 <= acc_count s -> acc_count s + 4 * Z.of_nat (length l) < 2 ^ 64 ->
  acc_count (fold_left (fun s pp => fuzzy_pixel tolerance (fst pp) (snd pp) s) l s)
  = acc_count s + 4 * Z.of_nat (length l).
Proof.
  induction l as [|[p1 p2] l IH]; intros s H0 Hb.
  - cbn. lia.
  - cbn [fold_left length] in *.
    assert (E : acc_count (fuzzy_pixel tolerance p1 p2 s) = acc_count s + 4).
    { cbv beta delta [fuzzy_pixel] zeta. cbn [acc_count].
      unfold wrap64. apply Z.mod_small. lia. }
    cbn [fst snd]. rewrite IH; rewrite E; lia.
Qed.

Lemma empty_false (img : Image) :
  Image_ok img -> 0 < width_ img -> 0 < height_ img -> empty img = false.
Proof.
  intros (Hw & Hh & Hb & Hl) Hw0 Hh0. unfold empty.
  destruct (data_ img); [simpl in Hl; nia | reflexivity].
Qed.

(** [fuzzy] never raises an exception. *)
Lemma fuzzy_total (img1 img2 : Image) (tolerance : Z) :
  exists res, fuzzy img1 img2 tolerance = Some res.
Proof.
  unfold fuzzy.
  destruct (negb (width_ img1 =? width_ img2) || negb (height_ img1 =? height_ img2)) eqn:Ed;
    [eexists; reflexivity|].
  destruct (empty img1 || empty img2); [eexists; reflexivity|].
  apply orb_false_elim in Ed. destruct Ed as (Ew & Eh).
  apply negb_false_iff, Z.eqb_eq in Ew. apply negb_false_iff, Z.eqb_eq in Eh.
  rewrite fuzzy_loops_fold by assumption. eexists. reflexivity.
Qed.

(* ================================================================== *)
(** * Facts about the pixel buffer *)
(* ================================================================== *)

Lemma store_nat_length (d : list uint8_t) (i : nat) (v : uint8_t) :
  length (store_nat d i v) = length d.
Proof.
  revert i; induction d as [|h t IH]; intros [|i]; simpl; try reflexivity.
  now rewrite IH.
Qed.

Lemma nth_store_nat_same (d : list uint8_t) (i : nat) (v : uint8_t) :
  (i < length d)%nat -> nth i (store_nat d i v) Byte.x00 = v.
Proof.
  revert i; induction d as [|h t IH]; intros [|i] Hi; simpl in *; try lia.
  - reflexivity.
  - apply IH. lia.
Qed.

Lemma nth_store_nat_other (d : list uint8_t) (i j : nat) (v : uint8_t) :
  i <> j -> nth j (store_nat d i v) Byte.x00 = nth j d Byte.x00.
Proof.
  revert i j; induction d as [|h t IH]; intros [|i] [|j] Hij; simpl; try reflexivity.
  - lia.
  - apply IH. lia.
Qed.

Lemma store_length (d : list uint8_t) (i : Z) (v : uint8_t) :
  length (store d i v) = length d.
Proof. apply store_nat_length. Qed.

Lemma at_store_same (d : list uint8_t) (i : Z) (v : uint8_t) :
  0 <= i < Z.of_nat (length d) -> at_ (store d i v) i = v.
Proof. intros Hi. unfold at_, store. apply nth_store_nat_same. lia. Qed.

Lemma at_store_other (d : list uint8_t) (i j : Z) (v : uint8_t) :
  0 <= i -> 0 <= j -> i <> j -> at_ (store d i v) j = at_ d j.
Proof. intros Hi Hj Hij. unfold at_, store. apply nth_store_nat_other. lia. Qed.

(** Inside an image that satisfies the buffer invariant the offset does
    not wrap around and the four bytes of the pixel are in the buffer. *)
Lemma pixel_offset_inside (img : Image) (x y : Z) :
  Image_ok img -> 0 <= x < width_ img -> 0 <= y < height_ img ->
  pixel_offset img x y = (y * width_ img + x) * 4 /\
  0 <= (y * width_ img + x) * 4 /\
  (y * width_ img + x) * 4 + 3 < Z.of_nat (length (data_ img)).
Proof.
  intros (Bw & Bh & Bsz & Blen) Hx Hy.
  assert (P1 : 0 <= y * width_ img) by (apply Z.mul_nonneg_nonneg; lia).
  assert (P2 : 0 <= (height_ img - 1 - y) * width_ img)
    by (apply Z.mul_nonneg_nonneg; lia).
  assert (Hb : 0 <= y * width_ img + x < width_ img * height_ img) by lia.
  unfold pixel_offset, wrap32.
  rewrite (Z.mod_small (y * width_ img)) by lia.
  rewrite (Z.mod_small (y * width_ img + x)) by lia.
  rewrite Z.mod_small by lia. lia.
Qed.

Lemma offset_injective (w x y x' y' k k' : Z) :
  0 <= x < w -> 0 <= x' < w -> 0 <= y -> 0 <= y' ->
  0 <= k < 4 -> 0 <= k' < 4 ->
  (y * w + x) * 4 + k = (y' * w + x') * 4 + k' ->
  x = x' /\ y = y' /\ k = k'.
Proof.
  intros Hx Hx' Hy Hy' Hk Hk' E.
  assert (Ek : k = k') by lia. subst k'.
  assert (E2 : y * w + x = y' * w + x') by lia.
  assert (Ey : y = y') by nia. subst y'. lia.
Qed.

Lemma Image_ok_set_pixel (img img' : Image) (x y : Z) (p : Pixel) :
  Image_ok img -> set_pixel img x y p = Some img' ->
  Image_ok img' /\ width_ img' = width_ img /\ height_ img' = height_ img.
Proof.
  intros Ok E. unfold set_pixel in E.
  destruct ((x >=? width_ img) || (y >=? height_ img)); [discriminate|].
  injection E as <-. unfold Image_ok in *. cbn [width_ height_ data_].
  rewrite !store_length. auto.
Qed.

Lemma set_pixel_inside (img : Image) (x y : Z) (p : Pixel) :
  x < width_ img -> y < height_ img -> exists img', set_pixel img x y p = Some img'.
Proof.
  intros Hx Hy. unfold set_pixel.
  destruct (Z.geb_spec x (width_ img)); [lia|].
  destruct (Z.geb_spec y (height_ img)); [lia|]. eexists; reflexivity.
Qed.

(** Reading back the pixel just written. *)
Lemma pixel_at_set_pixel_same (img img' : Image) (x y : Z) (p : Pixel) :
  Image_ok img -> 0 <= x < width_ img -> 0 <= y < height_ img ->
  set_pixel img x y p = Some img' -> pixel_at img' x y = p.
Proof.
  intros Ok Hx Hy E.
  destruct (pixel_offset_inside img x y Ok Hx Hy) as (Eo & Ho0 & Ho3).
  unfold set_pixel in E.
  destruct ((x >=? width_ img) || (y >=? height_ img)); [discriminate|].
  injection E as <-. unfold pixel_at, pixel_offset in *. cbn [width_ height_ data_].
  rewrite Eo. set (o := (y * width_ img + x) * 4) in *.
  destruct p as [pr pg pb pa]. cbn [r g b a]. f_equal.
  - rewrite !at_store_other by lia. apply at_store_same. lia.
  - rewrite !at_store_other by lia. apply at_store_same. rewrite !store_length. lia.
  - rewrite !at_store_other by lia. apply at_store_same. rewrite !store_length. lia.
  - apply at_store_same. rewrite !store_length. lia.
Qed.

(** A write leaves every other pixel of the image unchanged. *)
Lemma pixel_at_set_pixel_other (img img' : Image) (x y x' y' : Z) (p : Pixel) :
  Image_ok img -> 0 <= x < width_ img -> 0 <= y < height_ img ->
  0 <= x' < width_ img -> 0 <= y' < height_ img ->
  (x', y') <> (x, y) ->
  set_pixel img x y p = Some img' -> pixel_at img' x' y' = pixel_at img x' y'.
Proof.
  intros Ok Hx Hy Hx' Hy' Hne E.
  destruct (pixel_offset_inside img x y Ok Hx Hy) as (Eo & Ho0 & Ho3).
  destruct (pixel_offset_inside img x' y' Ok Hx' Hy') as (Eo' & Ho0' & Ho3').
  unfold set_pixel in E.
  destruct ((x >=? width_ img) || (y >=? height_ img)); [discriminate|].
  injection E as <-. unfold pixel_at, pixel_offset in *. cbn [width_ height_ data_].
  rewrite Eo, Eo'.
  assert (D : forall k k', 0 <= k < 4 -> 0 <= k' < 4 ->
              (y * width_ img + x) * 4 + k <> (y' * width_ img + x') * 4 + k').
  { intros k k' Hk Hk' Eq.
    destruct (offset_injective (width_ img) x y x' y' k k') as (-> & -> & _);
      try assumption; try lia. now apply Hne. }
  pose proof (D 0 0 ltac:(lia) ltac:(lia)). pose proof (D 0 1 ltac:(lia) ltac:(lia)).
  pose proof (D 0 2 ltac:(lia) ltac:(lia)). pose proof (D 0 3 ltac:(lia) ltac:(lia)).
  pose proof (D 1 0 ltac:(lia) ltac:(lia)). pose proof (D 1 1 ltac:(lia) ltac:(lia)).
  pose proof (D 1 2 ltac:(lia) ltac:(lia)). pose proof (D 1 3 ltac:(lia) ltac:(lia)).
  pose proof (D 2 0 ltac:(lia) ltac:(lia)). pose proof (D 2 1 ltac:(lia) ltac:(lia)).
  pose proof (D 2 2 ltac:(lia) ltac:(lia)). pose proof (D 2 3 ltac:(lia) ltac:(lia)).
  pose proof (D 3 0 ltac:(lia) ltac:(lia)). pose proof (D 3 1 ltac:(lia) ltac:(lia)).
  pose proof (D 3 2 ltac:(lia) ltac:(lia)). pose proof (D 3 3 ltac:(lia) ltac:(lia)).
  f_equal; rewrite !at_store_other by lia; reflexivity.
Qed.

Lemma Image_new_ok (w h : Z) :
  0 <= w < 2 ^ 32 -> 0 <= h < 2 ^ 32 -> w * h * 4 < 2 ^ 32 -> Image_ok (Image_new w h).
Proof.
  intros Hw Hh Hb. unfold Image_ok, Image_new. cbn [width_ height_ data_].
  assert (P : 0 <= w * h) by (apply Z.mul_nonneg_nonneg; lia).
  rewrite repeat_length. unfold wrap32.
  rewrite (Z.mod_small (w * h)) by lia. rewrite Z.mod_small by lia.
  repeat split; try lia.
Qed.

(** A row-major double loop that writes a pixel [f x y] at every position
    of a fresh [w] by [h] image never raises and produces the image whose
    pixel at every position is [f x y]. *)
Lemma paint_loops (w h : Z) (body : Z -> Z -> Image -> option Image) (f : Z -> Z -> Pixel) :
  0 <= w < 2 ^ 32 -> 0 <= h < 2 ^ 32 -> w * h * 4 < 2 ^ 32 ->
  (forall x y img, 0 <= x < w -> 0 <= y < h -> width_ img = w -> height_ img = h ->
                   body x y img = set_pixel img x y (f x y)) ->
  exists out,
    for_range h (fun y d => for_range w (fun x d' => body x y d') d) (Image_new w h) = Some out /\
    Image_ok out /\ width_ out = w /\ height_ out = h /\
    forall x y, 0 <= x < w -> 0 <= y < h -> pixel_at out x y = f x y.
Proof.
  intros Hw Hh Hb Hbody.
  set (Inv := fun (yy xx : Z) (img : Image) =>
                Image_ok img /\ width_ img = w /\ height_ img = h /\
                forall x y, 0 <= x < w -> 0 <= y < h ->
                            (y < yy \/ (y = yy /\ x < xx)) -> pixel_at img x y = f x y).
  destruct (for_loop_inv
              (fun y d => for_range w (fun x d' => body x y d') d)
              (fun y img => Inv y 0 img) (Z.to_nat h) 0 (Image_new w h))
    as (out & E & Ok & Ew & Eh & Hpix).
  - unfold Inv. split; [now apply Image_new_ok|]. repeat split; try reflexivity.
    intros x y Hx Hy [Hlt|[-> Hlt]]; lia.
  - intros y img Hy (Ok & Ew & Eh & Hpix). rewrite Z2Nat.id in Hy by lia.
    destruct (for_loop_inv (fun x d' => body x y d') (fun x img' => Inv y x img')
                           (Z.to_nat w) 0 img) as (img' & E' & Ok' & Ew' & Eh' & Hpix').
    + unfold Inv. split; [exact Ok|]. split; [exact Ew|]. split; [exact Eh|].
      intros x0 y0 Hx0 Hy0 Hc. apply Hpix; assumption.
    + intros x im Hx (Oki & Ewi & Ehi & Hpi). rewrite Z2Nat.id in Hx by lia.
      rewrite Hbody by lia.
      destruct (set_pixel_inside im x y (f x y)) as (im' & Es); try lia.
      exists im'. split; [exact Es|].
      destruct (Image_ok_set_pixel _ _ _ _ _ Oki Es) as (Ok2 & Ew2 & Eh2).
      unfold Inv. split; [exact Ok2|]. split; [lia|]. split; [lia|].
      intros x0 y0 Hx0 Hy0 Hc.
      destruct (Z.eq_dec x0 x) as [->|Hnx]; [destruct (Z.eq_dec y0 y) as [->|Hny]|].
      * apply (pixel_at_set_pixel_same im); try assumption; lia.
      * rewrite (pixel_at_set_pixel_other im im' x y x y0 (f x y)); try assumption; try lia.
        -- apply Hpi; try assumption. lia.
        -- intros Hc'. injection Hc' as ->. lia.
      * rewrite (pixel_at_set_pixel_other im im' x y x0 y0 (f x y)); try assumption; try lia.
        -- apply Hpi; try assumption. lia.
        -- intros Hc'. injection Hc' as -> ->. lia.
    + exists img'. split; [exact E'|]. rewrite Z2Nat.id in Hpix' by lia.
      unfold Inv. split; [exact Ok'|]. split; [exact Ew'|]. split; [exact Eh'|].
      intros x0 y0 Hx0 Hy0 Hc. apply Hpix'; try assumption. lia.
  - exists out. rewrite Z2Nat.id in Hpix by lia.
    split; [exact E|]. split; [exact Ok|]. split; [exact Ew|]. split; [exact Eh|].
    intros x y Hx Hy. apply Hpix; try assumption. lia.
Qed.
(* ================================================================== *)
(** * The flat RGBA8 buffer and the comparison worded over it *)
(* ================================================================== *)

Lemma positions_In (w h x y : Z) :
  In (x, y) (positions w h) <-> 0 <= x < w /\ 0 <= y < h.
Proof.
  unfold positions. rewrite in_flat_map. split.
  - intros (y' & Hy & Hx). apply in_map_iff in Hx. destruct Hx as (x' & Exy & Hx).
    injection Exy as -> ->. apply indices_In in Hy, Hx.
    split; apply indices_bound; assumption.
  - intros (Hx & Hy). exists y. split.
    + apply indices_In. lia.
    + apply in_map_iff. exists x. split; [reflexivity|]. apply indices_In. lia.
Qed.

Lemma filter_map_length {A B : Type} (f : A -> B) (c : B -> bool) (l : list A) :
  length (filter c (map f l)) = length (filter (fun k => c (f k)) l).
Proof.
  induction l as [|k l IH]; [reflexivity|].
  cbn [map filter]. destruct (c (f k)); cbn [length]; now rewrite IH.
Qed.

(** Inside an image that satisfies the buffer invariant, the pixel read
    at [(x, y)] is the four bytes of the flat row-major buffer at
    [(y * width + x) * 4]. *)
Lemma pixel_at_spec_channel (img : Image) (x y : Z) :
  Image_ok img -> 0 <= x < width_ img -> 0 <= y < height_ img ->
  pixel_at img x y
  = mkPixel (spec_channel img x y 0) (spec_channel img x y 1)
            (spec_channel img x y 2) (spec_channel img x y 3).
Proof.
  intros Ok Hx Hy. destruct (pixel_offset_inside img x y Ok Hx Hy) as (E & _).
  unfold pixel_at, spec_channel, at_. rewrite E, Z.add_0_r. reflexivity.
Qed.

(** The difference the code takes of two channel values is the larger
    minus the smaller. *)
Lemma channel_diff_spec_abs_diff (u v : uint8_t) : channel_diff u v = spec_abs_diff u v.
Proof. unfold channel_diff, spec_abs_diff. lia. Qed.

Lemma channel_diffs_spec_position_diffs (img1 img2 : Image) (x y : Z) :
  Image_ok img1 -> Image_ok img2 ->
  width_ img1 = width_ img2 -> height_ img1 = height_ img2 ->
  0 <= x < width_ img1 -> 0 <= y < height_ img1 ->
  channel_diffs (pixel_at img1 x y, pixel_at img2 x y) = spec_position_diffs img1 img2 (x, y).
Proof.
  intros Ok1 Ok2 Ew Eh Hx Hy.
  rewrite (pixel_at_spec_channel img1) by assumption.
  rewrite (pixel_at_spec_channel img2) by (try assumption; lia).
  unfold channel_diffs, spec_position_diffs. cbn [map fst snd r g b a].
  rewrite !channel_diff_spec_abs_diff. reflexivity.
Qed.

Lemma flat_map_map_in {A B C : Type} (f : A -> B) (g : B -> list C) (k : A -> list C)
      (l : list A) :
  (forall x, In x l -> g (f x) = k x) -> flat_map g (map f l) = flat_map k l.
Proof.
  induction l as [|x l IH]; intros H; [reflexivity|].
  cbn [map flat_map]. rewrite H by now left.
  rewrite IH; [reflexivity|]. intros x' Hin. apply H. now right.
Qed.

(** The result worded over pairs of pixels is the result worded over the
    bytes of the two buffers. *)
Lemma spec_fuzzy_spec_compare (img1 img2 : Image) (tolerance : Z) :
  Image_ok img1 -> Image_ok img2 ->
  width_ img1 = width_ img2 -> height_ img1 = height_ img2 ->
  spec_fuzzy img1 img2 tolerance = spec_compare img1 img2 tolerance.
Proof.
  intros Ok1 Ok2 Ew Eh.
  assert (Hpos : forall xy, In xy (positions (width_ img1) (height_ img1)) ->
            channel_diffs (pixel_at img1 (fst xy) (snd xy), pixel_at img2 (fst xy) (snd xy))
            = spec_position_diffs img1 img2 xy).
  { intros [x y] Hin. apply positions_In in Hin. cbn [fst snd].
    apply channel_diffs_spec_position_diffs; try assumption; lia. }
  assert (Hcount : count_different tolerance (pixel_pairs img1 img2)
                   = Z.of_nat (length (spec_different_positions tolerance img1 img2))).
  { unfold count_different, pixel_pairs, spec_different_positions.
    rewrite filter_map_length. f_equal. f_equal. apply filter_ext_in.
    intros xy Hin. unfold is_different, pixel_max_diff, spec_position_different,
      spec_position_max_diff.
    now rewrite Hpos. }
  assert (Hdiffs : all_channel_diffs (pixel_pairs img1 img2) = spec_examined_diffs img1 img2).
  { unfold all_channel_diffs, pixel_pairs, spec_examined_diffs.
    apply flat_map_map_in. exact Hpos. }
  unfold spec_fuzzy, spec_compare. cbv zeta. rewrite Hcount, Hdiffs. reflexivity.
Qed.

Lemma spec_abs_diff_nonneg (u v : uint8_t) : 0 <= spec_abs_diff u v.
Proof. unfold spec_abs_diff. lia. Qed.

(** The maximum of the four differences at a position exceeds a bound iff
    one of the four does. *)
Lemma spec_position_max_exceeds (img1 img2 : Image) (xy : Z * Z) (t : Z) :
  t < list_max (spec_position_diffs img1 img2 xy) <->
  exists c, 0 <= c < 4 /\ t < nth (Z.to_nat c) (spec_position_diffs img1 img2 xy) 0.
Proof.
  unfold spec_position_diffs, list_max. cbn [map fold_right].
  pose proof (spec_abs_diff_nonneg (spec_channel img1 (fst xy) (snd xy) 0)
                                   (spec_channel img2 (fst xy) (snd xy) 0)) as P0.
  pose proof (spec_abs_diff_nonneg (spec_channel img1 (fst xy) (snd xy) 1)
                                   (spec_channel img2 (fst xy) (snd xy) 1)) as P1.
  pose proof (spec_abs_diff_nonneg (spec_channel img1 (fst xy) (snd xy) 2)
                                   (spec_channel img2 (fst xy) (snd xy) 2)) as P2.
  pose proof (spec_abs_diff_nonneg (spec_channel img1 (fst xy) (snd xy) 3)
                                   (spec_channel img2 (fst xy) (snd xy) 3)) as P3.
  revert P0 P1 P2 P3.
  generalize (spec_abs_diff (spec_channel img1 (fst xy) (snd xy) 0)
                            (spec_channel img2 (fst xy) (snd xy) 0)).
  generalize (spec_abs_diff (spec_channel img1 (fst xy) (snd xy) 1)
                            (spec_channel img2 (fst xy) (snd xy) 1)).
  generalize (spec_abs_diff (spec_channel img1 (fst xy) (snd xy) 2)
                            (spec_channel img2 (fst xy) (snd xy) 2)).
  generalize (spec_abs_diff (spec_channel img1 (fst xy) (snd xy) 3)
                            (spec_channel img2 (fst xy) (snd xy) 3)).
  intros d3 d2 d1 d0 P0 P1 P2 P3. split.
  - intros H.
    destruct (Z_lt_dec t d0); [exists 0; split; [lia | exact l]|].
    destruct (Z_lt_dec t d1); [exists 1; split; [lia | exact l]|].
    destruct (Z_lt_dec t d2); [exists 2; split; [lia | exact l]|].
    exists 3. split; [lia|]. change (t < d3). lia.
  - intros (c & Hc & H).
    assert (Hcases : c = 0 \/ c = 1 \/ c = 2 \/ c = 3) by lia.
    destruct Hcases as [-> | [-> | [-> | ->]]];
      [change (t < d0) in H | change (t < d1) in H
       | change (t < d2) in H | change (t < d3) in H]; lia.
Qed.

(** Four channel differences are examined per position. *)
Lemma spec_examined_diffs_length (img1 img2 : Image) :
  0 <= width_ img1 -> 0 <= height_ img1 ->
  Z.of_nat (length (spec_examined_diffs img1 img2)) = 4 * (width_ img1 * height_ img1).
Proof.
  intros Hw Hh. unfold spec_examined_diffs.
  rewrite <- (positions_length (width_ img1) (height_ img1)) by assumption.
  induction (positions (width_ img1) (height_ img1)) as [|xy l IH]; [reflexivity|].
  cbn [flat_map]. rewrite length_app. cbn [length spec_position_diffs map] in *. lia.
Qed.


(* ================================================================== *)
(** * The comparison engine: [fuzzy], [fuzzy_percent] *)
(* ================================================================== *)

(** For non-empty images of equal dimensions that satisfy the buffer
    invariant, [fuzzy] returns exactly the result the specification
    describes. *)
Lemma fuzzy_refines (img1 img2 : Image) (tolerance : Z) :
  Image_ok img1 -> Image_ok img2 ->
  width_ img1 = width_ img2 -> height_ img1 = height_ img2 ->
  0 < width_ img1 -> 0 < height_ img1 ->
  fuzzy img1 img2 tolerance = Some (spec_fuzzy img1 img2 tolerance).
Proof.
  intros Ok1 Ok2 Hw Hh Hw0 Hh0.
  pose proof (empty_false img1 Ok1 Hw0 Hh0) as E1.
  pose proof (empty_false img2 Ok2 ltac:(lia) ltac:(lia)) as E2.
  destruct Ok1 as (Bw & Bh & Bsz & Blen).
  unfold fuzzy. rewrite Hw, Hh, !Z.eqb_refl, E1, E2. cbn [negb orb].
  rewrite <- Hw, <- Hh. rewrite fuzzy_loops_fold by assumption. cbn [bind].
  set (pairs := pixel_pairs img1 img2).
  set (s := fold_left _ pairs _).
  assert (Hlen : Z.of_nat (length pairs) = width_ img1 * height_ img1)
    by (apply pixel_pairs_length; lia).
  assert (Hpos : 0 < width_ img1 * height_ img1) by nia.
  destruct (all_channel_diffs_range pairs) as (Rmax & Rsum & Rlen).
  assert (Hd : acc_different s = count_different tolerance pairs).
  { unfold s. rewrite fold_different; cbn [acc_different]; lia. }
  assert (Hm : acc_max s = double_of_Z (list_max (all_channel_diffs pairs))).
  { unfold s. rewrite (fold_max _ _ _ 0) by (cbn [acc_max]; first [reflexivity | lia]).
    f_equal. lia. }
  assert (Ht : acc_total s = double_of_Z (list_sum (all_channel_diffs pairs))).
  { unfold s. rewrite (fold_total _ _ _ 0) by (cbn [acc_total]; first [reflexivity | lia]).
    reflexivity. }
  assert (Hc : acc_count s = Z.of_nat (length (all_channel_diffs pairs))).
  { unfold s. rewrite fold_count by (cbn [acc_count]; lia).
    cbn [acc_count]. rewrite Rlen. lia. }
  assert (Hwrap : wrap32 (width_ img1 * height_ img1) = width_ img1 * height_ img1)
    by (unfold wrap32; apply Z.mod_small; lia).
  rewrite Hwrap, Hd, Hm, Ht, Hc.
  replace (Z.of_nat (length (all_channel_diffs pairs)) >? 0) with true
    by (symmetry; apply Z.gtb_lt; lia).
  replace (width_ img1 * height_ img1 >? 0) with true
    by (symmetry; apply Z.gtb_lt; lia).
  reflexivity.
Qed.

Lemma count_different_mono (t1 t2 : Z) (l : list (Pixel * Pixel)) :
  t1 <= t2 -> count_different t2 l <= count_different t1 l.
Proof.
  intros Ht. induction l as [|pp l IH]; [reflexivity|].
  rewrite !count_different_cons. unfold is_different.
  destruct (Z.ltb_spec t2 (pixel_max_diff pp)), (Z.ltb_spec t1 (pixel_max_diff pp)); lia.
Qed.

(** The tolerance-255 run of [fuzzy] counts no pixel and reports 0
    percent, whatever the images. *)
Lemma fuzzy_255 (img1 img2 : Image) :
  exists res, fuzzy img1 img2 255 = Some res /\
              different_pixels res = 0 /\ difference_percent res = dzero.
Proof.
  unfold fuzzy.
  destruct (negb (width_ img1 =? width_ img2) || negb (height_ img1 =? height_ img2)) eqn:Ed;
    [eexists; repeat split; reflexivity|].
  destruct (empty img1 || empty img2); [eexists; repeat split; reflexivity|].
  apply orb_false_elim in Ed. destruct Ed as (Ew & Eh).
  apply negb_false_iff, Z.eqb_eq in Ew. apply negb_false_iff, Z.eqb_eq in Eh.
  rewrite fuzzy_loops_fold by assumption. cbn [bind].
  eexists. split; [reflexivity|]. cbn [different_pixels difference_percent].
  rewrite fold_different_255. cbn [acc_different]. split; [reflexivity|].
  destruct (Z.gtb_spec (wrap32 (width_ img1 * height_ img1)) 0) as [Hpos|]; [|reflexivity].
  assert (Hr : 0 < wrap32 (width_ img1 * height_ img1) < 2 ^ 53).
  { unfold wrap32 in *.
    pose proof (Z.mod_pos_bound (width_ img1 * height_ img1) (2 ^ 32) ltac:(lia)). lia. }
  rewrite (double_of_Z_pos _ Hr). reflexivity.
Qed.

(** [fuzzy_percent] is the tolerance-255 run of [fuzzy] with only [match]
    replaced: the message branch for "N pixels differ ... within
    threshold" is never taken. *)
Lemma fuzzy_percent_is_override (img1 img2 : Image) (max_diff_percent : double) :
  fuzzy_percent img1 img2 max_diff_percent
  = option_map (fun res => set_match res (dle (difference_percent res) max_diff_percent))
               (fuzzy img1 img2 255).
Proof.
  unfold fuzzy_percent.
  destruct (fuzzy_255 img1 img2) as (res & E & Hd & _). rewrite E. cbn [bind option_map].
  cbn [set_match match_ different_pixels]. rewrite Hd.
  rewrite andb_false_r. reflexivity.
Qed.

(** C2 — For non-empty images of equal dimensions, [fuzzy] computes at
    every position the absolute difference of each of the four channels,
    the bytes at [(y * width + x) * 4 + c] of the two flat buffers, and
    their maximum; a pixel is different iff that maximum strictly exceeds
    the tolerance; [different_pixels] counts such pixels, [total_pixels]
    is [width * height], [difference_percent] is [100 * different_pixels /
    total_pixels], [max_channel_diff] and [avg_channel_diff] are the
    maximum and the mean of every channel difference of every pixel, and
    [match] is [different_pixels == 0]. *)
Theorem C2_fuzzy_computes_spec (img1 img2 : Image) (tolerance : Z) :
  Image_ok img1 -> Image_ok img2 ->
  width_ img1 = width_ img2 -> height_ img1 = height_ img2 ->
  0 < width_ img1 -> 0 < height_ img1 ->
  exists res,
    fuzzy img1 img2 tolerance = Some res /\
    res = spec_compare img1 img2 tolerance /\
    (forall x y c, 0 <= x < width_ img1 -> 0 <= y < height_ img1 -> 0 <= c < 4 ->
       nth (Z.to_nat c) (spec_position_diffs img1 img2 (x, y)) 0
       = Z.abs (u8_to_Z (nth (Z.to_nat ((y * width_ img1 + x) * 4 + c)) (data_ img1) Byte.x00)
                - u8_to_Z (nth (Z.to_nat ((y * width_ img1 + x) * 4 + c)) (data_ img2) Byte.x00))) /\
    (forall x y, In (x, y) (spec_different_positions tolerance img1 img2) <->
       0 <= x < width_ img1 /\ 0 <= y < height_ img1 /\
       exists c, 0 <= c < 4 /\
                 tolerance < nth (Z.to_nat c) (spec_position_diffs img1 img2 (x, y)) 0) /\
    different_pixels res = Z.of_nat (length (spec_different_positions tolerance img1 img2)) /\
    total_pixels res = width_ img1 * height_ img1 /\
    difference_percent res
    = ddiv (dmul (double_of_Z 100) (double_of_Z (different_pixels res)))
           (double_of_Z (total_pixels res)) /\
    max_channel_diff res = double_of_Z (list_max (spec_examined_diffs img1 img2)) /\
    avg_channel_diff res
    = ddiv (double_of_Z (list_sum (spec_examined_diffs img1 img2)))
           (double_of_Z (4 * total_pixels res)) /\
    match_ res = (different_pixels res =? 0).
Proof.
  intros Ok1 Ok2 Ew Eh Hw0 Hh0.
  exists (spec_compare img1 img2 tolerance).
  split; [rewrite fuzzy_refines by assumption; f_equal;
          now apply spec_fuzzy_spec_compare|].
  split; [reflexivity|].
  split.
  { intros x y c Hx Hy Hc. unfold spec_position_diffs, spec_channel. cbn [fst snd].
    rewrite <- Ew.
    assert (Hcases : c = 0 \/ c = 1 \/ c = 2 \/ c = 3) by lia.
    destruct Hcases as [-> | [-> | [-> | ->]]];
      [change (Z.to_nat 0) with 0%nat | change (Z.to_nat 1) with 1%nat
       | change (Z.to_nat 2) with 2%nat | change (Z.to_nat 3) with 3%nat];
      cbn [map nth]; unfold spec_abs_diff; lia. }
  split.
  { intros x y. unfold spec_different_positions. rewrite filter_In, positions_In.
    unfold spec_position_different, spec_position_max_diff. rewrite Z.ltb_lt.
    rewrite spec_position_max_exceeds. tauto. }
  split; [reflexivity|]. split; [reflexivity|]. split; [reflexivity|].
  split; [reflexivity|].
  split; [|reflexivity].
  cbn [spec_compare avg_channel_diff total_pixels]. do 2 f_equal.
  apply spec_examined_diffs_length; lia.
Qed.

Lemma black_1x1_ok : Image_ok black_1x1.
Proof. unfold Image_ok. by_evaluation. Qed.

Lemma white_1x1_ok : Image_ok white_1x1.
Proof. unfold Image_ok. by_evaluation. Qed.

Lemma quad_a_ok : Image_ok quad_a.
Proof. unfold Image_ok. by_evaluation. Qed.

Lemma quad_b_ok : Image_ok quad_b.
Proof. unfold Image_ok. by_evaluation. Qed.

Lemma C2_fuzzy_computes_spec_witness :
  exists res,
    fuzzy quad_a quad_b 10 = Some res /\
    different_pixels res = 1 /\ total_pixels res = 4 /\ match_ res = false /\
    max_channel_diff res = double_of_Z 40.
Proof.
  destruct (C2_fuzzy_computes_spec quad_a quad_b 10 quad_a_ok quad_b_ok eq_refl eq_refl
              ltac:(reflexivity) ltac:(reflexivity))
    as (res & E & Eres & _).
  exists res. split; [exact E|]. rewrite Eres. by_evaluation.
Defined.

(** C10 — For images of equal non-zero dimensions and tolerances
    [t1 <= t2], [fuzzy] at [t2] reports no more different pixels than at
    [t1]. *)
Theorem C10_different_pixels_monotone (img1 img2 : Image) (t1 t2 : Z) :
  Image_ok img1 -> Image_ok img2 ->
  width_ img1 = width_ img2 -> height_ img1 = height_ img2 ->
  0 < width_ img1 -> 0 < height_ img1 ->
  t1 <= t2 ->
  exists r1 r2,
    fuzzy img1 img2 t1 = Some r1 /\ fuzzy img1 img2 t2 = Some r2 /\
    different_pixels r2 <= different_pixels r1.
Proof.
  intros Ok1 Ok2 Hw Hh Hw0 Hh0 Ht.
  exists (spec_fuzzy img1 img2 t1), (spec_fuzzy img1 img2 t2).
  split; [now apply fuzzy_refines|]. split; [now apply fuzzy_refines|].
  cbn [spec_fuzzy different_pixels]. now apply count_different_mono.
Qed.

Lemma C10_different_pixels_monotone_witness :
  exists r1 r2,
    fuzzy black_1x1 white_1x1 0 = Some r1 /\ fuzzy black_1x1 white_1x1 255 = Some r2 /\
    different_pixels r2 <= different_pixels r1.
Proof.
  apply C10_different_pixels_monotone;
    [exact black_1x1_ok | exact white_1x1_ok | reflexivity | reflexivity
     | by_evaluation | by_evaluation | lia].
Defined.

(** C3 — For all images, also of different dimensions or with different
    pixels, and every [max_diff_percent >= 0], [fuzzy_percent] returns
    [match = true]: the tolerance-255 run counts no pixel, and a dimension
    mismatch leaves [difference_percent] at 0. *)
Theorem C3_fuzzy_percent_always_matches (img1 img2 : Image) (max_diff_percent : double) :
  dle dzero max_diff_percent = true ->
  exists res,
    fuzzy_percent img1 img2 max_diff_percent = Some res /\
    match_ res = true /\ different_pixels res = 0 /\ difference_percent res = dzero.
Proof.
  intros Hp. rewrite fuzzy_percent_is_override.
  destruct (fuzzy_255 img1 img2) as (res & E & Hd & Hz). rewrite E. cbn [option_map].
  eexists. split; [reflexivity|].
  cbn [set_match match_ different_pixels difference_percent].
  rewrite Hz. auto.
Qed.

Lemma C3_fuzzy_percent_always_matches_witness :
  exists res,
    fuzzy_percent black_1x1 white_1x1 dzero = Some res /\
    match_ res = true /\ different_pixels res = 0 /\ difference_percent res = dzero.
Proof. apply C3_fuzzy_percent_always_matches. reflexivity. Defined.

(** C1 — The code at a pair of images whose only pixel differs by 255 in
    three channels and a threshold of 0 percent: exact comparison counts 1
    different pixel of 1, yet [fuzzy_percent] counts none, reports 0
    percent and returns [match = true]. *)
Theorem C1_fuzzy_percent_counts_no_pixel :
  option_map different_pixels (exact black_1x1 white_1x1) = Some 1 /\
  option_map total_pixels (exact black_1x1 white_1x1) = Some 1 /\
  option_map different_pixels (fuzzy_percent black_1x1 white_1x1 dzero) = Some 0 /\
  option_map difference_percent (fuzzy_percent black_1x1 white_1x1 dzero) = Some dzero /\
  option_map match_ (fuzzy_percent black_1x1 white_1x1 dzero) = Some true.
Proof. vm_compute. repeat split; reflexivity. Qed.

(** C7 — On a dimension mismatch [fuzzy] returns [match = false] with the
    message naming both sizes and every counter left at 0; when an image
    is empty it returns [match] iff both are empty; two 0 by 0 images
    match for every tolerance; [fuzzy] never raises. *)
Theorem C7_fuzzy_mismatch_and_empty (img1 img2 : Image) (tolerance : Z) :
  (width_ img1 <> width_ img2 \/ height_ img1 <> height_ img2 ->
   fuzzy img1 img2 tolerance
   = Some (mkCompareResult false 0 0 dzero dzero dzero
             [Str "Dimension mismatch: "%string; U32 (width_ img1); Str "x"%string;
              U32 (height_ img1); Str " vs "%string; U32 (width_ img2);
              Str "x"%string; U32 (height_ img2)])) /\
  (width_ img1 = width_ img2 -> height_ img1 = height_ img2 ->
   empty img1 || empty img2 = true ->
   fuzzy img1 img2 tolerance
   = Some (mkCompareResult (empty img1 && empty img2) 0 0 dzero dzero dzero
             [Str (if empty img1 && empty img2
                   then "Both images empty" else "One image empty")%string])) /\
  option_map match_ (fuzzy (Image_new 0 0) (Image_new 0 0) tolerance) = Some true /\
  exists res, fuzzy img1 img2 tolerance = Some res.
Proof.
  split; [|split; [|split]].
  - intros Hd. unfold fuzzy.
    replace (negb (width_ img1 =? width_ img2) || negb (height_ img1 =? height_ img2))
      with true; [reflexivity|].
    symmetry. apply orb_true_iff.
    destruct Hd as [Hd|Hd]; [left|right]; apply negb_true_iff, Z.eqb_neq; exact Hd.
  - intros Hw Hh He. unfold fuzzy.
    rewrite Hw, Hh, !Z.eqb_refl, He. reflexivity.
  - reflexivity.
  - apply fuzzy_total.
Qed.

Lemma C7_fuzzy_mismatch_and_empty_witness :
  fuzzy (Image_new 2 1) (Image_new 1 1) 0
  = Some (mkCompareResult false 0 0 dzero dzero dzero
            [Str "Dimension mismatch: "%string; U32 2; Str "x"%string;
             U32 1; Str " vs "%string; U32 1; Str "x"%string; U32 1]) /\
  fuzzy (Image_new 0 3) (Image_new 0 3) 7
  = Some (mkCompareResult true 0 0 dzero dzero dzero [Str "Both images empty"%string]).
Proof.
  split.
  - apply (proj1 (C7_fuzzy_mismatch_and_empty (Image_new 2 1) (Image_new 1 1) 0)).
    left. by_evaluation.
  - apply (proj1 (proj2 (C7_fuzzy_mismatch_and_empty (Image_new 0 3) (Image_new 0 3) 7)));
      reflexivity.
Defined.

(* ================================================================== *)
(** * The diff renderer: [generate_diff] *)
(* ================================================================== *)

(** Every branch of the loop body of [generate_diff] writes the colour the
    specification gives for that coordinate. *)
Lemma diff_body_paints (img1 img2 : Image) (tolerance x y : Z) (diff : Image) :
  diff_body img1 img2 tolerance x y diff
  = set_pixel diff x y (spec_diff_pixel img1 img2 tolerance x y).
Proof.
  unfold diff_body, spec_diff_pixel, set_pixel_rgba.
  destruct ((x <? width_ img1) && (y <? height_ img1)) eqn:E1;
    destruct ((x <? width_ img2) && (y <? height_ img2)) eqn:E2;
    cbn [negb andb]; try reflexivity.
  apply andb_true_iff in E1. destruct E1 as (E1x & E1y).
  apply andb_true_iff in E2. destruct E2 as (E2x & E2y).
  apply Z.ltb_lt in E1x, E1y, E2x, E2y.
  rewrite !get_pixel_inside by assumption. cbn [bind].
  rewrite pixel_max_diff_max4, Z.gtb_ltb.
  pose proof (pixel_max_diff_range (pixel_at img1 x y, pixel_at img2 x y)) as Hr.
  destruct (tolerance <? pixel_max_diff (pixel_at img1 x y, pixel_at img2 x y));
    [|reflexivity].
  rewrite u8_to_of_Z_small by lia.
  unfold rgba. do 4 f_equal; f_equal; lia.
Qed.

(** The result of [generate_diff] when the canvas is not degenerate. *)
Lemma generate_diff_canvas (img1 img2 : Image) (tolerance : Z) :
  Image_ok img1 -> Image_ok img2 ->
  0 < Z.max (width_ img1) (width_ img2) -> 0 < Z.max (height_ img1) (height_ img2) ->
  Z.max (width_ img1) (width_ img2) * Z.max (height_ img1) (height_ img2) * 4 < 2 ^ 32 ->
  exists diff,
    generate_diff img1 img2 tolerance = Some diff /\
    Image_ok diff /\
    width_ diff = Z.max (width_ img1) (width_ img2) /\
    height_ diff = Z.max (height_ img1) (height_ img2) /\
    forall x y, 0 <= x < width_ diff -> 0 <= y < height_ diff ->
                get_pixel diff x y = Some (spec_diff_pixel img1 img2 tolerance x y).
Proof.
  intros (Bw1 & Bh1 & _) (Bw2 & Bh2 & _) Hw Hh Hb.
  unfold generate_diff.
  destruct (Z.eqb_spec (Z.max (width_ img1) (width_ img2)) 0); [lia|].
  destruct (Z.eqb_spec (Z.max (height_ img1) (height_ img2)) 0); [lia|].
  cbn [orb].
  destruct (paint_loops (Z.max (width_ img1) (width_ img2))
                        (Z.max (height_ img1) (height_ img2))
                        (diff_body img1 img2 tolerance)
                        (spec_diff_pixel img1 img2 tolerance))
    as (out & E & Ok & Ew & Eh & Hpix); try lia.
  { intros x y img _ _ _ _. apply diff_body_paints. }
  exists out. split; [exact E|]. split; [exact Ok|]. split; [exact Ew|]. split; [exact Eh|].
  intros x y Hx Hy. rewrite get_pixel_inside by lia. f_equal. apply Hpix; lia.
Qed.

Lemma red_4x4_ok : Image_ok red_4x4.
Proof. unfold Image_ok. by_evaluation. Qed.

(** C6 (amended) — For images whose canvas [(max width, max height)] is
    not degenerate, [generate_diff] produces a canvas of that size whose
    pixel at every coordinate is opaque green outside the first image but
    inside the second, opaque blue outside the second only, opaque black
    outside both, and where both have the pixel a red highlight scaled
    with the max channel diff (clamped) if it strictly exceeds the
    tolerance, else the first image's pixel with halved channels and alpha
    255; when the maximal width or height is 0 the result is the empty
    0 by 0 image.  Two identical 4x4 opaque-red images at tolerance 0 give
    (127,0,0,255) everywhere. *)
Theorem C6_generate_diff_canvas (img1 img2 : Image) (tolerance : Z) :
  Image_ok img1 -> Image_ok img2 ->
  Z.max (width_ img1) (width_ img2) * Z.max (height_ img1) (height_ img2) * 4 < 2 ^ 32 ->
  (Z.max (width_ img1) (width_ img2) = 0 \/ Z.max (height_ img1) (height_ img2) = 0 ->
   generate_diff img1 img2 tolerance = Some Image_default) /\
  (0 < Z.max (width_ img1) (width_ img2) -> 0 < Z.max (height_ img1) (height_ img2) ->
   exists diff,
     generate_diff img1 img2 tolerance = Some diff /\
     Image_ok diff /\
     width_ diff = Z.max (width_ img1) (width_ img2) /\
     height_ diff = Z.max (height_ img1) (height_ img2) /\
     forall x y, 0 <= x < width_ diff -> 0 <= y < height_ diff ->
                 get_pixel diff x y = Some (spec_diff_pixel img1 img2 tolerance x y)) /\
  generate_diff red_4x4 red_4x4 0 = Some (solid_image 4 4 (rgba 127 0 0 255)).
Proof.
  intros Ok1 Ok2 Hb. split; [|split].
  - intros Hz. unfold generate_diff.
    destruct Hz as [-> | ->]; [reflexivity | now rewrite orb_true_r].
  - intros Hw Hh. now apply generate_diff_canvas.
  - vm_compute. reflexivity.
Qed.

Lemma C6_generate_diff_canvas_witness :
  exists diff,
    generate_diff red_4x4 red_4x4 0 = Some diff /\
    Image_ok diff /\ width_ diff = 4 /\ height_ diff = 4 /\
    forall x y, 0 <= x < width_ diff -> 0 <= y < height_ diff ->
                get_pixel diff x y = Some (spec_diff_pixel red_4x4 red_4x4 0 x y).
Proof.
  apply (proj1 (proj2 (C6_generate_diff_canvas red_4x4 red_4x4 0
                         red_4x4_ok red_4x4_ok ltac:(by_evaluation)))); by_evaluation.
Defined.

(** C6 (as stated) fails: for a 0 by 5 and a 0 by 3 image the result is
    the 0 by 0 image, not a canvas of height [max 5 3 = 5]. *)
Lemma C6_counterexample_zero_width :
  Image_ok (Image_new 0 5) /\ Image_ok (Image_new 0 3) /\
  exists diff,
    generate_diff (Image_new 0 5) (Image_new 0 3) 0 = Some diff /\
    height_ diff <> Z.max (height_ (Image_new 0 5)) (height_ (Image_new 0 3)).
Proof.
  split; [apply Image_new_ok; lia|]. split; [apply Image_new_ok; lia|].
  exists Image_default. split; [reflexivity|]. by_evaluation.
Qed.

(* ================================================================== *)
(** * The pixel format normaliser: [ximage_to_image], [extract_channel] *)
(* ================================================================== *)

(** [ximage_to_image] never raises on a frame whose buffer size does not
    wrap around, and the pixel at every position is the conversion of the
    packed pixel at that position. *)
Lemma ximage_to_image_pixels (xi : XImage) :
  wrap32 (xi_width xi) * wrap32 (xi_height xi) * 4 < 2 ^ 32 ->
  exists img,
    ximage_to_image (Some xi) = Some img /\
    Image_ok img /\
    width_ img = wrap32 (xi_width xi) /\ height_ img = wrap32 (xi_height xi) /\
    forall x y, 0 <= x < width_ img -> 0 <= y < height_ img ->
                get_pixel img x y
                = Some (convert_pixel xi (alpha_mask_of xi) (XGetPixel xi x y)).
Proof.
  intros Hb. unfold ximage_to_image.
  assert (Hw : 0 <= wrap32 (xi_width xi) < 2 ^ 32) by (apply Z.mod_pos_bound; lia).
  assert (Hh : 0 <= wrap32 (xi_height xi) < 2 ^ 32) by (apply Z.mod_pos_bound; lia).
  destruct (paint_loops (wrap32 (xi_width xi)) (wrap32 (xi_height xi))
              (fun x y img =>
                 set_pixel img x y (convert_pixel xi (alpha_mask_of xi) (XGetPixel xi x y)))
              (fun x y => convert_pixel xi (alpha_mask_of xi) (XGetPixel xi x y)))
    as (out & E & Ok & Ew & Eh & Hpix); try assumption.
  { intros; reflexivity. }
  exists out. split; [exact E|]. split; [exact Ok|]. split; [exact Ew|]. split; [exact Eh|].
  intros x y Hx Hy. rewrite get_pixel_inside by lia. f_equal. apply Hpix; lia.
Qed.

Lemma alpha_mask_of_shallow (xi : XImage) : xi_depth xi <= 24 -> alpha_mask_of xi = 0.
Proof.
  intros Hd. unfold alpha_mask_of.
  destruct (Z.gtb_spec (xi_depth xi) 24); [lia | reflexivity].
Qed.

(** The alpha channel [convert_pixel] produces. *)
Lemma convert_pixel_alpha (xi : XImage) (alpha_mask pixel : Z) :
  a (convert_pixel xi alpha_mask pixel)
  = if (alpha_mask =? 0) || (u8_to_Z (extract_channel pixel alpha_mask) =? 0)
    then u8_of_Z 255 else extract_channel pixel alpha_mask.
Proof.
  unfold convert_pixel. cbn [a].
  destruct (alpha_mask =? 0); cbn [negb andb orb]; [reflexivity|].
  destruct (u8_to_Z (extract_channel pixel alpha_mask) =? 0); reflexivity.
Qed.

(** C5 — Every output pixel of the normaliser is opaque (alpha 255) when
    the drawable depth is at most 24; when the depth exceeds 24 and the
    alpha extracted through the alpha mask is 0, alpha is 255 as well, and
    otherwise it is the extracted value.  The packed pixel [0x00FF0000]
    under the 32 bits per pixel descriptor of depth 24 normalises to
    (255,0,0,255). *)
Theorem C5_normalizer_alpha (xi : XImage) :
  wrap32 (xi_width xi) * wrap32 (xi_height xi) * 4 < 2 ^ 32 ->
  (exists img,
     ximage_to_image (Some xi) = Some img /\
     width_ img = wrap32 (xi_width xi) /\ height_ img = wrap32 (xi_height xi) /\
     forall x y, 0 <= x < width_ img -> 0 <= y < height_ img ->
       exists p,
         get_pixel img x y = Some p /\
         (xi_depth xi <= 24 -> a p = u8_of_Z 255) /\
         (xi_depth xi > 24 ->
          (alpha_mask_of xi = 0 \/
           u8_to_Z (extract_channel (XGetPixel xi x y) (alpha_mask_of xi)) = 0 ->
           a p = u8_of_Z 255) /\
          (alpha_mask_of xi <> 0 ->
           u8_to_Z (extract_channel (XGetPixel xi x y) (alpha_mask_of xi)) <> 0 ->
           a p = extract_channel (XGetPixel xi x y) (alpha_mask_of xi)))) /\
  ximage_to_image (Some frame_rgb24_red) = Some (solid_image 1 1 (rgba 255 0 0 255)).
Proof.
  intros Hb. split; [|vm_compute; reflexivity].
  destruct (ximage_to_image_pixels xi Hb) as (img & E & Ok & Ew & Eh & Hpix).
  exists img. repeat split; try assumption.
  intros x y Hx Hy. eexists. split; [apply Hpix; assumption|].
  rewrite convert_pixel_alpha. split; [|split].
  - intros Hd. rewrite alpha_mask_of_shallow by assumption. reflexivity.
  - intros [Hz|Hz].
    + rewrite Hz. reflexivity.
    + rewrite Hz, orb_true_r. reflexivity.
  - intros Hm Hv.
    destruct (Z.eqb_spec (alpha_mask_of xi) 0); [contradiction|].
    destruct (Z.eqb_spec (u8_to_Z (extract_channel (XGetPixel xi x y) (alpha_mask_of xi))) 0);
      [contradiction | reflexivity].
Qed.

Lemma C5_normalizer_alpha_witness :
  exists img,
    ximage_to_image (Some frame_rgb24_red) = Some img /\
    width_ img = 1 /\ height_ img = 1 /\
    forall x y, 0 <= x < width_ img -> 0 <= y < height_ img ->
      exists p,
        get_pixel img x y = Some p /\
        (xi_depth frame_rgb24_red <= 24 -> a p = u8_of_Z 255) /\
        (xi_depth frame_rgb24_red > 24 ->
         (alpha_mask_of frame_rgb24_red = 0 \/
          u8_to_Z (extract_channel (XGetPixel frame_rgb24_red x y)
                                   (alpha_mask_of frame_rgb24_red)) = 0 ->
          a p = u8_of_Z 255) /\
         (alpha_mask_of frame_rgb24_red <> 0 ->
          u8_to_Z (extract_channel (XGetPixel frame_rgb24_red x y)
                                   (alpha_mask_of frame_rgb24_red)) <> 0 ->
          a p = extract_channel (XGetPixel frame_rgb24_red x y)
                                (alpha_mask_of frame_rgb24_red))).
Proof.
  apply (proj1 (C5_normalizer_alpha frame_rgb24_red ltac:(by_evaluation))).
Defined.

Lemma round_div_nearest (n d : Z) : 0 < d ->
  2 * Z.abs (round_div n d * d - n) <= d.
Proof.
  intros Hd. unfold round_div.
  pose proof (Z.mul_div_le (2 * n + d) (2 * d) ltac:(lia)).
  pose proof (Z.mul_succ_div_gt (2 * n + d) (2 * d) ltac:(lia)). lia.
Qed.

(** C4 (amended) — For every packed pixel and every non-zero channel mask
    that fits in 32 bits, [extract_channel] locates the lowest set bit of
    the mask (the shift), shifts the masked bits down and rescales the
    value linearly from [[0, mask >> shift]] to [[0, 255]], rounded to the
    nearest integer, the result lying in [[0, 255]]; when the set bits of
    the mask are contiguous, [mask >> shift] is [2^bits - 1] with [bits]
    the population count, and the result is the one the specification
    describes.  A zero mask yields 0.  The 565 pixel [0xF800] normalises to
    (255,0,0,255). *)
Theorem C4_extract_channel_rescale (pixel mask : Z) :
  0 < mask < 2 ^ 32 ->
  (find_shift 64 mask 0 = lowest_set_bit mask /\
   Z.testbit mask (lowest_set_bit mask) = true /\
   (forall i, 0 <= i < lowest_set_bit mask -> Z.testbit mask i = false)) /\
  count_bits 64 (Z.shiftr mask (lowest_set_bit mask)) 0 = popcount mask /\
  u8_to_Z (extract_channel pixel mask)
  = round_div (Z.shiftr (Z.land pixel mask) (lowest_set_bit mask) * 255)
              (Z.shiftr mask (lowest_set_bit mask)) /\
  0 <= u8_to_Z (extract_channel pixel mask) <= 255 /\
  2 * Z.abs (u8_to_Z (extract_channel pixel mask) * Z.shiftr mask (lowest_set_bit mask)
             - Z.shiftr (Z.land pixel mask) (lowest_set_bit mask) * 255)
  <= Z.shiftr mask (lowest_set_bit mask) /\
  (contiguous mask ->
   u8_to_Z (extract_channel pixel mask) = spec_extract_channel pixel mask) /\
  extract_channel pixel 0 = u8_of_Z 0 /\
  ximage_to_image (Some frame_rgb565_red) = Some (solid_image 1 1 (rgba 255 0 0 255)).
Proof.
  intros Hm.
  destruct (extract_channel_value pixel mask Hm) as (Hfs & Hcb & Hval & Hsm & Hres & Hr).
  split; [|split; [|split; [|split; [|split; [|split; [|split]]]]]].
  - split; [exact Hfs|]. destruct mask as [|p|p]; try lia. apply pos_ctz_spec.
  - exact Hcb.
  - exact Hres.
  - apply u8_to_Z_range.
  - rewrite Hres. apply round_div_nearest. lia.
  - intros Hc. rewrite Hres. unfold spec_extract_channel.
    destruct (Z.eqb_spec mask 0); [lia|].
    red in Hc. rewrite <- Hc. lia.
  - reflexivity.
  - vm_compute. reflexivity.
Qed.

Lemma C4_extract_channel_rescale_witness :
  u8_to_Z (extract_channel 0xF800 0xF800)
  = round_div (Z.shiftr (Z.land 0xF800 0xF800) (lowest_set_bit 0xF800) * 255)
              (Z.shiftr 0xF800 (lowest_set_bit 0xF800)).
Proof.
  apply (proj1 (proj2 (proj2 (C4_extract_channel_rescale 0xF800 0xF800 ltac:(lia))))).
Defined.

(** C4 (as stated) fails twice.  For the mask [0b101] the population
    count is 2, so the specification rescales the value 1 from [[0, 3]] to
    85, while the code divides by [mask >> shift = 5] and returns 51.  For
    the 64-bit mask of all ones and the pixel [36170086419038336] the
    exact quotient is below one half, yet the product with 255.0 is
    rounded up in [double] and the code returns 1. *)
Lemma C4_counterexample_split_mask :
  (u8_to_Z (extract_channel 1 5) = 51 /\ spec_extract_channel 1 5 = 85 /\
   u8_to_Z (extract_channel 1 5) <> spec_extract_channel 1 5) /\
  (u8_to_Z (extract_channel 36170086419038336 (2 ^ 64 - 1)) = 1 /\
   spec_extract_channel 36170086419038336 (2 ^ 64 - 1) = 0 /\
   u8_to_Z (extract_channel 36170086419038336 (2 ^ 64 - 1))
   <> spec_extract_channel 36170086419038336 (2 ^ 64 - 1)).
Proof. vm_compute. repeat split; try reflexivity; discriminate. Qed.

(* ================================================================== *)
(** * PNG persistence: [save_png], [load_png] *)
(* ================================================================== *)

(** C9 (amended) — [save_png] and [load_png] report every failure, be it a
    path that cannot be opened, a libpng structure that cannot be created
    or a libpng error on the data, by returning [false], and succeed with
    [true] exactly when no step failed; the result carries no error kind.
    [load_png] leaves the image untouched when it fails before the header
    is read. *)
Theorem C9_persistence_failures_return_false (senv : save_env) (lenv : load_env) (img : Image) :
  (save_png senv img = true <->
   sv_fopen senv = true /\ sv_create_write_struct senv = true /\
   sv_create_info_struct senv = true /\ sv_png_error senv = false) /\
  (fst (load_png lenv img) = true <->
   ld_fopen lenv = true /\ ld_create_read_struct lenv = true /\
   ld_create_info_struct lenv = true /\
   ld_read_info lenv <> None /\ ld_read_image lenv <> None) /\
  (ld_fopen lenv = false -> load_png lenv img = (false, img)) /\
  (ld_read_info lenv = None -> load_png lenv img = (false, img)).
Proof.
  split; [|split; [|split]].
  - unfold save_png.
    destruct (sv_fopen senv), (sv_create_write_struct senv),
      (sv_create_info_struct senv), (sv_png_error senv); cbn; intuition congruence.
  - unfold load_png.
    destruct (ld_fopen lenv), (ld_create_read_struct lenv), (ld_create_info_struct lenv),
      (ld_read_info lenv) as [[w h]|], (ld_read_image lenv); cbn; intuition congruence.
  - intros E. unfold load_png. rewrite E. reflexivity.
  - intros E. unfold load_png. rewrite E.
    destruct (ld_fopen lenv), (ld_create_read_struct lenv), (ld_create_info_struct lenv);
      reflexivity.
Qed.

Lemma C9_persistence_failures_return_false_witness :
  load_png env_unreadable_path Image_default = (false, Image_default) /\
  load_png env_corrupt_file Image_default = (false, Image_default).
Proof.
  split.
  - apply (proj1 (proj2 (proj2 (C9_persistence_failures_return_false
                                  env_unwritable_path env_unreadable_path Image_default)))).
    reflexivity.
  - apply (proj2 (proj2 (proj2 (C9_persistence_failures_return_false
                                  env_unwritable_path env_corrupt_file Image_default)))).
    reflexivity.
Defined.

(** C9 (as stated) fails: loading from a path that cannot be opened and
    loading a file that libpng rejects end in the same outcome, so no
    reading of the outcome tells an IOError from a FormatError. *)
Lemma C9_counterexample_same_outcome :
  ~ exists classify : bool * Image -> spec_error,
      classify (load_png env_unreadable_path Image_default) = IOError /\
      classify (load_png env_corrupt_file Image_default) = FormatError.
Proof.
  intros (classify & Hio & Hfmt).
  change (load_png env_corrupt_file Image_default)
    with (load_png env_unreadable_path Image_default) in Hfmt.
  rewrite Hio in Hfmt. discriminate.
Qed.

(* ================================================================== *)
(** * Further properties of the pixel buffer ([image.cpp]) *)
(* ================================================================== *)

Lemma at_repeat_zero (n : nat) (i : Z) : at_ (repeat Byte.x00 n) i = Byte.x00.
Proof. unfold at_. apply nth_repeat. Qed.

(** Two images of the same shape whose pixels agree at every position hold
    the same bytes. *)
Lemma data_ext (img1 img2 : Image) :
  Image_ok img1 -> Image_ok img2 ->
  width_ img1 = width_ img2 -> height_ img1 = height_ img2 ->
  (forall x y, 0 <= x < width_ img1 -> 0 <= y < height_ img1 ->
               pixel_at img1 x y = pixel_at img2 x y) ->
  data_ img1 = data_ img2.
Proof.
  intros Ok1 Ok2 Ew Eh Hpix.
  pose proof Ok1 as (Bw1 & Bh1 & Bsz1 & Blen1).
  pose proof Ok2 as (Bw2 & Bh2 & Bsz2 & Blen2).
  assert (Elen : Z.of_nat (length (data_ img1)) = Z.of_nat (length (data_ img2)))
    by (rewrite Blen1, Blen2, Ew, Eh; reflexivity).
  apply (nth_ext _ _ Byte.x00 Byte.x00); [apply Nat2Z.inj; exact Elen|].
  intros n Hn.
  set (i := Z.of_nat n).
  assert (Hi : 0 <= i < width_ img1 * height_ img1 * 4).
  { split; [lia|]. rewrite <- Blen1. apply Nat2Z.inj_lt. exact Hn. }
  assert (Hw0 : 0 < width_ img1) by nia.
  set (q := i / 4). set (k := i mod 4).
  assert (Hq : i = q * 4 + k) by (unfold q, k; pose proof (Z.div_mod i 4); lia).
  assert (Hk : 0 <= k < 4) by (apply Z.mod_pos_bound; lia).
  assert (Hq0 : 0 <= q < width_ img1 * height_ img1)
    by (unfold q; split; [apply Z.div_pos; lia | apply Z.div_lt_upper_bound; lia]).
  set (y := q / width_ img1). set (x := q mod width_ img1).
  assert (Hxy : q = y * width_ img1 + x)
    by (unfold x, y; pose proof (Z.div_mod q (width_ img1)); lia).
  assert (Hx : 0 <= x < width_ img1) by (apply Z.mod_pos_bound; lia).
  assert (Hy : 0 <= y < height_ img1).
  { unfold y. split; [apply Z.div_pos; lia|].
    apply Z.div_lt_upper_bound; lia. }
  specialize (Hpix x y Hx Hy).
  destruct (pixel_offset_inside img1 x y Ok1 Hx Hy) as (Eo1 & _ & _).
  destruct (pixel_offset_inside img2 x y Ok2 ltac:(lia) ltac:(lia)) as (Eo2 & _ & _).
  unfold pixel_at in Hpix. rewrite Eo1, Eo2, <- Ew, <- Hxy in Hpix.
  injection Hpix as H0 H1 H2 H3. unfold at_ in *.
  assert (Hcase : k = 0 \/ k = 1 \/ k = 2 \/ k = 3) by lia.
  replace n with (Z.to_nat (q * 4 + k)) by lia.
  destruct Hcase as [-> | [-> | [-> | ->]]]; [rewrite Z.add_0_r| | |]; assumption.
Qed.

(** X1 — Writing a pixel inside an image succeeds, keeps the buffer
    invariant and the dimensions, is read back unchanged at the same
    position and leaves every other position as it was. *)
Theorem set_pixel_get_pixel (img : Image) (x y : Z) (p : Pixel) :
  Image_ok img -> 0 <= x < width_ img -> 0 <= y < height_ img ->
  exists img',
    set_pixel img x y p = Some img' /\
    Image_ok img' /\ width_ img' = width_ img /\ height_ img' = height_ img /\
    get_pixel img' x y = Some p /\
    forall x' y', 0 <= x' < width_ img -> 0 <= y' < height_ img ->
                  (x', y') <> (x, y) -> get_pixel img' x' y' = get_pixel img x' y'.
Proof.
  intros Ok Hx Hy.
  destruct (set_pixel_inside img x y p) as (img' & E); try lia.
  destruct (Image_ok_set_pixel _ _ _ _ _ Ok E) as (Ok' & Ew & Eh).
  exists img'. split; [exact E|]. split; [exact Ok'|]. split; [exact Ew|]. split; [exact Eh|].
  split.
  - rewrite get_pixel_inside by lia. f_equal.
    apply (pixel_at_set_pixel_same img img' x y p); assumption.
  - intros x' y' Hx' Hy' Hne. rewrite !get_pixel_inside by lia. f_equal.
    apply (pixel_at_set_pixel_other img img' x y x' y' p); assumption.
Qed.

Lemma set_pixel_get_pixel_witness :
  exists img',
    set_pixel (Image_new 2 2) 1 0 (rgba 1 2 3 4) = Some img' /\
    Image_ok img' /\ width_ img' = 2 /\ height_ img' = 2 /\
    get_pixel img' 1 0 = Some (rgba 1 2 3 4) /\
    forall x' y', 0 <= x' < 2 -> 0 <= y' < 2 ->
                  (x', y') <> (1, 0) -> get_pixel img' x' y' = get_pixel (Image_new 2 2) x' y'.
Proof.
  apply (set_pixel_get_pixel (Image_new 2 2) 1 0 (rgba 1 2 3 4));
    [apply Image_new_ok; lia | by_evaluation | by_evaluation].
Defined.

(** X2 — A freshly constructed image whose size does not wrap around
    satisfies the buffer invariant, is transparent black at every position,
    and is empty exactly when one of its dimensions is 0. *)
Theorem Image_new_zeroed (w h : Z) :
  0 <= w < 2 ^ 32 -> 0 <= h < 2 ^ 32 -> w * h * 4 < 2 ^ 32 ->
  Image_ok (Image_new w h) /\
  (forall x y, 0 <= x < w -> 0 <= y < h ->
               get_pixel (Image_new w h) x y = Some (rgba 0 0 0 0)) /\
  (empty (Image_new w h) = true <-> w = 0 \/ h = 0).
Proof.
  intros Hw Hh Hb.
  pose proof (Image_new_ok w h Hw Hh Hb) as Ok.
  split; [exact Ok|]. split.
  - intros x y Hx Hy. rewrite get_pixel_inside by (cbn [Image_new width_ height_]; lia).
    f_equal. unfold pixel_at, Image_new. cbn [data_]. rewrite !at_repeat_zero. reflexivity.
  - destruct Ok as (_ & _ & _ & Hlen). cbn [Image_new width_ height_] in Hlen.
    unfold empty. destruct (data_ (Image_new w h)) as [|c t].
    + cbn [length] in Hlen. split; [intros _; nia | reflexivity].
    + cbn [length] in Hlen. split; [discriminate | intros [-> | ->]; lia].
Qed.

Lemma Image_new_zeroed_witness :
  Image_ok (Image_new 3 2) /\
  (forall x y, 0 <= x < 3 -> 0 <= y < 2 ->
               get_pixel (Image_new 3 2) x y = Some (rgba 0 0 0 0)) /\
  (empty (Image_new 3 2) = true <-> 3 = 0 \/ 2 = 0).
Proof. apply Image_new_zeroed; lia. Defined.

Lemma store_nat_app (pre l : list uint8_t) (j : nat) (v : uint8_t) :
  store_nat (pre ++ l) (length pre + j) v = pre ++ store_nat l j v.
Proof.
  induction pre as [|c pre IH]; [reflexivity|].
  cbn [app length Nat.add store_nat]. now rewrite IH.
Qed.

Lemma store_app (pre l : list uint8_t) (j : Z) (v : uint8_t) :
  0 <= j -> store (pre ++ l) (Z.of_nat (length pre) + j) v = pre ++ store l j v.
Proof.
  intros Hj. unfold store.
  replace (Z.to_nat (Z.of_nat (length pre) + j)) with (length pre + Z.to_nat j)%nat by lia.
  apply store_nat_app.
Qed.

(** The filling loop overwrites [n] groups of four bytes that follow the
    bytes already passed. *)
Lemma fill_loop_spec (p : Pixel) (n : nat) : forall pre d,
  length d = (4 * n)%nat ->
  fill_loop n (Z.of_nat (length pre)) p (pre ++ d)
  = pre ++ concat (repeat [r p; g p; b p; a p] n).
Proof.
  induction n as [|n IH]; intros pre d Hd.
  - destruct d; [reflexivity | discriminate].
  - destruct d as [|c0 [|c1 [|c2 [|c3 d']]]]; try (cbn [length] in Hd; lia).
    cbn [fill_loop]. cbv zeta.
    replace (store (pre ++ c0 :: c1 :: c2 :: c3 :: d') (Z.of_nat (length pre)) (r p))
      with (pre ++ store (c0 :: c1 :: c2 :: c3 :: d') 0 (r p))
      by (rewrite <- store_app by lia; f_equal; lia).
    rewrite !store_app by lia.
    change (store (store (store (store (c0 :: c1 :: c2 :: c3 :: d') 0 (r p)) 1 (g p)) 2 (b p))
                  3 (a p))
      with ([r p; g p; b p; a p] ++ d').
    rewrite app_assoc.
    replace (Z.of_nat (length pre) + 4) with (Z.of_nat (length (pre ++ [r p; g p; b p; a p])))
      by (rewrite length_app; cbn [length]; lia).
    rewrite IH by (cbn [length] in Hd; lia).
    rewrite <- app_assoc. reflexivity.
Qed.

(** X3 — [fill] turns an image that satisfies the buffer invariant into
    the image of the same dimensions whose every pixel is the given one;
    in particular a second [fill] erases the first. *)
Theorem fill_solid (img : Image) (p q : Pixel) :
  Image_ok img ->
  fill img p = solid_image (width_ img) (height_ img) p /\
  Image_ok (fill img p) /\
  (forall x y, 0 <= x < width_ img -> 0 <= y < height_ img ->
               get_pixel (fill img p) x y = Some p) /\
  fill (fill img q) p = fill img p.
Proof.
  intros Ok. pose proof Ok as (Bw & Bh & Bsz & Blen).
  assert (P : 0 <= width_ img * height_ img) by (apply Z.mul_nonneg_nonneg; lia).
  assert (Hfill : forall im, Image_ok im -> width_ im = width_ img -> height_ im = height_ img ->
                             fill im p = solid_image (width_ img) (height_ img) p).
  { intros im (_ & _ & _ & Hl) Ew Eh. unfold fill, solid_image. rewrite Ew, Eh. f_equal.
    rewrite Hl, Ew, Eh.
    replace ((width_ img * height_ img * 4 + 3) / 4) with (width_ img * height_ img)
      by (apply Z.div_unique with 3; lia).
    apply (fill_loop_spec p (Z.to_nat (width_ img * height_ img)) [] (data_ im)).
    apply Nat2Z.inj. rewrite Hl, Ew, Eh. lia. }
  assert (Oks : forall c, Image_ok (solid_image (width_ img) (height_ img) c)).
  { intros c. unfold Image_ok, solid_image. cbn [width_ height_ data_].
    repeat split; try lia.
    assert (Hc : forall n, length (concat (repeat [r c; g c; b c; a c] n)) = (4 * n)%nat).
    { induction n as [|n IHn]; [reflexivity|].
      cbn [repeat concat]. rewrite length_app, IHn. cbn [length]. lia. }
    rewrite Hc. lia. }
  rewrite (Hfill img Ok eq_refl eq_refl).
  split; [reflexivity|]. split; [apply Oks|]. split.
  - intros x y Hx Hy.
    rewrite get_pixel_inside by (cbn [solid_image width_ height_]; lia). f_equal.
    destruct (pixel_offset_inside (solid_image (width_ img) (height_ img) p) x y (Oks p))
      as (Eo & Ho0 & Ho3); try (cbn [solid_image width_ height_]; lia).
    unfold pixel_at. rewrite Eo. cbn [solid_image width_ height_ data_].
    set (k := y * width_ img + x).
    assert (Hk : 0 <= k < width_ img * height_ img).
    { unfold k.
      assert (0 <= y * width_ img) by (apply Z.mul_nonneg_nonneg; lia).
      assert (0 <= (height_ img - 1 - y) * width_ img) by (apply Z.mul_nonneg_nonneg; lia).
      lia. }
    assert (Hat : forall n j, 0 <= j < 4 -> (Z.to_nat k < n)%nat ->
              at_ (concat (repeat [r p; g p; b p; a p] n)) (k * 4 + j)
              = nth (Z.to_nat j) [r p; g p; b p; a p] Byte.x00).
    { intros n. generalize k (proj1 Hk). clear.
      induction n as [|n IHn]; intros k Hk0 j Hj Hlt; [lia|].
      cbn [repeat concat]. unfold at_.
      destruct (Z.eq_dec k 0) as [->|Hne].
      - cbn [Z.mul Z.add]. rewrite app_nth1 by (cbn [length]; lia). reflexivity.
      - rewrite app_nth2 by (cbn [length]; lia). cbn [length].
        replace (Z.to_nat (k * 4 + j) - 4)%nat with (Z.to_nat ((k - 1) * 4 + j)) by lia.
        apply (IHn (k - 1)); lia. }
    destruct p as [pr pg pb pa]. cbn [r g b a] in *.
    f_equal.
    + rewrite <- (Z.add_0_r (k * 4)). rewrite Hat by lia. reflexivity.
    + rewrite Hat by lia. reflexivity.
    + rewrite Hat by lia. reflexivity.
    + rewrite Hat by lia. reflexivity.
  - apply (Hfill (fill img q)).
    + unfold fill. unfold Image_ok. cbn [width_ height_ data_].
      assert (Hl : forall n i d, length (fill_loop n i q d) = length d).
      { induction n as [|n IHn]; intros i d; [reflexivity|].
        cbn [fill_loop]. rewrite IHn, !store_length. reflexivity. }
      rewrite Hl. repeat split; lia.
    + reflexivity.
    + reflexivity.
Qed.

Lemma fill_solid_witness :
  fill (Image_new 2 2) (rgba 9 8 7 6) = solid_image 2 2 (rgba 9 8 7 6) /\
  Image_ok (fill (Image_new 2 2) (rgba 9 8 7 6)) /\
  (forall x y, 0 <= x < 2 -> 0 <= y < 2 ->
               get_pixel (fill (Image_new 2 2) (rgba 9 8 7 6)) x y = Some (rgba 9 8 7 6)) /\
  fill (fill (Image_new 2 2) (rgba 1 1 1 1)) (rgba 9 8 7 6)
  = fill (Image_new 2 2) (rgba 9 8 7 6).
Proof.
  apply (fill_solid (Image_new 2 2) (rgba 9 8 7 6) (rgba 1 1 1 1)).
  apply Image_new_ok; lia.
Defined.

Lemma linear_index_range (w h x y : Z) :
  0 <= x < w -> 0 <= y < h -> 0 <= y * w /\ 0 <= y * w + x < w * h.
Proof.
  intros Hx Hy.
  assert (0 <= y * w) by (apply Z.mul_nonneg_nonneg; lia).
  assert (0 <= (h - 1 - y) * w) by (apply Z.mul_nonneg_nonneg; lia).
  lia.
Qed.

(** X4 — [from_bgra] never raises when the size does not wrap around; the
    image it builds satisfies the buffer invariant and its pixel at
    [(x, y)] is the source quadruple at offset [(y * width + x) * 4] with
    red and blue exchanged. *)
Theorem from_bgra_pixels (data : list uint8_t) (w h : Z) :
  0 <= w < 2 ^ 32 -> 0 <= h < 2 ^ 32 -> w * h * 4 < 2 ^ 32 ->
  exists img,
    from_bgra data w h = Some img /\
    Image_ok img /\ width_ img = w /\ height_ img = h /\
    forall x y, 0 <= x < w -> 0 <= y < h ->
                get_pixel img x y = Some (bgra_at data ((y * w + x) * 4)).
Proof.
  intros Hw Hh Hb. unfold from_bgra.
  destruct (paint_loops w h
              (fun x y img =>
                 let src_offset := wrap32 (wrap32 (wrap32 (y * w) + x) * 4) in
                 set_pixel img x y
                   (mkPixel (at_ data (src_offset + 2)) (at_ data (src_offset + 1))
                            (at_ data src_offset) (at_ data (src_offset + 3))))
              (fun x y => bgra_at data (wrap32 (wrap32 (wrap32 (y * w) + x) * 4))))
    as (out & E & Ok & Ew & Eh & Hpix); try assumption.
  { intros; reflexivity. }
  exists out. split; [exact E|]. split; [exact Ok|]. split; [exact Ew|]. split; [exact Eh|].
  intros x y Hx Hy. rewrite get_pixel_inside by lia. rewrite Hpix by lia.
  destruct (linear_index_range w h x y Hx Hy) as (H0 & H1).
  unfold wrap32. rewrite (Z.mod_small (y * w)) by lia.
  rewrite (Z.mod_small (y * w + x)) by lia. rewrite Z.mod_small by lia. reflexivity.
Qed.

Lemma from_bgra_pixels_witness :
  exists img,
    from_bgra [Byte.x01; Byte.x02; Byte.x03; Byte.x04] 1 1 = Some img /\
    Image_ok img /\ width_ img = 1 /\ height_ img = 1 /\
    forall x y, 0 <= x < 1 -> 0 <= y < 1 ->
                get_pixel img x y
                = Some (bgra_at [Byte.x01; Byte.x02; Byte.x03; Byte.x04] ((y * 1 + x) * 4)).
Proof. apply from_bgra_pixels; lia. Defined.

(** X5 — Applied to the bytes of an image, [from_bgra] exchanges red and
    blue of every pixel, and applied twice it gives the image back. *)
Theorem from_bgra_involutive (src : Image) :
  Image_ok src ->
  exists img1,
    from_bgra (data_ src) (width_ src) (height_ src) = Some img1 /\
    (forall x y, 0 <= x < width_ src -> 0 <= y < height_ src ->
                 get_pixel img1 x y = option_map swap_red_blue (get_pixel src x y)) /\
    from_bgra (data_ img1) (width_ src) (height_ src) = Some src.
Proof.
  intros Ok. pose proof Ok as (Bw & Bh & Bsz & Blen).
  destruct (from_bgra_pixels (data_ src) (width_ src) (height_ src) Bw Bh Bsz)
    as (img1 & E1 & Ok1 & Ew1 & Eh1 & Hp1).
  destruct (from_bgra_pixels (data_ img1) (width_ src) (height_ src) Bw Bh Bsz)
    as (img2 & E2 & Ok2 & Ew2 & Eh2 & Hp2).
  assert (Hsrc : forall im x y, Image_ok im -> width_ im = width_ src ->
                   0 <= x < width_ src -> 0 <= y < height_ im ->
                   bgra_at (data_ im) ((y * width_ src + x) * 4)
                   = swap_red_blue (pixel_at im x y)).
  { intros im x y Oki Ewi Hx Hy.
    destruct (pixel_offset_inside im x y Oki ltac:(lia) Hy) as (Eo & _ & _).
    unfold pixel_at. rewrite Eo, Ewi. reflexivity. }
  exists img1. split; [exact E1|]. split.
  - intros x y Hx Hy. rewrite Hp1 by lia.
    rewrite (get_pixel_inside src) by lia. cbn [option_map]. f_equal.
    apply Hsrc; first [assumption | reflexivity | lia].
  - rewrite E2. f_equal.
    assert (Ed : data_ img2 = data_ src).
    { apply data_ext; try assumption; try lia.
      intros x y Hx Hy.
      pose proof (Hp2 x y ltac:(lia) ltac:(lia)) as G2.
      rewrite get_pixel_inside in G2 by lia.
      assert (G2' : pixel_at img2 x y
                    = bgra_at (data_ img1) ((y * width_ src + x) * 4)) by congruence.
      rewrite G2'. rewrite Hsrc by (try assumption; lia).
      pose proof (Hp1 x y ltac:(lia) ltac:(lia)) as G1.
      rewrite get_pixel_inside in G1 by lia.
      assert (G1' : pixel_at img1 x y
                    = bgra_at (data_ src) ((y * width_ src + x) * 4)) by congruence.
      rewrite G1'. rewrite Hsrc by (try assumption; try reflexivity; lia).
      destruct (pixel_at src x y). reflexivity. }
    destruct img2 as [w2 h2 d2], src as [w0 h0 d0]. cbn [width_ height_ data_] in *.
    subst. reflexivity.
Qed.

Lemma from_bgra_involutive_witness :
  exists img1,
    from_bgra (data_ red_4x4) (width_ red_4x4) (height_ red_4x4) = Some img1 /\
    (forall x y, 0 <= x < width_ red_4x4 -> 0 <= y < height_ red_4x4 ->
                 get_pixel img1 x y = option_map swap_red_blue (get_pixel red_4x4 x y)) /\
    from_bgra (data_ img1) (width_ red_4x4) (height_ red_4x4) = Some red_4x4.
Proof. apply from_bgra_involutive. exact red_4x4_ok. Defined.

(** X6 — [from_rgb] never raises when the size does not wrap around; its
    pixel at [(x, y)] is the source triple at offset [(y * width + x) * 3]
    in the same order, and every pixel is opaque. *)
Theorem from_rgb_pixels (data : list uint8_t) (w h : Z) :
  0 <= w < 2 ^ 32 -> 0 <= h < 2 ^ 32 -> w * h * 4 < 2 ^ 32 ->
  exists img,
    from_rgb data w h = Some img /\
    Image_ok img /\ width_ img = w /\ height_ img = h /\
    forall x y, 0 <= x < w -> 0 <= y < h ->
                get_pixel img x y = Some (rgb_at data ((y * w + x) * 3)) /\
                a (rgb_at data ((y * w + x) * 3)) = u8_of_Z 255.
Proof.
  intros Hw Hh Hb. unfold from_rgb.
  destruct (paint_loops w h
              (fun x y img =>
                 let src_offset := wrap32 (wrap32 (wrap32 (y * w) + x) * 3) in
                 set_pixel img x y
                   (mkPixel (at_ data src_offset) (at_ data (src_offset + 1))
                            (at_ data (src_offset + 2)) (u8_of_Z 255)))
              (fun x y => rgb_at data (wrap32 (wrap32 (wrap32 (y * w) + x) * 3))))
    as (out & E & Ok & Ew & Eh & Hpix); try assumption.
  { intros; reflexivity. }
  exists out. split; [exact E|]. split; [exact Ok|]. split; [exact Ew|]. split; [exact Eh|].
  intros x y Hx Hy. split; [|reflexivity].
  rewrite get_pixel_inside by lia. rewrite Hpix by lia.
  destruct (linear_index_range w h x y Hx Hy) as (H0 & H1).
  unfold wrap32. rewrite (Z.mod_small (y * w)) by lia.
  rewrite (Z.mod_small (y * w + x)) by lia. rewrite Z.mod_small by lia. reflexivity.
Qed.

Lemma from_rgb_pixels_witness :
  exists img,
    from_rgb [Byte.x01; Byte.x02; Byte.x03] 1 1 = Some img /\
    Image_ok img /\ width_ img = 1 /\ height_ img = 1 /\
    forall x y, 0 <= x < 1 -> 0 <= y < 1 ->
                get_pixel img x y = Some (rgb_at [Byte.x01; Byte.x02; Byte.x03] ((y * 1 + x) * 3)) /\
                a (rgb_at [Byte.x01; Byte.x02; Byte.x03] ((y * 1 + x) * 3)) = u8_of_Z 255.
Proof. apply from_rgb_pixels; lia. Defined.

(* ================================================================== *)
(** * Further properties of the comparison engine ([compare.cpp]) *)
(* ================================================================== *)

Lemma pixel_pairs_In (img1 img2 : Image) (pp : Pixel * Pixel) :
  In pp (pixel_pairs img1 img2) <->
  exists x y, 0 <= x < width_ img1 /\ 0 <= y < height_ img1 /\
              pp = (pixel_at img1 x y, pixel_at img2 x y).
Proof.
  unfold pixel_pairs. rewrite in_map_iff. split.
  - intros ([x y] & E & Hin). apply positions_In in Hin. cbn [fst snd] in E.
    exists x, y. repeat split; try lia. now symmetry.
  - intros (x & y & Hx & Hy & ->). exists (x, y). split; [reflexivity|].
    apply positions_In. lia.
Qed.

Lemma u8_to_Z_inj (x y : uint8_t) : u8_to_Z x = u8_to_Z y -> x = y.
Proof. intros E. rewrite <- (u8_of_to_Z x), <- (u8_of_to_Z y), E. reflexivity. Qed.

Lemma channel_diff_zero (x y : uint8_t) : channel_diff x y = 0 <-> x = y.
Proof.
  split; [|intros ->; apply channel_diff_same].
  unfold channel_diff. intros E. apply u8_to_Z_inj. lia.
Qed.

Lemma channel_diff_sym (x y : uint8_t) : channel_diff x y = channel_diff y x.
Proof. unfold channel_diff. lia. Qed.

Lemma pixel_max_diff_zero (p1 p2 : Pixel) : pixel_max_diff (p1, p2) = 0 <-> p1 = p2.
Proof.
  rewrite <- pixel_max_diff_max4. unfold max4.
  pose proof (channel_diff_range (r p1) (r p2)).
  pose proof (channel_diff_range (g p1) (g p2)).
  pose proof (channel_diff_range (b p1) (b p2)).
  pose proof (channel_diff_range (a p1) (a p2)).
  split.
  - intros E.
    assert (Er : channel_diff (r p1) (r p2) = 0) by lia.
    assert (Eg : channel_diff (g p1) (g p2) = 0) by lia.
    assert (Eb : channel_diff (b p1) (b p2) = 0) by lia.
    assert (Ea : channel_diff (a p1) (a p2) = 0) by lia.
    apply channel_diff_zero in Er, Eg, Eb, Ea.
    destruct p1, p2. cbn [r g b a] in *. congruence.
  - intros ->. rewrite !channel_diff_same. reflexivity.
Qed.

Lemma count_different_zero (tolerance : Z) (l : list (Pixel * Pixel)) :
  count_different tolerance l = 0 <-> forall pp, In pp l -> is_different tolerance pp = false.
Proof.
  induction l as [|pp l IH].
  - split; [intros _ pp [] | reflexivity].
  - rewrite count_different_cons. pose proof (count_different_range tolerance l) as Hr.
    split.
    + intros E pp' [<-|Hin].
      * destruct (is_different tolerance pp); [lia | reflexivity].
      * apply IH; [destruct (is_different tolerance pp); lia | exact Hin].
    + intros Hall. rewrite (Hall pp (or_introl eq_refl)).
      rewrite (proj2 IH); [reflexivity|]. intros pp' Hin. apply Hall. now right.
Qed.

Lemma count_different_all (tolerance : Z) (l : list (Pixel * Pixel)) :
  (forall pp, In pp l -> is_different tolerance pp = true) ->
  count_different tolerance l = Z.of_nat (length l).
Proof.
  induction l as [|pp l IH]; intros Hall; [reflexivity|].
  rewrite count_different_cons, (Hall pp (or_introl eq_refl)), IH.
  - cbn [length]. lia.
  - intros pp' Hin. apply Hall. now right.
Qed.

(** Two images that satisfy the buffer invariant and have a zero dimension
    are both empty. *)
Lemma empty_true (img : Image) :
  Image_ok img -> width_ img = 0 \/ height_ img = 0 -> empty img = true.
Proof.
  intros (Hw & Hh & Hb & Hl) Hz. unfold empty.
  destruct (data_ img); [reflexivity|]. cbn [length] in Hl. destruct Hz as [E|E]; rewrite E in Hl; lia.
Qed.

(** X7 — Reflexivity: every image, compared with itself under a tolerance
    of at least 0, matches with no different pixel and a maximal channel
    difference of 0. *)
Theorem fuzzy_reflexive (img : Image) (tolerance : Z) :
  0 <= tolerance ->
  exists res,
    fuzzy img img tolerance = Some res /\
    match_ res = true /\ different_pixels res = 0 /\ max_channel_diff res = dzero.
Proof.
  intros Ht. unfold fuzzy. rewrite !Z.eqb_refl. cbn [negb orb].
  destruct (empty img) eqn:Ee; cbn [orb andb].
  - eexists. repeat split; reflexivity.
  - rewrite fuzzy_loops_fold by reflexivity. cbn [bind].
    set (step := fun s pp => fuzzy_pixel tolerance (fst pp) (snd pp) s).
    assert (Hfold : forall l s,
               (forall pp, In pp l -> fst pp = snd pp) ->
               acc_different s = 0 -> acc_max s = dzero ->
               acc_different (fold_left step l s) = 0 /\ acc_max (fold_left step l s) = dzero).
    { induction l as [|[p1 p2] l IH]; intros s Hall Hd Hm; [auto|].
      cbn [fold_left]. apply IH.
      - intros pp Hin. apply Hall. now right.
      - pose proof (Hall (p1, p2) (or_introl eq_refl)) as E. cbn [fst snd] in E. subst p2.
        unfold step. cbv beta delta [fuzzy_pixel] zeta. cbn [acc_different fst snd].
        rewrite !channel_diff_same.
        destruct (Z.gtb_spec (max4 0 0 0 0) tolerance) as [G|G]; [cbn in G; lia | exact Hd].
      - pose proof (Hall (p1, p2) (or_introl eq_refl)) as E. cbn [fst snd] in E. subst p2.
        unfold step. cbv beta delta [fuzzy_pixel] zeta. cbn [acc_max fst snd].
        rewrite !channel_diff_same, Hm. reflexivity. }
    destruct (Hfold (pixel_pairs img img) (mkAcc 0 dzero dzero 0)) as (Hd & Hm);
      try reflexivity.
    { intros pp Hin. apply pixel_pairs_In in Hin. destruct Hin as (x & y & _ & _ & ->).
      reflexivity. }
    eexists. split; [reflexivity|].
    cbn [match_ different_pixels max_channel_diff]. rewrite Hd, Hm. repeat split.
Qed.

Lemma fuzzy_reflexive_witness :
  exists res,
    fuzzy red_4x4 red_4x4 3 = Some res /\
    match_ res = true /\ different_pixels res = 0 /\ max_channel_diff res = dzero.
Proof. apply fuzzy_reflexive. lia. Defined.

(** X8 — For images of equal dimensions that satisfy the buffer invariant,
    exact comparison matches if and only if the two buffers hold the same
    bytes. *)
Theorem exact_match_iff_identical (img1 img2 : Image) :
  Image_ok img1 -> Image_ok img2 ->
  width_ img1 = width_ img2 -> height_ img1 = height_ img2 ->
  (option_map match_ (exact img1 img2) = Some true <-> data_ img1 = data_ img2).
Proof.
  intros Ok1 Ok2 Ew Eh.
  pose proof Ok1 as (Bw & Bh & _ & _).
  destruct (Z.eq_dec (width_ img1) 0) as [Zw|Nw];
    [|destruct (Z.eq_dec (height_ img1) 0) as [Zh|Nh]].
  1,2: assert (E1 : empty img1 = true) by (apply empty_true; auto);
       assert (E2 : empty img2 = true) by (apply empty_true; [auto | lia]);
       unfold exact, fuzzy; rewrite Ew, Eh, !Z.eqb_refl, E1, E2; cbn;
       unfold empty in E1, E2;
       destruct (data_ img1), (data_ img2); try discriminate; split; reflexivity.
  unfold exact. rewrite fuzzy_refines by (try assumption; lia).
  cbn [option_map spec_fuzzy match_]. split.
  - intros E. assert (E0 : count_different 0 (pixel_pairs img1 img2) = 0).
    { injection E as E. now apply Z.eqb_eq. }
    apply data_ext; try assumption.
    intros x y Hx Hy. apply pixel_max_diff_zero.
    pose proof (proj1 (count_different_zero 0 _) E0
                      (pixel_at img1 x y, pixel_at img2 x y)) as Hnd.
    unfold is_different in Hnd.
    pose proof (pixel_max_diff_range (pixel_at img1 x y, pixel_at img2 x y)).
    assert (Hin : In (pixel_at img1 x y, pixel_at img2 x y) (pixel_pairs img1 img2)).
    { apply pixel_pairs_In. exists x, y. auto. }
    specialize (Hnd Hin). apply Z.ltb_ge in Hnd. lia.
  - intros Ed. f_equal. apply Z.eqb_eq. apply count_different_zero.
    intros pp Hin. apply pixel_pairs_In in Hin. destruct Hin as (x & y & Hx & Hy & ->).
    unfold is_different. apply Z.ltb_ge.
    assert (Ep : pixel_at img1 x y = pixel_at img2 x y).
    { unfold pixel_at, pixel_offset. rewrite Ed, Ew. reflexivity. }
    rewrite (proj2 (pixel_max_diff_zero _ _) Ep). lia.
Qed.

Lemma exact_match_iff_identical_witness :
  option_map match_ (exact black_1x1 white_1x1) = Some true <->
  data_ black_1x1 = data_ white_1x1.
Proof.
  apply exact_match_iff_identical;
    [exact black_1x1_ok | exact white_1x1_ok | reflexivity | reflexivity].
Defined.

Lemma channel_diffs_swap (p1 p2 : Pixel) : channel_diffs (p2, p1) = channel_diffs (p1, p2).
Proof.
  unfold channel_diffs. cbn [fst snd].
  now rewrite (channel_diff_sym (r p2)), (channel_diff_sym (g p2)),
    (channel_diff_sym (b p2)), (channel_diff_sym (a p2)).
Qed.

Lemma pixel_pairs_swap (img1 img2 : Image) :
  width_ img1 = width_ img2 -> height_ img1 = height_ img2 ->
  pixel_pairs img2 img1 = map (fun pp => (snd pp, fst pp)) (pixel_pairs img1 img2).
Proof.
  intros Ew Eh. unfold pixel_pairs. rewrite map_map, <- Ew, <- Eh. reflexivity.
Qed.

Lemma count_different_swap (tolerance : Z) (l : list (Pixel * Pixel)) :
  count_different tolerance (map (fun pp => (snd pp, fst pp)) l)
  = count_different tolerance l.
Proof.
  induction l as [|[p1 p2] l IH]; [reflexivity|].
  cbn [map fst snd]. rewrite !count_different_cons, IH.
  unfold is_different, pixel_max_diff. rewrite channel_diffs_swap. reflexivity.
Qed.

Lemma all_channel_diffs_swap (l : list (Pixel * Pixel)) :
  all_channel_diffs (map (fun pp => (snd pp, fst pp)) l) = all_channel_diffs l.
Proof.
  induction l as [|[p1 p2] l IH]; [reflexivity|].
  unfold all_channel_diffs in *. cbn [map flat_map fst snd].
  rewrite IH, channel_diffs_swap. reflexivity.
Qed.

Lemma spec_fuzzy_sym (img1 img2 : Image) (tolerance : Z) :
  width_ img1 = width_ img2 -> height_ img1 = height_ img2 ->
  spec_fuzzy img2 img1 tolerance = spec_fuzzy img1 img2 tolerance.
Proof.
  intros Ew Eh. unfold spec_fuzzy.
  rewrite (pixel_pairs_swap img1 img2 Ew Eh), <- Ew, <- Eh.
  rewrite count_different_swap, all_channel_diffs_swap. reflexivity.
Qed.

(** X9 — Symmetry: for images of equal dimensions that satisfy the buffer
    invariant, comparing in either order gives the same result, message
    included. *)
Theorem fuzzy_symmetric (img1 img2 : Image) (tolerance : Z) :
  Image_ok img1 -> Image_ok img2 ->
  width_ img1 = width_ img2 -> height_ img1 = height_ img2 ->
  fuzzy img2 img1 tolerance = fuzzy img1 img2 tolerance.
Proof.
  intros Ok1 Ok2 Ew Eh.
  pose proof Ok1 as (Bw & Bh & _ & _).
  destruct (Z.eq_dec (width_ img1) 0) as [Zw|Nw];
    [|destruct (Z.eq_dec (height_ img1) 0) as [Zh|Nh]].
  1,2: assert (E1 : empty img1 = true) by (apply empty_true; auto);
       assert (E2 : empty img2 = true) by (apply empty_true; [auto | lia]);
       unfold fuzzy; rewrite Ew, Eh, !Z.eqb_refl, E1, E2; reflexivity.
  rewrite (fuzzy_refines img1 img2) by (try assumption; lia).
  rewrite (fuzzy_refines img2 img1) by (try assumption; lia).
  f_equal. now apply spec_fuzzy_sym.
Qed.

Lemma fuzzy_symmetric_witness :
  fuzzy white_1x1 black_1x1 7 = fuzzy black_1x1 white_1x1 7.
Proof.
  apply fuzzy_symmetric;
    [exact black_1x1_ok | exact white_1x1_ok | reflexivity | reflexivity].
Defined.

(** X10 — For non-empty images of equal dimensions that satisfy the buffer
    invariant, [different_pixels] lies between 0 and [total_pixels], which
    is [width * height]; a negative tolerance counts every pixel and fails
    the match; a tolerance of 255 or more counts none and matches. *)
Theorem fuzzy_tolerance_extremes (img1 img2 : Image) (tolerance : Z) :
  Image_ok img1 -> Image_ok img2 ->
  width_ img1 = width_ img2 -> height_ img1 = height_ img2 ->
  0 < width_ img1 -> 0 < height_ img1 ->
  exists res,
    fuzzy img1 img2 tolerance = Some res /\
    total_pixels res = width_ img1 * height_ img1 /\
    0 <= different_pixels res <= total_pixels res /\
    (tolerance < 0 -> different_pixels res = total_pixels res /\ match_ res = false) /\
    (255 <= tolerance -> different_pixels res = 0 /\ match_ res = true).
Proof.
  intros Ok1 Ok2 Ew Eh Hw Hh.
  exists (spec_fuzzy img1 img2 tolerance).
  split; [now apply fuzzy_refines|].
  pose proof Ok1 as (Bw & Bh & _ & _).
  pose proof (pixel_pairs_length img1 img2 ltac:(lia) ltac:(lia)) as Hlen.
  pose proof (count_different_range tolerance (pixel_pairs img1 img2)) as Hr.
  cbn [spec_fuzzy total_pixels different_pixels match_].
  split; [reflexivity|]. split; [lia|]. split.
  - intros Ht.
    assert (E : count_different tolerance (pixel_pairs img1 img2)
                = width_ img1 * height_ img1).
    { rewrite <- Hlen. apply count_different_all. intros pp _.
      unfold is_different. apply Z.ltb_lt.
      pose proof (pixel_max_diff_range pp). lia. }
    split; [exact E|]. rewrite E. apply Z.eqb_neq. nia.
  - intros Ht.
    assert (E : count_different tolerance (pixel_pairs img1 img2) = 0).
    { apply count_different_zero. intros pp _.
      unfold is_different. apply Z.ltb_ge.
      pose proof (pixel_max_diff_range pp). lia. }
    rewrite E. split; reflexivity.
Qed.

Lemma fuzzy_tolerance_extremes_witness :
  exists res,
    fuzzy black_1x1 white_1x1 (-1) = Some res /\
    total_pixels res = width_ black_1x1 * height_ black_1x1 /\
    0 <= different_pixels res <= total_pixels res /\
    (-1 < 0 -> different_pixels res = total_pixels res /\ match_ res = false) /\
    (255 <= -1 -> different_pixels res = 0 /\ match_ res = true).
Proof.
  apply fuzzy_tolerance_extremes;
    [exact black_1x1_ok | exact white_1x1_ok | reflexivity | reflexivity
     | by_evaluation | by_evaluation].
Defined.




(* ================================================================== *)
(** * Further properties of the diff renderer ([compare.cpp]) *)
(* ================================================================== *)

Lemma spec_diff_pixel_opaque (img1 img2 : Image) (tolerance x y : Z) :
  a (spec_diff_pixel img1 img2 tolerance x y) = u8_of_Z 255.
Proof.
  unfold spec_diff_pixel.
  destruct ((x <? width_ img1) && (y <? height_ img1)),
    ((x <? width_ img2) && (y <? height_ img2)); try reflexivity.
  destruct (tolerance <? _); reflexivity.
Qed.

Lemma u8_of_Z_inj (v1 v2 : Z) :
  0 <= v1 <= 255 -> 0 <= v2 <= 255 -> u8_of_Z v1 = u8_of_Z v2 -> v1 = v2.
Proof.
  intros H1 H2 E. apply (f_equal u8_to_Z) in E.
  now rewrite !u8_to_of_Z_small in E by assumption.
Qed.

(** Where both images have the pixel, the red channel of the diff is 255
    exactly when the pixel counts as different. *)
Lemma spec_diff_pixel_red (img1 img2 : Image) (tolerance x y : Z) :
  x < width_ img1 -> y < height_ img1 -> x < width_ img2 -> y < height_ img2 ->
  (r (spec_diff_pixel img1 img2 tolerance x y) = u8_of_Z 255 <->
   is_different tolerance (pixel_at img1 x y, pixel_at img2 x y) = true).
Proof.
  intros H1 H2 H3 H4. unfold spec_diff_pixel, is_different.
  destruct (Z.ltb_spec x (width_ img1)); [|lia].
  destruct (Z.ltb_spec y (height_ img1)); [|lia].
  destruct (Z.ltb_spec x (width_ img2)); [|lia].
  destruct (Z.ltb_spec y (height_ img2)); [|lia].
  cbn [andb].
  destruct (tolerance <? pixel_max_diff (pixel_at img1 x y, pixel_at img2 x y)).
  - split; reflexivity.
  - split; [|discriminate]. unfold rgba. cbn [r]. intros E. exfalso.
    pose proof (u8_to_Z_range (r (pixel_at img1 x y))) as Hr.
    assert (Hh : 0 <= u8_to_Z (r (pixel_at img1 x y)) / 2 <= 127).
    { split; [apply Z.div_pos; lia | apply Z.lt_succ_r, Z.div_lt_upper_bound; lia]. }
    apply u8_of_Z_inj in E; lia.
Qed.

(** X12 — Every pixel of a non-degenerate diff canvas is opaque. *)
Theorem generate_diff_opaque (img1 img2 : Image) (tolerance : Z) :
  Image_ok img1 -> Image_ok img2 ->
  0 < Z.max (width_ img1) (width_ img2) -> 0 < Z.max (height_ img1) (height_ img2) ->
  Z.max (width_ img1) (width_ img2) * Z.max (height_ img1) (height_ img2) * 4 < 2 ^ 32 ->
  exists diff,
    generate_diff img1 img2 tolerance = Some diff /\
    forall x y, 0 <= x < width_ diff -> 0 <= y < height_ diff ->
                exists p, get_pixel diff x y = Some p /\ a p = u8_of_Z 255.
Proof.
  intros Ok1 Ok2 Hw Hh Hb.
  destruct (generate_diff_canvas img1 img2 tolerance Ok1 Ok2 Hw Hh Hb)
    as (diff & E & _ & _ & _ & Hpix).
  exists diff. split; [exact E|].
  intros x y Hx Hy. eexists. split; [apply Hpix; assumption|].
  apply spec_diff_pixel_opaque.
Qed.

Lemma generate_diff_opaque_witness :
  exists diff,
    generate_diff black_1x1 red_4x4 0 = Some diff /\
    forall x y, 0 <= x < width_ diff -> 0 <= y < height_ diff ->
                exists p, get_pixel diff x y = Some p /\ a p = u8_of_Z 255.
Proof.
  apply generate_diff_opaque;
    [exact black_1x1_ok | exact red_4x4_ok | by_evaluation | by_evaluation | by_evaluation].
Defined.

(** X13 — For non-empty images of equal dimensions the diff marks exactly
    the pixels [fuzzy] counts: the red channel of a diff pixel is 255 iff
    the pixel is different at that tolerance, and [fuzzy] matches iff no
    diff pixel has red 255. *)
Theorem generate_diff_marks_differences (img1 img2 : Image) (tolerance : Z) :
  Image_ok img1 -> Image_ok img2 ->
  width_ img1 = width_ img2 -> height_ img1 = height_ img2 ->
  0 < width_ img1 -> 0 < height_ img1 ->
  exists diff res,
    generate_diff img1 img2 tolerance = Some diff /\
    fuzzy img1 img2 tolerance = Some res /\
    (forall x y, 0 <= x < width_ img1 -> 0 <= y < height_ img1 ->
       exists p, get_pixel diff x y = Some p /\
                 (r p = u8_of_Z 255 <->
                  is_different tolerance (pixel_at img1 x y, pixel_at img2 x y) = true)) /\
    (match_ res = true <->
     forall x y p, 0 <= x < width_ img1 -> 0 <= y < height_ img1 ->
                   get_pixel diff x y = Some p -> r p <> u8_of_Z 255).
Proof.
  intros Ok1 Ok2 Ew Eh Hw Hh.
  pose proof Ok1 as (Bw & Bh & Bsz & _).
  assert (Mw : Z.max (width_ img1) (width_ img2) = width_ img1) by lia.
  assert (Mh : Z.max (height_ img1) (height_ img2) = height_ img1) by lia.
  destruct (generate_diff_canvas img1 img2 tolerance Ok1 Ok2)
    as (diff & E & _ & Dw & Dh & Hpix); try (rewrite ?Mw, ?Mh; lia).
  rewrite Mw in Dw. rewrite Mh in Dh. rewrite Dw, Dh in Hpix.
  exists diff, (spec_fuzzy img1 img2 tolerance).
  split; [exact E|]. split; [now apply fuzzy_refines|]. split.
  - intros x y Hx Hy. eexists. split; [apply Hpix; assumption|].
    apply spec_diff_pixel_red; lia.
  - cbn [spec_fuzzy match_]. rewrite Z.eqb_eq, count_different_zero. split.
    + intros Hall x y p Hx Hy Hp. rewrite Hpix in Hp by assumption.
      injection Hp as <-. intros Hr.
      apply spec_diff_pixel_red in Hr; try lia.
      rewrite Hall in Hr; [discriminate|].
      apply pixel_pairs_In. exists x, y. auto.
    + intros Hall pp Hin. apply pixel_pairs_In in Hin.
      destruct Hin as (x & y & Hx & Hy & ->).
      destruct (is_different tolerance (pixel_at img1 x y, pixel_at img2 x y)) eqn:Ed;
        [exfalso|reflexivity].
      apply (Hall x y _ Hx Hy (Hpix x y Hx Hy)).
      apply spec_diff_pixel_red; try lia. exact Ed.
Qed.

Lemma generate_diff_marks_differences_witness :
  exists diff res,
    generate_diff black_1x1 white_1x1 0 = Some diff /\
    fuzzy black_1x1 white_1x1 0 = Some res /\
    (forall x y, 0 <= x < width_ black_1x1 -> 0 <= y < height_ black_1x1 ->
       exists p, get_pixel diff x y = Some p /\
                 (r p = u8_of_Z 255 <->
                  is_different 0 (pixel_at black_1x1 x y, pixel_at white_1x1 x y) = true)) /\
    (match_ res = true <->
     forall x y p, 0 <= x < width_ black_1x1 -> 0 <= y < height_ black_1x1 ->
                   get_pixel diff x y = Some p -> r p <> u8_of_Z 255).
Proof.
  apply generate_diff_marks_differences;
    [exact black_1x1_ok | exact white_1x1_ok | reflexivity | reflexivity
     | by_evaluation | by_evaluation].
Defined.

(** X14 — The diff of a non-empty image with itself, at a tolerance of at
    least 0, is the image darkened: every colour channel halved, alpha
    255. *)
Theorem generate_diff_self (img : Image) (tolerance : Z) :
  Image_ok img -> 0 < width_ img -> 0 < height_ img -> 0 <= tolerance ->
  exists diff,
    generate_diff img img tolerance = Some diff /\
    width_ diff = width_ img /\ height_ diff = height_ img /\
    forall x y, 0 <= x < width_ img -> 0 <= y < height_ img ->
      get_pixel diff x y
      = Some (rgba (u8_to_Z (r (pixel_at img x y)) / 2) (u8_to_Z (g (pixel_at img x y)) / 2)
                   (u8_to_Z (b (pixel_at img x y)) / 2) 255).
Proof.
  intros Ok Hw Hh Ht. pose proof Ok as (Bw & Bh & Bsz & _).
  assert (Mw : Z.max (width_ img) (width_ img) = width_ img) by lia.
  assert (Mh : Z.max (height_ img) (height_ img) = height_ img) by lia.
  destruct (generate_diff_canvas img img tolerance Ok Ok)
    as (diff & E & _ & Dw & Dh & Hpix); try (rewrite ?Mw, ?Mh; lia).
  rewrite Mw in Dw. rewrite Mh in Dh. rewrite Dw, Dh in Hpix.
  exists diff. split; [exact E|]. split; [exact Dw|]. split; [exact Dh|].
  intros x y Hx Hy. rewrite Hpix by assumption. f_equal.
  unfold spec_diff_pixel.
  destruct (Z.ltb_spec x (width_ img)); [|lia].
  destruct (Z.ltb_spec y (height_ img)); [|lia]. cbn [andb].
  rewrite (proj2 (pixel_max_diff_zero _ _) eq_refl).
  destruct (Z.ltb_spec tolerance 0); [lia | reflexivity].
Qed.

Lemma generate_diff_self_witness :
  exists diff,
    generate_diff red_4x4 red_4x4 0 = Some diff /\
    width_ diff = width_ red_4x4 /\ height_ diff = height_ red_4x4 /\
    forall x y, 0 <= x < width_ red_4x4 -> 0 <= y < height_ red_4x4 ->
      get_pixel diff x y
      = Some (rgba (u8_to_Z (r (pixel_at red_4x4 x y)) / 2)
                   (u8_to_Z (g (pixel_at red_4x4 x y)) / 2)
                   (u8_to_Z (b (pixel_at red_4x4 x y)) / 2) 255).
Proof.
  apply generate_diff_self; [exact red_4x4_ok | by_evaluation | by_evaluation | lia].
Defined.

(* ================================================================== *)
(** * Further properties of the normaliser ([capture.cpp]) *)
(* ================================================================== *)

Lemma lowest_set_bit_unique (mask s : Z) :
  0 < mask -> 0 <= s -> Z.testbit mask s = true ->
  (forall i, 0 <= i < s -> Z.testbit mask i = false) ->
  lowest_set_bit mask = s.
Proof.
  intros Hm Hs Hset Hbelow. destruct mask as [|p|p]; try lia. cbn [lowest_set_bit].
  destruct (pos_ctz_spec p) as (Cset & Cbelow). pose proof (pos_ctz_nonneg p) as Hc.
  destruct (Z.lt_trichotomy (pos_ctz p) s) as [Hlt|[Heq|Hgt]]; [|exact Heq|].
  - rewrite Hbelow in Cset by lia. discriminate.
  - rewrite Cbelow in Hset by lia. discriminate.
Qed.

Lemma round_div_mono (n1 n2 d : Z) : 0 < d -> n1 <= n2 -> round_div n1 d <= round_div n2 d.
Proof. intros Hd Hn. unfold round_div. apply Z.div_le_mono; lia. Qed.

Lemma shiftr_mono (x y s : Z) : 0 <= s -> x <= y -> Z.shiftr x s <= Z.shiftr y s.
Proof.
  intros Hs Hxy. rewrite !Z.shiftr_div_pow2 by lia.
  apply Z.div_le_mono; [apply Z.pow_pos_nonneg; lia | exact Hxy].
Qed.

Lemma lowest_set_bit_nonneg (mask : Z) : 0 <= lowest_set_bit mask.
Proof. destruct mask; cbn [lowest_set_bit]; try lia. apply pos_ctz_nonneg. Qed.

(** X15 — [extract_channel] depends on the pixel only through the bits
    under the mask; for a non-zero mask that fits in 32 bits it sends a
    pixel with no masked bit set to 0, a pixel with every masked bit set
    to 255, and it is monotone in the masked bits. *)
Theorem extract_channel_masked_monotone (pixel1 pixel2 mask : Z) :
  extract_channel (Z.land pixel1 mask) mask = extract_channel pixel1 mask /\
  (0 < mask < 2 ^ 32 ->
   (Z.land pixel1 mask = 0 -> u8_to_Z (extract_channel pixel1 mask) = 0) /\
   (Z.land pixel1 mask = mask -> u8_to_Z (extract_channel pixel1 mask) = 255) /\
   (Z.land pixel1 mask <= Z.land pixel2 mask ->
    u8_to_Z (extract_channel pixel1 mask) <= u8_to_Z (extract_channel pixel2 mask))).
Proof.
  split.
  - unfold extract_channel.
    rewrite <- Z.land_assoc, Z.land_diag. reflexivity.
  - intros Hm.
    destruct (extract_channel_value pixel1 mask Hm) as (_ & _ & Hv1 & Hsm & Hr1 & _).
    destruct (extract_channel_value pixel2 mask Hm) as (_ & _ & Hv2 & _ & Hr2 & _).
    pose proof (lowest_set_bit_nonneg mask) as Hs.
    rewrite Hr1, Hr2. split; [|split].
    + intros ->. rewrite Z.shiftr_0_l. unfold round_div.
      apply Z.div_small. lia.
    + intros ->. unfold round_div. symmetry.
      apply Z.div_unique with (Z.shiftr mask (lowest_set_bit mask)); lia.
    + intros Hle. apply round_div_mono; [lia|].
      apply Z.mul_le_mono_nonneg_r; [lia|]. apply shiftr_mono; assumption.
Qed.

Lemma extract_channel_masked_monotone_witness :
  u8_to_Z (extract_channel 0x0400 0x07E0) <= u8_to_Z (extract_channel 0x0420 0x07E0).
Proof.
  apply (proj2 (proj2 (proj2 (extract_channel_masked_monotone 0x0400 0x0420 0x07E0)
                         ltac:(lia)))).
  by_evaluation.
Defined.

(** X16 — Under a mask of eight contiguous bits at bit [s] the rescale is
    the identity: the channel is the byte of the pixel at that position. *)
Theorem extract_channel_byte (pixel s : Z) :
  0 <= s <= 24 ->
  u8_to_Z (extract_channel pixel (Z.shiftl 255 s)) = Z.land (Z.shiftr pixel s) 255.
Proof.
  intros Hs.
  assert (Hp : 0 < 2 ^ s <= 2 ^ 24)
    by (split; [apply Z.pow_pos_nonneg; lia | apply Z.pow_le_mono_r; lia]).
  assert (Hm : 0 < Z.shiftl 255 s < 2 ^ 32) by (rewrite Z.shiftl_mul_pow2 by lia; lia).
  assert (Hl : lowest_set_bit (Z.shiftl 255 s) = s).
  { apply lowest_set_bit_unique; try lia.
    - rewrite Z.shiftl_spec, Z.sub_diag by lia. reflexivity.
    - intros i Hi. apply Z.shiftl_spec_low. lia. }
  destruct (extract_channel_value pixel (Z.shiftl 255 s) Hm) as (_ & _ & _ & _ & Hr & _).
  rewrite Hr, Hl.
  rewrite Z.shiftr_land, Z.shiftr_shiftl_l, Z.sub_diag, Z.shiftl_0_r by lia.
  assert (Hv : 0 <= Z.land (Z.shiftr pixel s) 255).
  { apply Z.land_nonneg. right. lia. }
  unfold round_div. symmetry. apply Z.div_unique with 255; lia.
Qed.

Lemma extract_channel_byte_witness :
  u8_to_Z (extract_channel 0x00FF8040 (Z.shiftl 255 8)) = Z.land (Z.shiftr 0x00FF8040 8) 255.
Proof. apply extract_channel_byte. lia. Defined.

(** X17 — The normaliser never raises on a frame whose buffer size does
    not wrap around; its output has the frame's dimensions and satisfies
    the buffer invariant, and it is empty exactly when the frame has a
    zero dimension. *)
Theorem ximage_to_image_shape (xi : XImage) :
  wrap32 (xi_width xi) * wrap32 (xi_height xi) * 4 < 2 ^ 32 ->
  exists img,
    ximage_to_image (Some xi) = Some img /\
    Image_ok img /\
    width_ img = wrap32 (xi_width xi) /\ height_ img = wrap32 (xi_height xi) /\
    (empty img = true <-> wrap32 (xi_width xi) = 0 \/ wrap32 (xi_height xi) = 0).
Proof.
  intros Hb.
  destruct (ximage_to_image_pixels xi Hb) as (img & E & Ok & Ew & Eh & _).
  exists img. split; [exact E|]. split; [exact Ok|]. split; [exact Ew|]. split; [exact Eh|].
  rewrite <- Ew, <- Eh. split.
  - intros He. pose proof Ok as (Bw & Bh & _ & Hl).
    unfold empty in He. destruct (data_ img); [|discriminate].
    cbn [length] in Hl. nia.
  - apply empty_true. exact Ok.
Qed.

Lemma ximage_to_image_shape_witness :
  exists img,
    ximage_to_image (Some frame_rgb565_red) = Some img /\
    Image_ok img /\
    width_ img = wrap32 (xi_width frame_rgb565_red) /\
    height_ img = wrap32 (xi_height frame_rgb565_red) /\
    (empty img = true <->
     wrap32 (xi_width frame_rgb565_red) = 0 \/ wrap32 (xi_height frame_rgb565_red) = 0).
Proof. apply ximage_to_image_shape. by_evaluation. Defined.

(** X18 — On a frame of depth at most 24 with the masks [0xFF0000],
    [0xFF00], [0xFF], every output pixel is the three low bytes of the
    packed pixel as red, green, blue, and opaque. *)
Theorem ximage_to_image_rgb24 (xi : XImage) :
  wrap32 (xi_width xi) * wrap32 (xi_height xi) * 4 < 2 ^ 32 ->
  xi_depth xi <= 24 ->
  xi_red_mask xi = 0xFF0000 -> xi_green_mask xi = 0xFF00 -> xi_blue_mask xi = 0xFF ->
  exists img,
    ximage_to_image (Some xi) = Some img /\
    forall x y, 0 <= x < width_ img -> 0 <= y < height_ img ->
      get_pixel img x y
      = Some (rgba (Z.land (Z.shiftr (XGetPixel xi x y) 16) 255)
                   (Z.land (Z.shiftr (XGetPixel xi x y) 8) 255)
                   (Z.land (XGetPixel xi x y) 255) 255).
Proof.
  intros Hb Hd Er Eg Eb.
  destruct (ximage_to_image_pixels xi Hb) as (img & E & _ & _ & _ & Hpix).
  exists img. split; [exact E|].
  intros x y Hx Hy. rewrite Hpix by assumption. f_equal.
  rewrite alpha_mask_of_shallow by assumption.
  unfold convert_pixel, rgba. rewrite Er, Eg, Eb. cbn [Z.eqb negb andb].
  f_equal.
  - rewrite <- (u8_of_to_Z (extract_channel _ _)).
    change 16711680 with (Z.shiftl 255 16). rewrite extract_channel_byte by lia. reflexivity.
  - rewrite <- (u8_of_to_Z (extract_channel _ _)).
    change 65280 with (Z.shiftl 255 8). rewrite extract_channel_byte by lia. reflexivity.
  - rewrite <- (u8_of_to_Z (extract_channel _ _)).
    change 255 with (Z.shiftl 255 0) at 1. rewrite extract_channel_byte by lia.
    rewrite Z.shiftr_0_r. reflexivity.
Qed.

Lemma ximage_to_image_rgb24_witness :
  exists img,
    ximage_to_image (Some frame_rgb24_red) = Some img /\
    forall x y, 0 <= x < width_ img -> 0 <= y < height_ img ->
      get_pixel img x y
      = Some (rgba (Z.land (Z.shiftr (XGetPixel frame_rgb24_red x y) 16) 255)
                   (Z.land (Z.shiftr (XGetPixel frame_rgb24_red x y) 8) 255)
                   (Z.land (XGetPixel frame_rgb24_red x y) 255) 255).
Proof.
  apply ximage_to_image_rgb24; [by_evaluation | by_evaluation | reflexivity..].
Defined.

(* ------------------------------------------------------------------ *)
(** ** The fixed-layout normaliser against the mask based one *)
(* ------------------------------------------------------------------ *)

Lemma ximage_to_image_fixed_pixels (byte_order : Z) (xi : XImage) :
  wrap32 (xi_width xi) * wrap32 (xi_height xi) * 4 < 2 ^ 32 ->
  exists img,
    ximage_to_image_fixed byte_order (Some xi) = Some img /\
    Image_ok img /\
    width_ img = wrap32 (xi_width xi) /\ height_ img = wrap32 (xi_height xi) /\
    forall x y, 0 <= x < width_ img -> 0 <= y < height_ img ->
                get_pixel img x y
                = Some (fixed_convert_pixel (xi_bits_per_pixel xi) byte_order
                                            (XGetPixel xi x y)).
Proof.
  intros Hb. unfold ximage_to_image_fixed.
  assert (Hw : 0 <= wrap32 (xi_width xi) < 2 ^ 32) by (apply Z.mod_pos_bound; lia).
  assert (Hh : 0 <= wrap32 (xi_height xi) < 2 ^ 32) by (apply Z.mod_pos_bound; lia).
  destruct (paint_loops (wrap32 (xi_width xi)) (wrap32 (xi_height xi))
              (fun x y img =>
                 set_pixel img x y
                   (fixed_convert_pixel (xi_bits_per_pixel xi) byte_order (XGetPixel xi x y)))
              (fun x y => fixed_convert_pixel (xi_bits_per_pixel xi) byte_order
                                              (XGetPixel xi x y)))
    as (out & E & Ok & Ew & Eh & Hpix); try assumption.
  { intros; reflexivity. }
  exists out. split; [exact E|]. split; [exact Ok|]. split; [exact Ew|]. split; [exact Eh|].
  intros x y Hx Hy. rewrite get_pixel_inside by lia. f_equal. apply Hpix; lia.
Qed.

Lemma fixed_convert_pixel_32 (byte_order pixel : Z) :
  fixed_convert_pixel 32 byte_order pixel
  = mkPixel (u8_of_Z (Z.land (Z.shiftr pixel 16) 255))
            (u8_of_Z (Z.land (Z.shiftr pixel 8) 255))
            (u8_of_Z (Z.land pixel 255))
            (if Z.land (Z.shiftr pixel 24) 255 =? 0
             then u8_of_Z 255 else u8_of_Z (Z.land (Z.shiftr pixel 24) 255)).
Proof.
  assert (Ha : 0 <= Z.land (Z.shiftr pixel 24) 255 <= 255).
  { split; [apply Z.land_nonneg; lia|].
    change 255 with (Z.ones 8) at 1. rewrite Z.land_ones by lia.
    pose proof (Z.mod_pos_bound (Z.shiftr pixel 24) (2 ^ 8) ltac:(lia)). lia. }
  unfold fixed_convert_pixel. cbn [Z.eqb Pos.eqb].
  destruct (byte_order =? LSBFirst); rewrite Z.shiftr_0_r, u8_to_of_Z_small by exact Ha;
    reflexivity.
Qed.

(** X19 — On a 32 bits per pixel frame with the masks [0xFF0000],
    [0xFF00], [0xFF] and a depth above 24, the mask based normaliser and
    the fixed-layout one produce the same image, whatever the byte order
    handed to the latter. *)
Theorem normalisers_agree_on_argb32 (byte_order : Z) (xi : XImage) :
  wrap32 (xi_width xi) * wrap32 (xi_height xi) * 4 < 2 ^ 32 ->
  xi_bits_per_pixel xi = 32 -> 24 < xi_depth xi ->
  xi_red_mask xi = 0xFF0000 -> xi_green_mask xi = 0xFF00 -> xi_blue_mask xi = 0xFF ->
  exists img,
    ximage_to_image (Some xi) = Some img /\
    ximage_to_image_fixed byte_order (Some xi) = Some img.
Proof.
  intros Hb Ebpp Hd Er Eg Eb.
  destruct (ximage_to_image_pixels xi Hb) as (img & E & Ok & Ew & Eh & Hpix).
  destruct (ximage_to_image_fixed_pixels byte_order xi Hb)
    as (img' & E' & Ok' & Ew' & Eh' & Hpix').
  exists img. split; [exact E|]. rewrite E'. f_equal.
  assert (Ed : data_ img' = data_ img).
  { apply data_ext; try assumption; try lia.
    intros x y Hx Hy.
    pose proof (Hpix' x y Hx Hy) as G'. rewrite get_pixel_inside in G' by lia.
    pose proof (Hpix x y ltac:(lia) ltac:(lia)) as G. rewrite get_pixel_inside in G by lia.
    assert (Em : alpha_mask_of xi = Z.shiftl 255 24).
    { unfold alpha_mask_of. rewrite Er, Eg, Eb, Ebpp.
      destruct (Z.gtb_spec (xi_depth xi) 24); [|lia]. by_evaluation. }
    assert (Ec : convert_pixel xi (alpha_mask_of xi) (XGetPixel xi x y)
                 = fixed_convert_pixel 32 byte_order (XGetPixel xi x y)).
    { rewrite fixed_convert_pixel_32, Em. unfold convert_pixel. rewrite Er, Eg, Eb.
      change (negb (Z.shiftl 255 24 =? 0)) with true. cbn [andb].
      rewrite <- (u8_of_to_Z (extract_channel _ 16711680)).
      rewrite <- (u8_of_to_Z (extract_channel _ 65280)).
      rewrite <- (u8_of_to_Z (extract_channel _ 255)).
      rewrite <- (u8_of_to_Z (extract_channel _ (Z.shiftl 255 24))).
      change 16711680 with (Z.shiftl 255 16). change 65280 with (Z.shiftl 255 8).
      rewrite !extract_channel_byte by lia.
      replace (u8_to_Z (extract_channel (XGetPixel xi x y) 255))
        with (Z.land (XGetPixel xi x y) 255)
        by (change 255 with (Z.shiftl 255 0) at 2;
            rewrite extract_channel_byte by lia; now rewrite Z.shiftr_0_r).
      assert (Ha : 0 <= Z.land (Z.shiftr (XGetPixel xi x y) 24) 255 <= 255).
      { split; [apply Z.land_nonneg; lia|].
        change 255 with (Z.ones 8) at 1. rewrite Z.land_ones by lia.
        pose proof (Z.mod_pos_bound (Z.shiftr (XGetPixel xi x y) 24) (2 ^ 8) ltac:(lia)). lia. }
      rewrite u8_to_of_Z_small by exact Ha. reflexivity. }
    rewrite Ebpp in G'. congruence. }
  destruct img' as [w' h' d'], img as [w0 h0 d0]. cbn [width_ height_ data_] in *.
  subst. reflexivity.
Qed.

Lemma normalisers_agree_on_argb32_witness :
  exists img,
    ximage_to_image
      (Some (mkXImage 1 1 32 32 0xFF0000 0xFF00 0xFF (fun _ _ => 0x80FF4020))) = Some img /\
    ximage_to_image_fixed LSBFirst
      (Some (mkXImage 1 1 32 32 0xFF0000 0xFF00 0xFF (fun _ _ => 0x80FF4020))) = Some img.
Proof.
  apply normalisers_agree_on_argb32; [by_evaluation | reflexivity | by_evaluation
                                      | reflexivity | reflexivity | reflexivity].
Defined.

Lemma round_div_floor (n d : Z) : 0 < d -> n / d <= round_div n d <= n / d + 1.
Proof.
  intros Hd. unfold round_div.
  replace (n / d) with (2 * n / (2 * d)) by (rewrite Z.div_mul_cancel_l; lia).
  split.
  - apply Z.div_le_mono; lia.
  - replace (2 * n / (2 * d) + 1) with ((2 * n + 1 * (2 * d)) / (2 * d))
      by (rewrite Z.div_add by lia; reflexivity).
    apply Z.div_le_mono; lia.
Qed.

(** A channel of [bits] contiguous bits at bit [s]: what each normaliser
    computes from the field value [v]. *)
Lemma extract_channel_field (pixel s bits : Z) :
  0 <= s -> 0 < bits -> s + bits <= 32 ->
  u8_to_Z (extract_channel pixel (Z.shiftl (Z.ones bits) s))
  = round_div (Z.land (Z.shiftr pixel s) (Z.ones bits) * 255) (Z.ones bits).
Proof.
  intros Hs Hb Hsb.
  assert (Ho : 0 < Z.ones bits < 2 ^ bits).
  { rewrite Z.ones_equiv. pose proof (Z.pow_pos_nonneg 2 bits ltac:(lia) ltac:(lia)).
    assert (2 ^ 1 <= 2 ^ bits) by (apply Z.pow_le_mono_r; lia). lia. }
  assert (Hm : 0 < Z.shiftl (Z.ones bits) s < 2 ^ 32).
  { rewrite Z.shiftl_mul_pow2 by lia.
    pose proof (Z.pow_pos_nonneg 2 s ltac:(lia) ltac:(lia)).
    assert (2 ^ bits * 2 ^ s <= 2 ^ 32)
      by (rewrite <- Z.pow_add_r by lia; apply Z.pow_le_mono_r; lia).
    nia. }
  assert (Hl : lowest_set_bit (Z.shiftl (Z.ones bits) s) = s).
  { apply lowest_set_bit_unique; try lia.
    - rewrite Z.shiftl_spec, Z.sub_diag by lia. apply Z.ones_spec_low. lia.
    - intros i Hi. apply Z.shiftl_spec_low. lia. }
  destruct (extract_channel_value pixel (Z.shiftl (Z.ones bits) s) Hm)
    as (_ & _ & _ & _ & Hr & _).
  rewrite Hr, Hl.
  rewrite Z.shiftr_land, Z.shiftr_shiftl_l, Z.sub_diag, Z.shiftl_0_r by lia.
  reflexivity.
Qed.

(** X20 — On a 565 pixel the fixed-layout normaliser truncates where the
    mask based one rounds: each colour channel of the former is the
    channel of the latter or one less, and both are opaque. *)
Theorem normalisers_differ_by_rounding_on_565 (byte_order pixel : Z) (xi : XImage) :
  xi_depth xi <= 24 ->
  xi_red_mask xi = 0xF800 -> xi_green_mask xi = 0x07E0 -> xi_blue_mask xi = 0x001F ->
  let p_mask := convert_pixel xi (alpha_mask_of xi) pixel in
  let p_fixed := fixed_convert_pixel 16 byte_order pixel in
  u8_to_Z (r p_fixed) <= u8_to_Z (r p_mask) <= u8_to_Z (r p_fixed) + 1 /\
  u8_to_Z (g p_fixed) <= u8_to_Z (g p_mask) <= u8_to_Z (g p_fixed) + 1 /\
  u8_to_Z (b p_fixed) <= u8_to_Z (b p_mask) <= u8_to_Z (b p_fixed) + 1 /\
  a p_mask = u8_of_Z 255 /\ a p_fixed = u8_of_Z 255.
Proof.
  intros Hd Er Eg Eb p_mask p_fixed.
  assert (Hfield : forall m w, 0 < w -> 0 <= Z.land m (Z.ones w) < 2 ^ w).
  { intros m w Hw. rewrite Z.land_ones by lia. apply Z.mod_pos_bound.
    apply Z.pow_pos_nonneg; lia. }
  assert (Hch : forall s bits,
             0 <= s -> 0 < bits <= 8 -> s + bits <= 32 ->
             let v := Z.land (Z.shiftr pixel s) (Z.ones bits) in
             u8_to_Z (u8_of_Z (v * 255 / Z.ones bits))
             <= u8_to_Z (extract_channel pixel (Z.shiftl (Z.ones bits) s))
             <= u8_to_Z (u8_of_Z (v * 255 / Z.ones bits)) + 1).
  { intros s bits Hs Hb Hsb v.
    rewrite extract_channel_field by lia. fold v.
    pose proof (Hfield (Z.shiftr pixel s) bits ltac:(lia)) as Hv. fold v in Hv.
    assert (Ho : Z.ones bits = 2 ^ bits - 1) by (rewrite Z.ones_equiv; lia).
    assert (Hp : 2 ^ 1 <= 2 ^ bits) by (apply Z.pow_le_mono_r; lia).
    assert (Hq : 0 <= v * 255 / Z.ones bits <= 255).
    { split; [apply Z.div_pos; lia|]. apply Z.div_le_upper_bound; nia. }
    rewrite u8_to_of_Z_small by exact Hq.
    apply round_div_floor. lia. }
  unfold p_mask, p_fixed, convert_pixel, fixed_convert_pixel.
  rewrite alpha_mask_of_shallow by assumption. rewrite Er, Eg, Eb.
  cbn [Z.eqb Pos.eqb negb andb r g b a].
  split; [|split; [|split; [|split]]]; try reflexivity.
  - exact (Hch 11 5 ltac:(lia) ltac:(lia) ltac:(lia)).
  - exact (Hch 5 6 ltac:(lia) ltac:(lia) ltac:(lia)).
  - pose proof (Hch 0 5 ltac:(lia) ltac:(lia) ltac:(lia)) as H0.
    cbv zeta in H0. rewrite Z.shiftr_0_r in H0. exact H0.
Qed.

Lemma normalisers_differ_by_rounding_on_565_witness :
  u8_to_Z (r (fixed_convert_pixel 16 LSBFirst 0x1800))
  <= u8_to_Z (r (convert_pixel frame_rgb565_red (alpha_mask_of frame_rgb565_red) 0x1800))
  <= u8_to_Z (r (fixed_convert_pixel 16 LSBFirst 0x1800)) + 1.
Proof.
  apply (proj1 (normalisers_differ_by_rounding_on_565 LSBFirst 0x1800 frame_rgb565_red
                  ltac:(by_evaluation) eq_refl eq_refl eq_refl)).
Defined.

(* ================================================================== *)
(** * The marker scan of the window tests *)
(* ================================================================== *)

(** The loop bound [size - MARKER_SIZE - MARKER_BORDER], computed in
    [uint32_t]: it wraps around for sizes below 18. *)
Lemma marker_bound (d : Z) : 0 <= d < 2 ^ 32 ->
  wrap32 (wrap32 (d - MARKER_SIZE) - MARKER_BORDER)
  = if d <? 18 then d - 18 + 2 ^ 32 else d - 18.
Proof.
  intros Hd. unfold wrap32, MARKER_SIZE, MARKER_BORDER.
  rewrite Zminus_mod_idemp_l. replace (d - 16 - 2) with (d - 18) by lia.
  destruct (Z.ltb_spec d 18).
  - symmetry. apply Z.mod_unique with (-1); lia.
  - apply Z.mod_small. lia.
Qed.

(** X21 — On an image with a side of at most 10 pixels, and no side from
    18 to 20, the size arithmetic of the scan wraps around, both loops are
    entered and the first read, at (10, 10), raises: the scan ends in an
    exception instead of reporting that the marker is absent.  The empty
    image is such an image. *)
Theorem find_marker_small_image_raises (fuel : nat) (img : Image) (marker_id : Z) :
  0 <= marker_id ->
  0 <= width_ img < 2 ^ 32 -> 0 <= height_ img < 2 ^ 32 ->
  width_ img <= 10 \/ height_ img <= 10 ->
  ~ 18 <= width_ img <= 20 -> ~ 18 <= height_ img <= 20 ->
  find_marker_in_image (Datatypes.S fuel) img marker_id = Raised.
Proof.
  intros _ Hw Hh Hsmall Nw Nh. unfold find_marker_in_image.
  rewrite !marker_bound by assumption.
  assert (Bh : (MARKER_BORDER <? (if height_ img <? 18 then height_ img - 18 + 2 ^ 32
                                  else height_ img - 18)) = true).
  { unfold MARKER_BORDER. apply Z.ltb_lt. destruct (Z.ltb_spec (height_ img) 18); lia. }
  assert (Bw : (MARKER_BORDER <? (if width_ img <? 18 then width_ img - 18 + 2 ^ 32
                                  else width_ img - 18)) = true).
  { unfold MARKER_BORDER. apply Z.ltb_lt. destruct (Z.ltb_spec (width_ img) 18); lia. }
  cbn [scan_loop]. rewrite Bh, Bw.
  assert (E : find_marker_at img (marker_of marker_id) 40 MARKER_BORDER MARKER_BORDER = Raised).
  { unfold find_marker_at, MARKER_BORDER, MARKER_SIZE.
    change (wrap32 (2 + 16 / 2)) with 10.
    unfold get_pixel.
    destruct (Z.geb_spec 10 (width_ img)), (Z.geb_spec 10 (height_ img));
      cbn [orb]; try reflexivity; lia. }
  rewrite E. reflexivity.
Qed.

Lemma find_marker_small_image_raises_witness :
  find_marker_in_image 1 Image_default 0 = Raised.
Proof.
  apply (find_marker_small_image_raises 0 Image_default 0);
    unfold Image_default; cbn [width_ height_]; lia.
Defined.

Lemma even_step (j i : Z) : Z.even (j - (i + 2)) = Z.even (j - i).
Proof.
  replace (j - i) with (j - (i + 2) + 2) by lia.
  rewrite Z.even_add. destruct (Z.even (j - (i + 2))); reflexivity.
Qed.

(** A scanning loop whose counter cannot wrap around and whose body
    neither raises nor runs out of fuel ends, given enough fuel, either
    normally after a body that finished at every index, or with the return
    of the first index whose body returns. *)
Lemma scan_loop_first {R : Type} (body : Z -> scan_result R) (bound : Z) :
  bound <= 2 ^ 32 - 2 ->
  forall fuel i,
    0 <= i -> Z.max 0 (bound - i) + 2 <= 2 * Z.of_nat fuel ->
    (forall j, i <= j < bound -> Z.even (j - i) = true ->
               body j = Finished \/ exists res, body j = Returned res) ->
    (scan_loop fuel bound i body = Finished /\
     forall j, i <= j < bound -> Z.even (j - i) = true -> body j = Finished) \/
    (exists j res,
        scan_loop fuel bound i body = Returned res /\
        i <= j < bound /\ Z.even (j - i) = true /\ body j = Returned res /\
        forall j', i <= j' < j -> Z.even (j' - i) = true -> body j' = Finished).
Proof.
  intros Hbound. induction fuel as [|fuel IH]; intros i Hi Hfuel Hbody; [lia|].
  cbn [scan_loop]. destruct (Z.ltb_spec i bound) as [Hlt|Hge].
  - assert (Hev : Z.even (i - i) = true) by (rewrite Z.sub_diag; reflexivity).
    destruct (Hbody i ltac:(lia) Hev) as [E|(res & E)]; rewrite E.
    + unfold wrap32. rewrite Z.mod_small by lia.
      destruct (IH (i + 2) ltac:(lia) ltac:(lia)) as [(EF & Hall)|(j & res & ER & Hj & Hje & Hbj & Hbefore)].
      * intros j Hj Hje. apply Hbody; [lia|]. now rewrite <- even_step.
      * left. split; [exact EF|]. intros j Hj Hje.
        destruct (Z.eq_dec j i) as [->|Hne]; [exact E|].
        assert (j <> i + 1).
        { intros ->. replace (i + 1 - i) with 1 in Hje by lia. discriminate. }
        apply Hall; [lia|]. now rewrite even_step.
      * right. exists j, res. split; [exact ER|]. split; [lia|].
        split; [now rewrite <- even_step|]. split; [exact Hbj|].
        intros j' Hj' Hje'.
        destruct (Z.eq_dec j' i) as [->|Hne]; [exact E|].
        assert (j' <> i + 1).
        { intros ->. replace (i + 1 - i) with 1 in Hje' by lia. discriminate. }
        apply Hbefore; [lia|]. now rewrite even_step.
    + right. exists i, res. split; [reflexivity|]. split; [lia|]. split; [exact Hev|].
      split; [exact E|]. intros j' Hj'. lia.
  - left. split; [reflexivity|]. intros j Hj. lia.
Qed.

Lemma fold_count_pairs {A : Type} (c : A -> bool) (l : list A) : forall m n : Z,
  fold_left (fun (s : Z * Z) k => ((if c k then fst s + 1 else fst s), snd s + 1)) l (m, n)
  = (m + Z.of_nat (length (filter c l)), n + Z.of_nat (length l)).
Proof.
  induction l as [|k l IH]; intros m n.
  - cbn. f_equal; lia.
  - cbn [fold_left filter length fst snd]. rewrite IH.
    destruct (c k); cbn [length]; f_equal; lia.
Qed.

(** Away from the right and lower borders the sampling loops never raise
    and count the close samples among sixteen. *)
Lemma sample_marker_inside (img : Image) (marker : WindowMarker) (tolerance x y : Z) :
  width_ img < 2 ^ 32 -> height_ img < 2 ^ 32 ->
  0 <= x < width_ img - 18 -> 0 <= y < height_ img - 18 ->
  sample_marker img marker tolerance x y
  = Some (close_samples img marker tolerance x y, 16).
Proof.
  intros Hw Hh Hx Hy. unfold sample_marker. change (MARKER_SIZE / 4) with 4.
  rewrite (double_loop_fold 4 4 _
             (fun k s => ((if marker_close tolerance
                                (pixel_at img (x + 4 * fst k) (y + 4 * snd k)) marker
                           then fst s + 1 else fst s), snd s + 1))).
  - f_equal.
    rewrite (fold_count_pairs
               (fun k => marker_close tolerance
                           (pixel_at img (x + 4 * fst k) (y + 4 * snd k)) marker)).
    unfold close_samples, sample_points. rewrite filter_map_length. cbn [fst snd].
    f_equal.
  - intros kx ky s Hkx Hky. cbn [fst snd].
    unfold wrap32. rewrite !Z.mod_small by lia.
    rewrite get_pixel_inside by lia. reflexivity.
Qed.

(** The body of the scan at a position away from the borders. *)
Lemma find_marker_at_inside (img : Image) (marker : WindowMarker) (tolerance x y : Z) :
  width_ img < 2 ^ 32 -> height_ img < 2 ^ 32 ->
  0 <= x < width_ img - 18 -> 0 <= y < height_ img - 18 ->
  find_marker_at img marker tolerance x y
  = if marker_hit img marker tolerance x y then Returned (x, y) else Finished.
Proof.
  intros Hw Hh Hx Hy. unfold find_marker_at, marker_hit.
  change (MARKER_SIZE / 2) with 8.
  unfold wrap32. rewrite !Z.mod_small by lia.
  rewrite get_pixel_inside by lia.
  destruct (marker_close tolerance (pixel_at img (x + 8) (y + 8)) marker); [|reflexivity].
  rewrite sample_marker_inside by assumption. cbn [andb].
  change (16 >? 0) with true. change (16 * 2 / 3) with 10. cbn [andb].
  rewrite Z.geb_leb. reflexivity.
Qed.

(** X22 — On an image of at least 18 by 18 pixels the scan never raises
    and, given fuel for its rounds, either returns false, and then no
    visited position passes the test, or returns true with the first
    visited position in row-major order that passes it: its centre pixel
    and at least 10 of its 16 samples are within 40 of the marker colour
    in red, green and blue. *)
Theorem find_marker_in_image_first_hit (fuel : nat) (img : Image) (marker_id : Z) :
  0 <= marker_id -> Image_ok img ->
  18 <= width_ img < 2 ^ 32 -> 18 <= height_ img < 2 ^ 32 ->
  Z.max (width_ img) (height_ img) <= 2 * Z.of_nat fuel ->
  (find_marker_in_image fuel img marker_id = Finished /\
   forall x y, scan_candidate (width_ img) x -> scan_candidate (height_ img) y ->
               marker_hit img (marker_of marker_id) 40 x y = false) \/
  (exists x y,
      find_marker_in_image fuel img marker_id = Returned (x, y) /\
      scan_candidate (width_ img) x /\ scan_candidate (height_ img) y /\
      marker_hit img (marker_of marker_id) 40 x y = true /\
      forall x' y', scan_candidate (width_ img) x' -> scan_candidate (height_ img) y' ->
                    y' < y \/ (y' = y /\ x' < x) ->
                    marker_hit img (marker_of marker_id) 40 x' y' = false).
Proof.
  intros _ _ Hw Hh Hfuel. unfold find_marker_in_image, scan_candidate.
  rewrite !marker_bound by lia.
  destruct (Z.ltb_spec (width_ img) 18); [lia|].
  destruct (Z.ltb_spec (height_ img) 18); [lia|].
  unfold MARKER_BORDER.
  set (marker := marker_of marker_id).
  set (row := fun y => scan_loop fuel (width_ img - 18) 2
                                 (fun x => find_marker_at img marker 40 x y)).
  assert (Ev2 : forall j, Z.even (j - 2) = Z.even j).
  { intros j. replace j with (j - 2 + 2) at 2 by lia. rewrite Z.even_add.
    destruct (Z.even (j - 2)); reflexivity. }
  assert (Hrow : forall y, 2 <= y < height_ img - 18 ->
            (row y = Finished /\
             forall x, 2 <= x < width_ img - 18 -> Z.even x = true ->
                       marker_hit img marker 40 x y = false) \/
            (exists x, row y = Returned (x, y) /\
                       2 <= x < width_ img - 18 /\ Z.even x = true /\
                       marker_hit img marker 40 x y = true /\
                       forall x', 2 <= x' < x -> Z.even x' = true ->
                                  marker_hit img marker 40 x' y = false)).
  { intros y Hy.
    assert (Hat : forall x, 2 <= x < width_ img - 18 ->
              find_marker_at img marker 40 x y
              = if marker_hit img marker 40 x y then Returned (x, y) else Finished).
    { intros x Hx. apply find_marker_at_inside; lia. }
    destruct (scan_loop_first (fun x => find_marker_at img marker 40 x y)
                (width_ img - 18) ltac:(lia) fuel 2 ltac:(lia) ltac:(lia))
      as [(EF & Hall)|(x & res & ER & Hx & Hxe & Hbx & Hbefore)].
    - intros x Hx _. rewrite Hat by lia.
      destruct (marker_hit img marker 40 x y); [right; eexists; reflexivity | now left].
    - left. split; [exact EF|]. intros x Hx Hxe.
      specialize (Hall x Hx ltac:(now rewrite Ev2)). rewrite Hat in Hall by lia.
      destruct (marker_hit img marker 40 x y); [discriminate | reflexivity].
    - right. exists x. rewrite Hat in Hbx by lia.
      destruct (marker_hit img marker 40 x y) eqn:Ehit; [|discriminate].
      injection Hbx as <-.
      split; [exact ER|]. split; [exact Hx|]. split; [now rewrite <- Ev2|].
      split; [reflexivity|].
      intros x' Hx' Hxe'. specialize (Hbefore x' ltac:(lia) ltac:(now rewrite Ev2)).
      rewrite Hat in Hbefore by lia.
      destruct (marker_hit img marker 40 x' y); [discriminate | reflexivity]. }
  destruct (scan_loop_first row (height_ img - 18) ltac:(lia) fuel 2 ltac:(lia) ltac:(lia))
    as [(EF & Hall)|(y & res & ER & Hy & Hye & Hby & Hbefore)].
  - intros y Hy _. destruct (Hrow y Hy) as [(E & _)|(x & E & _)];
      [now left | right; eexists; exact E].
  - left. split; [exact EF|]. intros x y (Hx & Hxe) (Hy & Hye).
    specialize (Hall y Hy ltac:(now rewrite Ev2)).
    destruct (Hrow y Hy) as [(_ & Hno)|(x0 & E & _)]; [now apply Hno | congruence].
  - right. destruct (Hrow y Hy) as [(E & _)|(x & E & Hx & Hxe & Hhit & Hfirst)];
      [congruence|].
    exists x, y. split; [congruence|]. split; [auto|]. split; [split; [lia | now rewrite <- Ev2]|].
    split; [exact Hhit|].
    intros x' y' (Hx' & Hxe') (Hy' & Hye') [Hlt | (-> & Hlt)].
    + specialize (Hbefore y' ltac:(lia) ltac:(now rewrite Ev2)).
      destruct (Hrow y' Hy') as [(_ & Hno)|(x0 & E0 & _)]; [now apply Hno | congruence].
    + apply Hfirst; [lia | exact Hxe'].
Qed.

Lemma find_marker_in_image_first_hit_witness :
  (find_marker_in_image 12 (Image_new 24 24) 0 = Finished /\
   forall x y, scan_candidate (width_ (Image_new 24 24)) x ->
               scan_candidate (height_ (Image_new 24 24)) y ->
               marker_hit (Image_new 24 24) (marker_of 0) 40 x y = false) \/
  (exists x y,
      find_marker_in_image 12 (Image_new 24 24) 0 = Returned (x, y) /\
      scan_candidate (width_ (Image_new 24 24)) x /\
      scan_candidate (height_ (Image_new 24 24)) y /\
      marker_hit (Image_new 24 24) (marker_of 0) 40 x y = true /\
      forall x' y', scan_candidate (width_ (Image_new 24 24)) x' ->
                    scan_candidate (height_ (Image_new 24 24)) y' ->
                    y' < y \/ (y' = y /\ x' < x) ->
                    marker_hit (Image_new 24 24) (marker_of 0) 40 x' y' = false).
Proof.
  apply find_marker_in_image_first_hit;
    [lia | apply Image_new_ok; lia | cbn [Image_new width_ height_]; lia ..].
Defined.
